(** * Image layer of the 3D panel: topic matching, geometry and resource lifecycle

    A shallow embedding of the [Images] scene-graph layer
    (the second document of
    [packages/studio-base/src/components/PlaybackSpeedControls.tsx]):
    the topic-matching helpers, the plane geometry builder and the per-topic
    resource manager with its asynchronous bitmap decodes. The playback
    speed menu of the first document is embedded in the module [Playback].

    Conventions.
    - A JavaScript [number] is a binary64 float ([PrimFloat.float]); [===] on
      numbers is [PrimFloat.eqb] (so [NaN] differs from itself).
    - A JavaScript string is a [string] holding its UTF-8 encoding; [===]
      is Leibniz equality, ["/"] is one byte that occurs in no longer
      sequence, and the default [Array.prototype.sort] order is the order
      [Js.le] of the UTF-16 code units the bytes encode (which is not the
      order of the bytes: U+FF61 sorts after U+1F600).
    - A [bigint] is a [Z].
    - Objects with identity (renderables, textures, materials, geometries,
      meshes) carry an allocation number; renderables live in a heap indexed
      by that number, because a decode callback keeps a reference to its
      renderable after the topic map has dropped it.
    - Calls that leave the layer ([renderer.emit], [renderer.layerErrors.*],
      [dispose()] on a three.js resource) are appended to a log.
    - [log.debug] calls are not modelled. *)

From Stdlib Require Import Floats ZArith Bool Ascii.
From stdpp Require Import base option list strings sorting gmap.

Open Scope string_scope.
Open Scope nat_scope.

(** ** JavaScript helpers *)

Module Js.

(** [s.split(sep)] for a one-character separator: never empty, and
    [split "/" ""] is [[""]]. *)
Fixpoint split (sep : ascii) (s : string) : list string :=
  match s with
  | EmptyString => [EmptyString]
  | String c rest =>
      if Ascii.eqb c sep then EmptyString :: split sep rest
      else match split sep rest with
           | hd :: tl => String c hd :: tl
           | [] => [String c EmptyString]
           end
  end.

(** A JavaScript string is a sequence of UTF-16 code units; a [string]
    holds its UTF-8 encoding. [codeUnits] reads the code units back: one
    for a code point below 0x10000 (a lone surrogate written as three
    bytes included), a surrogate pair for the others; a byte that starts
    no sequence reads as U+FFFD. *)
Definition continuation (c : ascii) : option N :=
  let b := N_of_ascii c in
  if ((0x80 <=? b) && (b <? 0xC0))%N then Some (b - 0x80)%N else None.

Definition units (codePoint : N) : list N :=
  if (codePoint <? 0x10000)%N then [codePoint]
  else if (codePoint <? 0x110000)%N then
    [0xD800 + (codePoint - 0x10000) / 0x400; 0xDC00 + (codePoint - 0x10000) mod 0x400]%N
  else [0xFFFD%N].

Fixpoint codeUnits (s : string) : list N :=
  match s with
  | EmptyString => []
  | String c rest =>
      let b := N_of_ascii c in
      let stray := 0xFFFD%N :: codeUnits rest in
      if (b <? 0x80)%N then b :: codeUnits rest
      else if (b <? 0xC0)%N then stray
      else
        match rest with
        | String c1 rest1 =>
            match continuation c1 with
            | Some x1 =>
                if (b <? 0xE0)%N then ((b - 0xC0) * 0x40 + x1)%N :: codeUnits rest1
                else
                  match rest1 with
                  | String c2 rest2 =>
                      match continuation c2 with
                      | Some x2 =>
                          if (b <? 0xF0)%N then
                            (((b - 0xE0) * 0x40 + x1) * 0x40 + x2)%N :: codeUnits rest2
                          else
                            match rest2 with
                            | String c3 rest3 =>
                                match continuation c3 with
                                | Some x3 =>
                                    units ((((b - 0xF0) * 0x40 + x1) * 0x40 + x2)
                                           * 0x40 + x3)%N
                                    ++ codeUnits rest3
                                | None => stray
                                end
                            | EmptyString => stray
                            end
                      | None => stray
                      end
                  | EmptyString => stray
                  end
            | None => stray
            end
        | EmptyString => stray
        end
  end.

(** Comparison of two sequences of code units, first difference first, a
    proper prefix before its extensions: the comparison of [<] on strings
    and of the default [sort]. *)
Fixpoint compareUnits (l k : list N) : comparison :=
  match l, k with
  | [], [] => Eq
  | [], _ :: _ => Lt
  | _ :: _, [] => Gt
  | x :: l, y :: k =>
      match (x ?= y)%N with
      | Eq => compareUnits l k
      | c => c
      end
  end.

(** The order of the default [sort] on strings. Two [string]s with the
    same code units hold the same JavaScript string, if any; they are
    ordered by their bytes, which keeps the order total on [string]. *)
Definition le (s t : string) : Prop :=
  match compareUnits (codeUnits s) (codeUnits t) with
  | Lt => True
  | Eq => String.le s t
  | Gt => False
  end.

#[global] Instance le_dec : RelDecision le.
Proof.
  intros s t. unfold le.
  destruct (compareUnits (codeUnits s) (codeUnits t)); apply _.
Defined.

(** [array.sort()] on an array of strings: ascending code-unit order. *)
Definition sort (l : list string) : list string := merge_sort le l.

(** Truthiness of a string-or-undefined value. *)
Definition truthy (s : option string) : bool :=
  match s with
  | Some EmptyString | None => false
  | Some _ => true
  end.

(** [v == undefined]. *)
Definition undefined {A} (v : option A) : bool :=
  match v with
  | None => true
  | Some _ => false
  end.

(** The loop counter of a [for] loop, as a number. *)
Definition num (n : nat) : float := PrimFloat.of_uint63 (Uint63.of_Z (Z.of_nat n)).

(** Storing a number into a [Float32Array]: round to nearest binary32,
    ties to even ([Math.fround]). *)
Definition fround (x : float) : float :=
  match Prim2SF x with
  | S754_finite s m e => SF2Prim (binary_round 24 128 s m e)
  | _ => x
  end.

(** [new Float32Array(n)]: [n] zeros. *)
Definition Float32Array (n : nat) : list float := replicate n 0%float.

(** [arr[i] = v] on a [Float32Array]; a write out of range is ignored. *)
Definition store32 (arr : list float) (i : nat) (v : float) : list float :=
  <[i := fround v]> arr.

End Js.

(** ** Layer settings *)

Record LayerSettingsImage := mkSettings {
  visible : bool;
  cameraInfoTopic : option string;
  distance : float;
  color : string;
}.

(** [Partial<LayerSettingsImage>]: each key is absent ([None]) or present.
    [cameraInfoTopic] may be present with the value [undefined]
    ([Some None]), as it is in [DEFAULT_SETTINGS]. *)
Record PartialSettings := mkPartial {
  p_visible : option bool;
  p_cameraInfoTopic : option (option string);
  p_distance : option float;
  p_color : option string;
}.

Definition DEFAULT_DISTANCE : float := 1%float.

Definition DEFAULT_SETTINGS : LayerSettingsImage :=
  {| visible := true;
     cameraInfoTopic := None;
     distance := DEFAULT_DISTANCE;
     color := "#ffffff" |}.

(** The empty object, and a full settings object seen as a partial one. *)
Definition noSettings : PartialSettings := mkPartial None None None None.

Definition asPartial (s : LayerSettingsImage) : PartialSettings :=
  {| p_visible := Some (visible s);
     p_cameraInfoTopic := Some (cameraInfoTopic s);
     p_distance := Some (distance s);
     p_color := Some (color s) |}.

(** [{ ...base, ...over }]: keys present in [over] win. *)
Definition spread (base : LayerSettingsImage) (over : PartialSettings)
  : LayerSettingsImage :=
  {| visible := default (visible base) (p_visible over);
     cameraInfoTopic := default (cameraInfoTopic base) (p_cameraInfoTopic over);
     distance := default (distance base) (p_distance over);
     color := default (color base) (p_color over) |}.

Definition set_cameraInfoTopic (s : LayerSettingsImage) (c : option string)
  : LayerSettingsImage :=
  {| visible := visible s; cameraInfoTopic := c;
     distance := distance s; color := color s |}.

Definition set_p_cameraInfoTopic (s : PartialSettings) (c : option string)
  : PartialSettings :=
  {| p_visible := p_visible s; p_cameraInfoTopic := Some c;
     p_distance := p_distance s; p_color := p_color s |}.

(** ** Topic matching and auto-selection *)

Definition cameraInfoTopicMatches (topic cameraInfoTopic : string) : bool :=
  let imageParts := Js.split "/" topic in
  let infoParts := Js.split "/" cameraInfoTopic in
  if negb (length imageParts =? length infoParts) then false
  else
    forallb (fun i => bool_decide (imageParts !! i = infoParts !! i))
            (seq 0 (length imageParts - 1)).

(** The candidates pushed by the loop over the set, in iteration order. *)
Definition candidatesFor (imageTopic : string) (cameraInfoTopics : list string)
  : list string :=
  List.filter (cameraInfoTopicMatches imageTopic) cameraInfoTopics.

(** [output] is mutated in place by the source; here the new value of the
    object is returned. [candidates[0]] of an empty array is [undefined]. *)
Definition autoSelectCameraInfoTopic (output : LayerSettingsImage)
    (imageTopic : string) (cameraInfoTopics : list string) : LayerSettingsImage :=
  let candidates := candidatesFor imageTopic cameraInfoTopics in
  let candidates := Js.sort candidates in
  set_cameraInfoTopic output (head candidates).

(** ** Geometry builder *)

Record Vector2 := mkVector2 { v2x : float; v2y : float }.

Record Vector3 := mkVector3 { v3x : float; v3y : float; v3z : float }.

(** [PinholeCameraModel] is imported by the source. Its two methods write
    their first argument and return it; they are taken here as the functions
    from the input pixel to the value written. *)
Record PinholeCameraModel := mkCameraModel {
  width : float;
  height : float;
  rectifyPixel : Vector2 → Vector2;
  projectPixelTo3dRay : Vector2 → Vector3;
}.

Definition multiplyScalar (vec : Vector3) (scalar : float) : Vector3 :=
  {| v3x := v3x vec * scalar;
     v3y := v3y vec * scalar;
     v3z := v3z vec * scalar |}%float.

(** The "position" and "uv" attributes set on the [THREE.PlaneGeometry]. *)
Record GeometryAttributes := mkAttributes {
  position : list float;
  uv : list float;
}.

(** The mutable locals of [createGeometry]'s loops. *)
Record GridState := mkGrid {
  g_pixel : Vector2;
  g_p : Vector3;
  g_vertices : list float;
  g_uvs : list float;
}.

(** [1e-3], the nearest binary64 value. *)
Definition EPS : float := 0x1.0624dd2f1a9fcp-10%float.

Definition widthSegments : nat := 1.
Definition heightSegments : nat := 1.

(** One iteration of the inner loop. *)
Definition gridCell (cameraModel : PinholeCameraModel) (depth : float)
    (segment_width segment_height : float) (gridX gridY gridX1 : nat)
    (iy ix : nat) (g : GridState) : GridState :=
  let vOffset := (iy * gridX1 + ix) * 3 in
  let uvOffset := (iy * gridX1 + ix) * 2 in
  let pixel := {| v2x := Js.num ix * segment_width;
                  v2y := Js.num iy * segment_height |}%float in
  let pixel := rectifyPixel cameraModel pixel in
  let p := projectPixelTo3dRay cameraModel pixel in
  let p := multiplyScalar p depth in
  let vertices := Js.store32 (g_vertices g) (vOffset + 0) (v3x p) in
  let vertices := Js.store32 vertices (vOffset + 1) (v3y p) in
  let vertices := Js.store32 vertices (vOffset + 2) (v3z p - EPS)%float in
  let uvs := Js.store32 (g_uvs g) (uvOffset + 0) (Js.num ix / Js.num gridX)%float in
  let uvs := Js.store32 uvs (uvOffset + 1) (Js.num iy / Js.num gridY)%float in
  {| g_pixel := pixel; g_p := p; g_vertices := vertices; g_uvs := uvs |}.

Definition createGeometry (cameraModel : PinholeCameraModel) (depth : float)
  : GeometryAttributes :=
  let gridX := widthSegments in
  let gridY := heightSegments in
  let gridX1 := gridX + 1 in
  let gridY1 := gridY + 1 in
  let size := gridX1 * gridY1 in
  let segment_width := (width cameraModel / Js.num gridX)%float in
  let segment_height := (height cameraModel / Js.num gridY)%float in
  let g0 := {| g_pixel := mkVector2 0 0; g_p := mkVector3 0 0 0;
               g_vertices := Js.Float32Array (size * 3);
               g_uvs := Js.Float32Array (size * 2) |} in
  let g :=
    foldl (fun g iy =>
             foldl (fun g ix =>
                      gridCell cameraModel depth segment_width segment_height
                               gridX gridY gridX1 iy ix g)
                   g (seq 0 gridX1))
          g0 (seq 0 gridY1) in
  {| position := g_vertices g; uv := g_uvs g |}.

#[global] Arguments createGeometry : simpl never.

(** ** Messages *)

Record RosTime := mkTime { sec : Z; nsec : Z }.

Record Header := mkHeader { stamp : RosTime; frame_id : string }.

Record Image := mkImage {
  img_header : Header;
  img_height : float;
  img_width : float;
  img_encoding : string;
  img_data : list Byte.byte;
}.

Record CompressedImage := mkCompressed {
  cmp_header : Header;
  format : string;
  cmp_data : list Byte.byte;
}.

(** [Image | CompressedImage]. *)
Inductive ImageMessage :=
| Raw (raw : Image)
| Compressed (compressed : CompressedImage).

Definition header (image : ImageMessage) : Header :=
  match image with
  | Raw raw => img_header raw
  | Compressed c => cmp_header c
  end.

(** [(image as Partial<CompressedImage>).format]: [undefined] on a raw image. *)
Definition formatOf (image : ImageMessage) : option string :=
  match image with
  | Raw _ => None
  | Compressed c => Some (format c)
  end.

Record CameraInfo := mkCameraInfo {
  ci_header : Header;
  ci_height : float;
  ci_width : float;
}.

Record Quaternion := mkQuaternion { qx : float; qy : float; qz : float; qw : float }.

Record Pose := mkPose { pose_position : Vector3; pose_orientation : Quaternion }.

Record ColorRGBA := mkColor { col_r : float; col_g : float; col_b : float; col_a : float }.

(** What the browser's decoder hands back. *)
Record ImageBitmap := mkBitmap { bm_width : N; bm_height : N }.

(** The helpers the source imports from sibling modules that are not part of
    this development. *)
Class Externals := {
  stringToRgba : string → ColorRGBA;
  rosTimeToNanoSec : RosTime → Z;
  makePose : Pose;
  MISSING_TRANSFORM : string;
  missingTransformMessage : string → string → string → string;
}.

Definition CREATE_BITMAP_ERR : string := "CreateBitmap".

(** ** Scene objects *)

(** [THREE.CanvasTexture]; the sampler arguments are constants of the source. *)
Record Texture := mkTexture {
  tex_id : nat;
  tex_image : ImageBitmap;
  tex_needsUpdate : bool;
}.

(** [THREE.MeshBasicMaterial]; [side] is always [DoubleSide]. *)
Record Material := mkMaterial {
  mat_id : nat;
  mat_name : string;
  mat_color : float * float * float;
  mat_map : nat;
  mat_opacity : float;
  mat_transparent : bool;
  mat_depthWrite : bool;
}.

Record PlaneGeometry := mkGeometry {
  geo_id : nat;
  geo_attributes : GeometryAttributes;
}.

Record Mesh := mkMesh {
  mesh_id : nat;
  mesh_geometry : nat;
  mesh_material : nat;
}.

(** [THREE.Object3D & { userData }]. *)
Record ImageRenderable := mkRenderable {
  name : string;
  obj_visible : bool;
  obj_children : list nat;
  ud_topic : string;
  ud_settings : LayerSettingsImage;
  ud_image : ImageMessage;
  ud_pose : Pose;
  ud_srcTime : Z;
  ud_texture : option Texture;
  ud_material : option Material;
  ud_geometry : option PlaneGeometry;
  ud_mesh : option Mesh;
}.

Definition set_obj_visible (o : ImageRenderable) (v : bool) : ImageRenderable :=
  mkRenderable (name o) v (obj_children o) (ud_topic o) (ud_settings o)
    (ud_image o) (ud_pose o) (ud_srcTime o) (ud_texture o) (ud_material o)
    (ud_geometry o) (ud_mesh o).

Definition set_obj_children (o : ImageRenderable) (v : list nat) : ImageRenderable :=
  mkRenderable (name o) (obj_visible o) v (ud_topic o) (ud_settings o)
    (ud_image o) (ud_pose o) (ud_srcTime o) (ud_texture o) (ud_material o)
    (ud_geometry o) (ud_mesh o).

Definition set_ud_settings (o : ImageRenderable) (v : LayerSettingsImage) : ImageRenderable :=
  mkRenderable (name o) (obj_visible o) (obj_children o) (ud_topic o) v
    (ud_image o) (ud_pose o) (ud_srcTime o) (ud_texture o) (ud_material o)
    (ud_geometry o) (ud_mesh o).

Definition set_ud_pose (o : ImageRenderable) (v : Pose) : ImageRenderable :=
  mkRenderable (name o) (obj_visible o) (obj_children o) (ud_topic o)
    (ud_settings o) (ud_image o) v (ud_srcTime o) (ud_texture o)
    (ud_material o) (ud_geometry o) (ud_mesh o).

Definition set_ud_texture (o : ImageRenderable) (v : option Texture) : ImageRenderable :=
  mkRenderable (name o) (obj_visible o) (obj_children o) (ud_topic o)
    (ud_settings o) (ud_image o) (ud_pose o) (ud_srcTime o) v
    (ud_material o) (ud_geometry o) (ud_mesh o).

Definition set_ud_material (o : ImageRenderable) (v : option Material) : ImageRenderable :=
  mkRenderable (name o) (obj_visible o) (obj_children o) (ud_topic o)
    (ud_settings o) (ud_image o) (ud_pose o) (ud_srcTime o) (ud_texture o)
    v (ud_geometry o) (ud_mesh o).

Definition set_ud_geometry (o : ImageRenderable) (v : option PlaneGeometry) : ImageRenderable :=
  mkRenderable (name o) (obj_visible o) (obj_children o) (ud_topic o)
    (ud_settings o) (ud_image o) (ud_pose o) (ud_srcTime o) (ud_texture o)
    (ud_material o) v (ud_mesh o).

Definition set_ud_mesh (o : ImageRenderable) (v : option Mesh) : ImageRenderable :=
  mkRenderable (name o) (obj_visible o) (obj_children o) (ud_topic o)
    (ud_settings o) (ud_image o) (ud_pose o) (ud_srcTime o) (ud_texture o)
    (ud_material o) (ud_geometry o) v.

(** ** The renderer and the layer *)

(** [renderer.transformTree], seen through the one question the layer asks:
    render frame, fixed frame, source frame, destination time, source time. *)
Definition TransformTree : Type := string → string → string → Z → Z → option Pose.

(** The parts of the shared [Renderer] the layer reads and writes.
    [camerasByTopic] gives, per camera-info topic, the
    [userData.cameraModel] of that topic's camera renderable. *)
Record Renderer := mkRenderer {
  config_topics : gmap string PartialSettings;
  camerasByTopic : gmap string (option PinholeCameraModel);
  renderFrameId : option string;
  fixedFrameId : option string;
  transformTree : TransformTree;
}.

Definition set_config_topics (rd : Renderer) (v : gmap string PartialSettings) : Renderer :=
  mkRenderer v (camerasByTopic rd) (renderFrameId rd) (fixedFrameId rd) (transformTree rd).

(** Calls that leave the layer. *)
Inductive Event :=
| Emit (path : list string)
| AddToTopic (topic errorId message : string)
| RemoveFromTopic (topic errorId : string)
| ClearTopic (topic : string)
| DisposeTexture (id : nat)
| DisposeMaterial (id : nat)
| DisposeGeometry (id : nat).

(** A [createBitmap] promise that has not settled: the closure of its
    callbacks holds the renderable object and the topic. *)
Record Decode := mkDecode {
  dec_renderable : nat;
  dec_topic : string;
  dec_image : CompressedImage;
}.

(** The [Images] object, the renderables it ever created (the heap, indexed
    by object number), the promises in flight and the log of outbound calls. *)
Record Images := mkImages {
  renderer : Renderer;
  imagesByTopic : list (string * nat);
  cameraInfoTopics : list string;
  children : list nat;
  layer_visible : bool;
  heap : list ImageRenderable;
  decodes : list Decode;
  nextId : nat;
  log : list Event;
}.

Definition set_renderer (st : Images) (v : Renderer) : Images :=
  mkImages v (imagesByTopic st) (cameraInfoTopics st) (children st)
    (layer_visible st) (heap st) (decodes st) (nextId st) (log st).

Definition set_imagesByTopic (st : Images) (v : list (string * nat)) : Images :=
  mkImages (renderer st) v (cameraInfoTopics st) (children st)
    (layer_visible st) (heap st) (decodes st) (nextId st) (log st).

Definition set_cameraInfoTopics (st : Images) (v : list string) : Images :=
  mkImages (renderer st) (imagesByTopic st) v (children st)
    (layer_visible st) (heap st) (decodes st) (nextId st) (log st).

Definition set_children (st : Images) (v : list nat) : Images :=
  mkImages (renderer st) (imagesByTopic st) (cameraInfoTopics st) v
    (layer_visible st) (heap st) (decodes st) (nextId st) (log st).

Definition set_layer_visible (st : Images) (v : bool) : Images :=
  mkImages (renderer st) (imagesByTopic st) (cameraInfoTopics st) (children st)
    v (heap st) (decodes st) (nextId st) (log st).

Definition set_heap (st : Images) (v : list ImageRenderable) : Images :=
  mkImages (renderer st) (imagesByTopic st) (cameraInfoTopics st) (children st)
    (layer_visible st) v (decodes st) (nextId st) (log st).

Definition set_decodes (st : Images) (v : list Decode) : Images :=
  mkImages (renderer st) (imagesByTopic st) (cameraInfoTopics st) (children st)
    (layer_visible st) (heap st) v (nextId st) (log st).

Definition set_nextId (st : Images) (v : nat) : Images :=
  mkImages (renderer st) (imagesByTopic st) (cameraInfoTopics st) (children st)
    (layer_visible st) (heap st) (decodes st) v (log st).

Definition set_log (st : Images) (v : list Event) : Images :=
  mkImages (renderer st) (imagesByTopic st) (cameraInfoTopics st) (children st)
    (layer_visible st) (heap st) (decodes st) (nextId st) v.

Definition emit (e : Event) (st : Images) : Images := set_log st (log st ++ [e]).

(** [new ...]: take the next object number. *)
Definition allocate (st : Images) : Images := set_nextId st (S (nextId st)).

(** [imagesByTopic.get(topic)]. *)
Definition mapGet (m : list (string * nat)) (topic : string) : option nat :=
  snd <$> List.find (fun kv => bool_decide (kv.1 = topic)) m.

(** Write a renderable back to its place in the heap. *)
Definition store (rid : nat) (o : ImageRenderable) (st : Images) : Images :=
  set_heap st (<[rid := o]> (heap st)).

(** [new Images(renderer)]. *)
Definition initial (rd : Renderer) : Images :=
  {| renderer := rd; imagesByTopic := []; cameraInfoTopics := [];
     children := []; layer_visible := true; heap := []; decodes := [];
     nextId := 0; log := [] |}.

(** The options list built by the settings node provider registered in the
    constructor. *)
Definition cameraInfoOptions (topicName : string) (st : Images) : list (string * string) :=
  (fun c => (c, c)) <$> List.filter (cameraInfoTopicMatches topicName) (cameraInfoTopics st).

(** How a call ends. The only [throw] of the layer carries the image whose
    width, height and encoding make up the message. *)
Inductive Completion :=
| Normal
| Throw (unhandled : ImageMessage).

(** A renderable under mutation, together with the rest of the layer. *)
Definition Focus : Type := ImageRenderable * Images.

(** [renderable.remove(mesh)]: drop the first occurrence from the children. *)
Fixpoint removeChild (cs : list nat) (id : nat) : list nat :=
  match cs with
  | [] => []
  | c :: cs' => if c =? id then cs' else c :: removeChild cs' id
  end.

(** The block [if (userData.mesh) { renderable.remove(mesh); mesh = undefined }]. *)
Definition detachMesh (o : ImageRenderable) : ImageRenderable :=
  match ud_mesh o with
  | Some m => set_ud_mesh (set_obj_children o (removeChild (obj_children o) (mesh_id m))) None
  | None => o
  end.

Definition tryCreateMesh (f : Focus) : Focus :=
  let '(o, st) := f in
  match ud_mesh o, ud_geometry o, ud_material o with
  | None, Some geometry, Some material =>
      let mesh := {| mesh_id := nextId st;
                     mesh_geometry := geo_id geometry;
                     mesh_material := mat_id material |} in
      let o := set_ud_mesh o (Some mesh) in
      (set_obj_children o (obj_children o ++ [mesh_id mesh]), allocate st)
  | _, _, _ => f
  end.

Section Layer.
Context `{Externals}.

Definition createMaterial (id : nat) (texture : Texture) (renderable : ImageRenderable)
  : Material :=
  let tempColor := stringToRgba (color (ud_settings renderable)) in
  let transparent := (col_a tempColor <? 1)%float in
  {| mat_id := id;
     mat_name := ud_topic renderable ++ ":Material";
     mat_color := (col_r tempColor, col_g tempColor, col_b tempColor);
     mat_map := tex_id texture;
     mat_opacity := col_a tempColor;
     mat_transparent := transparent;
     mat_depthWrite := negb transparent |}.

Definition rebuildMaterial (f : Focus) : Focus :=
  let '(o, st) := f in
  let texture := ud_texture o in
  let st := match ud_material o with
            | Some m => emit (DisposeMaterial (mat_id m)) st
            | None => st
            end in
  let '(material, st) :=
    match texture with
    | Some t => (Some (createMaterial (nextId st) t o), allocate st)
    | None => (None, st)
    end in
  (detachMesh (set_ud_material o material), st).

(** The first block of the update: dispose of the current geometry. *)
Definition disposeGeometry (f : Focus) : Focus :=
  let '(o, st) := f in
  let st := match ud_geometry o with
            | Some geo => emit (DisposeGeometry (geo_id geo)) st
            | None => st
            end in
  (detachMesh (set_ud_geometry o None), st).

(** The second block: create the plane geometry if needed. The test reads
    [cameraInfoTopic] from the [settings] argument of the update. *)
Definition createGeometryIfNeeded (settings : PartialSettings) (f : Focus) : Focus :=
  let '(o, st) := f in
  match p_cameraInfoTopic settings, ud_geometry o with
  | Some (Some cameraInfoTopic), None =>
      match camerasByTopic (renderer st) !! cameraInfoTopic with
      | Some (Some cameraModel) =>
          let distance := distance (ud_settings o) in
          let geometry := {| geo_id := nextId st;
                             geo_attributes := createGeometry cameraModel distance |} in
          (detachMesh (set_ud_geometry o (Some geometry)), allocate st)
      | _ => f
      end
  | _, _ => f
  end.

(** [createBitmap(compressed).then(...).catch(...)]: the promise is left in
    flight; its callbacks run when it settles. *)
Definition createBitmap (rid : nat) (topic : string) (compressed : CompressedImage)
    (st : Images) : Images :=
  set_decodes st (decodes st ++ [mkDecode rid topic compressed]).

(** The body of [_updateImageRenderable] on the renderable [o], which is
    object [rid] of the heap. *)
Definition updateBody (rid : nat) (o : ImageRenderable) (image : ImageMessage)
    (settings : PartialSettings) (st : Images) : Completion * Focus :=
  let prevSettings := ud_settings o in
  let newSettings := spread prevSettings settings in
  let geometrySettingsEqual :=
    bool_decide (cameraInfoTopic newSettings = cameraInfoTopic prevSettings)
    && (distance newSettings =? distance prevSettings)%float in
  let materialSettingsEqual :=
    bool_decide (color newSettings = color prevSettings) in
  let topic := ud_topic o in
  let f : Focus := (set_ud_settings o newSettings, st) in
  let f := if negb geometrySettingsEqual then disposeGeometry f else f in
  let f := createGeometryIfNeeded settings f in
  if Js.truthy (formatOf image) then
    match image with
    | Compressed compressed =>
        let f : Focus := (f.1, createBitmap rid topic compressed f.2) in
        let f := if Js.undefined (ud_material f.1) || negb materialSettingsEqual
                 then rebuildMaterial f else f in
        (Normal, tryCreateMesh f)
    | Raw _ => (Throw image, f)
    end
  else (Throw image, f).

Definition _updateImageRenderable (rid : nat) (image : ImageMessage)
    (settings : PartialSettings) (st : Images) : Completion * Images :=
  match heap st !! rid with
  | Some o =>
      let '(c, (o, st)) := updateBody rid o image settings st in
      (c, store rid o st)
  | None => (Normal, st)
  end.

(** The [then] callback of a decode: [d] is what the closure captured. *)
Definition onBitmap (d : Decode) (bitmap : ImageBitmap) (st : Images) : Images :=
  match heap st !! dec_renderable d with
  | Some o =>
      let '(o, st) :=
        match ud_texture o with
        | None =>
            let texture := {| tex_id := nextId st; tex_image := bitmap;
                              tex_needsUpdate := true |} in
            let o := set_ud_texture o (Some texture) in
            tryCreateMesh (rebuildMaterial (o, allocate st))
        | Some t =>
            (set_ud_texture o (Some {| tex_id := tex_id t; tex_image := bitmap;
                                       tex_needsUpdate := true |}), st)
        end in
      emit (RemoveFromTopic (dec_topic d) CREATE_BITMAP_ERR)
           (store (dec_renderable d) o st)
  | None => st
  end.

(** The [catch] callback of a decode. *)
Definition onBitmapError (d : Decode) (message : string) (st : Images) : Images :=
  emit (AddToTopic (dec_topic d) CREATE_BITMAP_ERR ("createBitmap failed: " ++ message)) st.

(** Promise [i] of those in flight settles, with a bitmap or with an error
    message. *)
Definition settleDecode (i : nat) (outcome : ImageBitmap + string) (st : Images)
  : Images :=
  match decodes st !! i with
  | Some d =>
      let st := set_decodes st (delete i (decodes st)) in
      match outcome with
      | inl bitmap => onBitmap d bitmap st
      | inr message => onBitmapError d message st
      end
  | None => st
  end.

Definition dispose (st : Images) : Images :=
  let disposeOne (st : Images) (rid : nat) : Images :=
    match heap st !! rid with
    | Some o =>
        let st := match ud_texture o with
                  | Some t => emit (DisposeTexture (tex_id t)) st
                  | None => st
                  end in
        let st := match ud_material o with
                  | Some m => emit (DisposeMaterial (mat_id m)) st
                  | None => st
                  end in
        let st := match ud_geometry o with
                  | Some geo => emit (DisposeGeometry (geo_id geo)) st
                  | None => st
                  end in
        let o := set_ud_texture o None in
        let o := set_ud_material o None in
        let o := set_ud_geometry o None in
        let o := set_ud_mesh o None in
        store rid o st
    | None => st
    end in
  let st := foldl disposeOne st (imagesByTopic st).*2 in
  let st := set_children st [] in
  set_imagesByTopic st [].

Definition addImageMessage (topic : string) (image : ImageMessage) (st : Images)
  : Completion * Images :=
  let userSettings := config_topics (renderer st) !! topic in
  (* Create an ImageRenderable for this topic if it doesn't already exist *)
  let '(rid, st) :=
    match mapGet (imagesByTopic st) topic with
    | Some rid => (rid, st)
    | None =>
        let rid := length (heap st) in
        let renderable :=
          {| name := topic;
             obj_visible := true;
             obj_children := [];
             ud_topic := topic;
             ud_settings := spread DEFAULT_SETTINGS (default noSettings userSettings);
             ud_image := image;
             ud_pose := makePose;
             ud_srcTime := rosTimeToNanoSec (stamp (header image));
             ud_texture := None;
             ud_material := None;
             ud_geometry := None;
             ud_mesh := None |} in
        let st := set_heap st (heap st ++ [renderable]) in
        let st := set_children st (children st ++ [rid]) in
        (rid, set_imagesByTopic st (imagesByTopic st ++ [(topic, rid)]))
    end in
  match heap st !! rid with
  | Some o =>
      (* Auto-select settings.cameraInfoTopic if it's not already set *)
      let '(o, st) :=
        if Js.undefined (cameraInfoTopic (ud_settings o)) then
          let settings :=
            autoSelectCameraInfoTopic (ud_settings o) topic (cameraInfoTopics st) in
          let o := set_ud_settings o settings in
          match cameraInfoTopic settings with
          | Some selected =>
              let updatedUserSettings :=
                set_p_cameraInfoTopic (default noSettings userSettings) (Some selected) in
              let rd := set_config_topics (renderer st)
                          (<[topic := updatedUserSettings]> (config_topics (renderer st))) in
              (o, emit (Emit ["topics"; topic]) (set_renderer st rd))
          | None => (o, st)
          end
        else (o, st) in
      let st := store rid o st in
      _updateImageRenderable rid image (asPartial (ud_settings o)) st
  | None => (Normal, st)
  end.

Definition addCameraInfoMessage (topic : string) (_cameraInfo : CameraInfo)
    (st : Images) : Completion * Images :=
  let updated := negb (bool_decide (topic ∈ cameraInfoTopics st)) in
  let st := if updated then set_cameraInfoTopics st (cameraInfoTopics st ++ [topic])
            else st in
  let '(c, st) :=
    match mapGet (imagesByTopic st) topic with
    | Some rid =>
        match heap st !! rid with
        | Some o => _updateImageRenderable rid (ud_image o) (asPartial (ud_settings o)) st
        | None => (Normal, st)
        end
    | None => (Normal, st)
    end in
  match c with
  | Normal => (Normal, if updated then emit (Emit ["topics"]) st else st)
  | Throw _ => (c, st)
  end.

Definition setTopicSettings (topic : string) (settings : PartialSettings)
    (st : Images) : Completion * Images :=
  match mapGet (imagesByTopic st) topic with
  | Some rid =>
      match heap st !! rid with
      | Some o => _updateImageRenderable rid (ud_image o) settings st
      | None => (Normal, st)
      end
  | None => (Normal, st)
  end.

(** Modelled from the spec: [updatePose] is imported from a module that is
    not part of this development. The Transform Resolver contract is
    [resolve(renderable, tree, renderFrame, fixedFrame, sourceFrame,
    currentTime, sourceTime) -> success|failure], mutating the renderable's
    pose in place on success. *)
Definition updatePose (renderable : ImageRenderable) (tree : TransformTree)
    (renderFrameId fixedFrameId srcFrameId : string) (dstTime srcTime : Z)
  : ImageRenderable * bool :=
  match tree renderFrameId fixedFrameId srcFrameId dstTime srcTime with
  | Some pose => (set_ud_pose renderable pose, true)
  | None => (renderable, false)
  end.

(** One iteration of the loop of [startFrame], on object [rid]. *)
Definition frameRenderable (renderFrameId fixedFrameId : string) (currentTime : Z)
    (st : Images) (rid : nat) : Images :=
  match heap st !! rid with
  | Some o =>
      let o := set_obj_visible o (visible (ud_settings o)) in
      if negb (obj_visible o) then
        emit (ClearTopic (ud_topic o)) (store rid o st)
      else
        let srcTime := currentTime in
        let frameId := frame_id (header (ud_image o)) in
        let '(o, updated) :=
          updatePose o (transformTree (renderer st)) renderFrameId fixedFrameId
                     frameId currentTime srcTime in
        let st := store rid o st in
        if negb updated then
          let message := missingTransformMessage renderFrameId fixedFrameId frameId in
          emit (AddToTopic (ud_topic o) MISSING_TRANSFORM message) st
        else st
  | None => st
  end.

Definition startFrame (currentTime : Z) (st : Images) : Images :=
  match renderFrameId (renderer st), fixedFrameId (renderer st) with
  | Some renderFrameId, Some fixedFrameId =>
      let st := set_layer_visible st true in
      foldl (frameRenderable renderFrameId fixedFrameId currentTime) st
            (imagesByTopic st).*2
  | _, _ => set_layer_visible st false
  end.

(** ** Histories of the layer *)

(** What can happen to the layer: a call of one of its public methods, a
    decode settling, or the rest of the application changing the renderer
    (configuration, camera models, frames, transforms). *)
Inductive Op :=
| AddImageMessage (topic : string) (image : ImageMessage)
| AddCameraInfoMessage (topic : string) (cameraInfo : CameraInfo)
| SetTopicSettings (topic : string) (settings : PartialSettings)
| StartFrame (currentTime : Z)
| Dispose
| SettleDecode (i : nat) (outcome : ImageBitmap + string)
| RendererChanged (rd : Renderer).

(** The state after an operation; a [throw] leaves the mutations made
    before it in place. *)
Definition step (st : Images) (op : Op) : Images :=
  match op with
  | AddImageMessage topic image => (addImageMessage topic image st).2
  | AddCameraInfoMessage topic info => (addCameraInfoMessage topic info st).2
  | SetTopicSettings topic settings => (setTopicSettings topic settings st).2
  | StartFrame currentTime => startFrame currentTime st
  | Dispose => dispose st
  | SettleDecode i outcome => settleDecode i outcome st
  | RendererChanged rd => set_renderer st rd
  end.

Definition run (ops : list Op) (st : Images) : Images := foldl step st ops.

(** No operation of the history supplies an image the update rejects. *)
Definition suppliesDecodable (op : Op) : bool :=
  match op with
  | AddImageMessage _ image => Js.truthy (formatOf image)
  | _ => true
  end.

End Layer.

(** ** Vocabulary of the statements *)

(** The three coordinates the geometry builder is said to store for the
    corner pixel [(px, py)]: rectify, project to a ray, scale by the
    distance, subtract one thousandth from the depth (the binary64 nearest
    to it, written out); each stored as a binary32. *)
Definition spec_cornerVertex (cameraModel : PinholeCameraModel) (distance : float)
    (px py : float) : list float :=
  let ray := projectPixelTo3dRay cameraModel
               (rectifyPixel cameraModel (mkVector2 px py)) in
  [Js.fround (v3x ray * distance); Js.fround (v3y ray * distance);
   Js.fround (v3z ray * distance - 0x1.0624dd2f1a9fcp-10)]%float.

(** A mesh pairs a geometry and a material that are both there. *)
Definition meshBacked (o : ImageRenderable) : Prop :=
  ud_mesh o ≠ None → ud_geometry o ≠ None ∧ ud_material o ≠ None.

(** A texture never goes without its material. *)
Definition textured (o : ImageRenderable) : Prop :=
  ud_texture o ≠ None → ud_material o ≠ None.

Definition coherent (o : ImageRenderable) : Prop := meshBacked o ∧ textured o.

(** Geometry and material together always carry a mesh. *)
Definition meshComplete (o : ImageRenderable) : Prop :=
  ud_geometry o ≠ None → ud_material o ≠ None → ud_mesh o ≠ None.

(** The stored image is one the update accepts. *)
Definition decodable (o : ImageRenderable) : Prop :=
  Js.truthy (formatOf (ud_image o)) = true.

(** The renderable is in none of the topic map's entries. *)
Definition dropped (rid : nat) (st : Images) : Prop :=
  rid ∉ (imagesByTopic st).*2.

(** The two states agree on everything but the decodes in flight, the
    allocation counter and the log. *)
Definition sameLayer (st st' : Images) : Prop :=
  renderer st' = renderer st ∧ imagesByTopic st' = imagesByTopic st ∧
  cameraInfoTopics st' = cameraInfoTopics st ∧ children st' = children st ∧
  layer_visible st' = layer_visible st ∧ heap st' = heap st.

(** Geometry, material and mesh are all there or the mesh is not, and the
    stored image is one the update accepts. *)
Definition complete (o : ImageRenderable) : Prop := meshComplete o ∧ decodable o.

(** What one iteration of [startFrame] makes of a renderable, and what it
    reports about it. *)
Definition framed `{Externals} (rd : Renderer) (renderFrameId fixedFrameId : string)
    (currentTime : Z) (o : ImageRenderable) : ImageRenderable :=
  let o := set_obj_visible o (visible (ud_settings o)) in
  if visible (ud_settings o) then
    (updatePose o (transformTree rd) renderFrameId fixedFrameId
                (frame_id (header (ud_image o))) currentTime currentTime).1
  else o.

Definition frameEvents `{Externals} (rd : Renderer) (renderFrameId fixedFrameId : string)
    (currentTime : Z) (o : ImageRenderable) : list Event :=
  let frameId := frame_id (header (ud_image o)) in
  if visible (ud_settings o) then
    match transformTree rd renderFrameId fixedFrameId frameId currentTime currentTime with
    | Some _ => []
    | None => [AddToTopic (ud_topic o) MISSING_TRANSFORM
                 (missingTransformMessage renderFrameId fixedFrameId frameId)]
    end
  else [ClearTopic (ud_topic o)].

(** A renderable as [dispose] leaves it. *)
Definition released (o : ImageRenderable) : ImageRenderable :=
  set_ud_mesh (set_ud_geometry (set_ud_material (set_ud_texture o None) None) None) None.

(** What an update leaves of a renderable's resources when it rebuilds
    nothing: settings, texture and material as they were, an existing
    geometry and an existing mesh (with the children) as they were. *)
Definition kept (o o' : ImageRenderable) : Prop :=
  ud_settings o' = ud_settings o ∧
  ud_texture o' = ud_texture o ∧
  ud_material o' = ud_material o ∧
  (∀ geometry, ud_geometry o = Some geometry → ud_geometry o' = Some geometry) ∧
  (∀ mesh, ud_mesh o = Some mesh →
           ud_mesh o' = Some mesh ∧ obj_children o' = obj_children o).

(** The images of an operation are among those [okImage] admits. *)
Definition opOk (okImage : ImageMessage → Prop) (op : Op) : Prop :=
  match op with
  | AddImageMessage _ image => okImage image
  | _ => True
  end.

(** ** Sample data for the worked scenarios *)

Module Sample.

Definition externals : Externals :=
  {| stringToRgba := fun _ => mkColor 1 1 1 1;
     rosTimeToNanoSec := fun t => (sec t * 1000000000 + nsec t)%Z;
     makePose := mkPose (mkVector3 0 0 0) (mkQuaternion 0 0 0 1);
     MISSING_TRANSFORM := "MissingTransform";
     missingTransformMessage := fun renderFrameId fixedFrameId frameId =>
       "Missing transform from frame <" ++ frameId ++ "> to frame <"
       ++ renderFrameId ++ ">" |}.

(** A 640x480 pinhole camera without distortion. *)
Definition camera : PinholeCameraModel :=
  {| width := 640;
     height := 480;
     rectifyPixel := fun pixel => pixel;
     projectPixelTo3dRay := fun pixel =>
       mkVector3 ((v2x pixel - 320) / 500) ((v2y pixel - 240) / 500) 1 |}%float.

Definition moved : Pose := mkPose (mkVector3 1 2 3) (mkQuaternion 0 0 0 1).

(** A transform tree that knows the camera frame at source time 1 only. *)
Definition treeAtOne : TransformTree :=
  fun _ _ srcFrameId _ srcTime =>
    if bool_decide (srcFrameId = "cam") && (srcTime =? 1)%Z then Some moved else None.

(** No configuration, no camera model yet, frames known. *)
Definition bare : Renderer :=
  {| config_topics := ∅;
     camerasByTopic := ∅;
     renderFrameId := Some "base_link";
     fixedFrameId := Some "map";
     transformTree := treeAtOne |}.

(** The same once the camera layer holds a model for "cam/info". *)
Definition withCamera (rd : Renderer) : Renderer :=
  {| config_topics := config_topics rd;
     camerasByTopic := <["cam/info" := Some camera]> (camerasByTopic rd);
     renderFrameId := renderFrameId rd;
     fixedFrameId := fixedFrameId rd;
     transformTree := transformTree rd |}.

(** The user picked "cam/info" for "cam/image" before any message came. *)
Definition configured : Renderer :=
  set_config_topics bare
    {["cam/image" := mkPartial None (Some (Some "cam/info")) None None]}.

Definition jpeg (nanos : Z) : ImageMessage :=
  Compressed (mkCompressed (mkHeader (mkTime 0 nanos) "cam") "jpeg" []).

Definition mono8 (nanos : Z) : ImageMessage :=
  Raw (mkImage (mkHeader (mkTime 0 nanos) "cam") 480 640 "mono8" []).

Definition info : CameraInfo := mkCameraInfo (mkHeader (mkTime 0 1) "cam") 480 640.

Definition bitmap : ImageBitmap := mkBitmap 640 480.

(** The renderable [addImageMessage] creates for the first image. *)
Definition fresh : ImageRenderable :=
  mkRenderable "cam/image" true [] "cam/image" DEFAULT_SETTINGS (jpeg 1)
    (@makePose externals) 1 None None None None.

(** The first image has arrived; its decode is in flight. *)
Definition arrived : Images :=
  @run externals [AddImageMessage "cam/image" (jpeg 1)] (initial bare).

(** The layer was disposed of while that decode was in flight. *)
Definition abandoned : Images :=
  @run externals [AddImageMessage "cam/image" (jpeg 1); Dispose] (initial bare).

(** Camera info first, then an image, then its bitmap: everything built. *)
Definition streamingOps : list Op :=
  [AddCameraInfoMessage "cam/info" info;
   AddImageMessage "cam/image" (jpeg 1);
   SettleDecode 0 (inl bitmap)].

Definition streaming : Images :=
  @run externals streamingOps (initial (withCamera bare)).

Definition streamed : ImageRenderable :=
  Eval vm_compute in default fresh (heap streaming !! 0).

(** The user's choice of "cam/info" came first, then an image, and only
    then did the camera layer get its model. *)
Definition awaitingInfo : Images :=
  @run externals [AddImageMessage "cam/image" (jpeg 1);
                  RendererChanged (withCamera configured)] (initial configured).

(** A texture and a material exist, a camera model arrives, and the next
    image on the topic is a raw one. *)
Definition afterRawImage : Images :=
  @run externals [AddImageMessage "cam/image" (jpeg 1);
                  SettleDecode 0 (inl bitmap);
                  RendererChanged (withCamera bare);
                  AddCameraInfoMessage "cam/info" info;
                  AddImageMessage "cam/image" (mono8 2)] (initial bare).

(** Reads the first coordinate of a pose's position against 1. *)
Definition movedAlongX (pose : Pose) : bool :=
  (v3x (pose_position pose) =? 1)%float.

End Sample.

(** ** The settings node of an image topic *)

(** The three fields of the node the provider registered by the constructor
    returns: a select, a number input and a colour input. *)
Record SelectField := mkSelect {
  sel_label : string;
  sel_options : list (string * string);
  sel_value : option string;
}.

Record NumberField := mkNumber {
  num_label : string;
  num_value : option float;
  num_placeholder : string;
  num_step : float;
}.

Record RgbaField := mkRgba {
  rgba_label : string;
  rgba_value : option string;
}.

Record SettingsTreeNode := mkNode {
  icon : string;
  field_cameraInfoTopic : SelectField;
  field_distance : NumberField;
  field_color : RgbaField;
}.

(** The callback given to [renderer.setSettingsNodeProvider]: [topicConfig]
    is the topic's entry of the configuration, [topicName] is [topic.name].
    [String(DEFAULT_DISTANCE)] is "1"; [0.1] is the nearest binary64. *)
Definition settingsNodeProvider (topicConfig : PartialSettings) (topicName : string)
    (st : Images) : SettingsTreeNode :=
  let cur := topicConfig in
  let cameraInfoOptions := cameraInfoOptions topicName st in
  {| icon := "ImageProjection";
     field_cameraInfoTopic :=
       {| sel_label := "Camera Info"; sel_options := cameraInfoOptions;
          sel_value := mjoin (p_cameraInfoTopic cur) |};
     field_distance :=
       {| num_label := "Distance"; num_value := p_distance cur;
          num_placeholder := "1"; num_step := 0x1.999999999999ap-4%float |};
     field_color :=
       {| rgba_label := "Color"; rgba_value := p_color cur |} |}.

(** ** Further vocabulary *)

(** What names a renderable and what it was created from. *)
Definition sameIdentity (o o' : ImageRenderable) : Prop :=
  name o' = name o ∧ ud_topic o' = ud_topic o ∧
  ud_image o' = ud_image o ∧ ud_srcTime o' = ud_srcTime o.

(** The renderable is named after its topic and its source time is that of
    its stored image. *)
Definition labelled `{Externals} (o : ImageRenderable) : Prop :=
  name o = ud_topic o ∧
  ud_srcTime o = rosTimeToNanoSec (stamp (header (ud_image o))).

(** The mesh is the pairing of the geometry and the material the renderable
    holds now, and the material samples the texture it holds now. *)
Definition wired (o : ImageRenderable) : Prop :=
  match ud_mesh o with
  | Some mesh =>
      geo_id <$> ud_geometry o = Some (mesh_geometry mesh) ∧
      mat_id <$> ud_material o = Some (mesh_material mesh)
  | None => True
  end ∧
  match ud_material o with
  | Some material => tex_id <$> ud_texture o = Some (mat_map material)
  | None => True
  end.

(** A geometry is only ever held under a selected camera-info topic. *)
Definition calibrated (o : ImageRenderable) : Prop :=
  ud_geometry o ≠ None → cameraInfoTopic (ud_settings o) ≠ None.

(** The topic map names each topic once and each renderable once, the
    layer's children are the renderables of the map in the order of the map,
    and each entry leads to a renderable of that topic. *)
Definition wellFormed (st : Images) : Prop :=
  NoDup (imagesByTopic st).*1 ∧
  NoDup (imagesByTopic st).*2 ∧
  children st = (imagesByTopic st).*2 ∧
  ∀ topic rid, (topic, rid) ∈ imagesByTopic st →
               ∃ o, heap st !! rid = Some o ∧ ud_topic o = topic.

(** The renderable a fresh topic gets, before auto-selection and update. *)
Definition created `{Externals} (topic : string) (image : ImageMessage)
    (userSettings : option PartialSettings) : ImageRenderable :=
  {| name := topic;
     obj_visible := true;
     obj_children := [];
     ud_topic := topic;
     ud_settings := spread DEFAULT_SETTINGS (default noSettings userSettings);
     ud_image := image;
     ud_pose := makePose;
     ud_srcTime := rosTimeToNanoSec (stamp (header image));
     ud_texture := None;
     ud_material := None;
     ud_geometry := None;
     ud_mesh := None |}.

(** The [dispose()] calls [dispose] makes for one renderable. *)
Definition releaseEvents (o : ImageRenderable) : list Event :=
  match ud_texture o with Some t => [DisposeTexture (tex_id t)] | None => [] end
  ++ match ud_material o with Some m => [DisposeMaterial (mat_id m)] | None => [] end
  ++ match ud_geometry o with Some geo => [DisposeGeometry (geo_id geo)] | None => [] end.

(** Whether an update changes a geometry setting, and whether it changes
    the colour, as the update itself tests it. *)
Definition geometrySettingsEqual (prevSettings : LayerSettingsImage)
    (settings : PartialSettings) : bool :=
  let newSettings := spread prevSettings settings in
  bool_decide (cameraInfoTopic newSettings = cameraInfoTopic prevSettings)
  && (distance newSettings =? distance prevSettings)%float.

Definition materialSettingsEqual (prevSettings : LayerSettingsImage)
    (settings : PartialSettings) : bool :=
  bool_decide (color (spread prevSettings settings) = color prevSettings).

(** The [dispose()] call made for the geometry, and for the material, a
    renderable holds. *)
Definition geometryRelease (o : ImageRenderable) : list Event :=
  match ud_geometry o with
  | Some geo => [DisposeGeometry (geo_id geo)]
  | None => []
  end.

Definition materialRelease (o : ImageRenderable) : list Event :=
  match ud_material o with
  | Some m => [DisposeMaterial (mat_id m)]
  | None => []
  end.

(** How the objects of a heap [h'] come from those of an earlier heap [h]:
    each is [R]-related to the object that was in its place, or, where the
    place is new, to a renderable as [addImageMessage] creates it from an
    image that is [okImage]. *)
Definition descends `{Externals} (R : ImageRenderable → ImageRenderable → Prop)
    (okImage : ImageMessage → Prop) (h h' : list ImageRenderable) : Prop :=
  length h ≤ length h' ∧
  ∀ rid o', h' !! rid = Some o' →
    match h !! rid with
    | Some o => R o o'
    | None => ∃ topic image userSettings,
                okImage image ∧ R (created topic image userSettings) o'
    end.

(** The same as a relation: [P] passes from a renderable to what becomes of
    it. *)
Definition passes (P : ImageRenderable → Prop) (o o' : ImageRenderable) : Prop :=
  P o → P o'.

(** The geometry an update leaves: the one held before when the geometry
    settings compare equal, else one built from the camera model found
    under the [cameraInfoTopic] of the [settings] argument, if any. *)
Definition geometryAfter (o : ImageRenderable) (settings : PartialSettings)
    (st : Images) : option PlaneGeometry :=
  match (if geometrySettingsEqual (ud_settings o) settings then ud_geometry o else None) with
  | Some geometry => Some geometry
  | None =>
      match p_cameraInfoTopic settings with
      | Some (Some cameraInfoTopic) =>
          match camerasByTopic (renderer st) !! cameraInfoTopic with
          | Some (Some cameraModel) =>
              Some {| geo_id := nextId st;
                      geo_attributes :=
                        createGeometry cameraModel
                          (distance (spread (ud_settings o) settings)) |}
          | _ => None
          end
      | _ => None
      end
  end.

(** ** The stages of [addImageMessage] *)

(** The block of [addImageMessage] that creates the renderable of a topic
    the map does not hold yet. *)
Definition registered `{Externals} (topic : string) (image : ImageMessage)
    (st : Images) : Images :=
  let rid := length (heap st) in
  let renderable := created topic image (config_topics (renderer st) !! topic) in
  let st := set_heap st (heap st ++ [renderable]) in
  let st := set_children st (children st ++ [rid]) in
  set_imagesByTopic st (imagesByTopic st ++ [(topic, rid)]).

(** The block of [addImageMessage] that auto-selects the camera-info topic
    of the renderable [f.1] when it has none. *)
Definition autoSelected (topic : string) (f : Focus) : Focus :=
  let '(o, st) := f in
  let userSettings := config_topics (renderer st) !! topic in
  if Js.undefined (cameraInfoTopic (ud_settings o)) then
    let settings :=
      autoSelectCameraInfoTopic (ud_settings o) topic (cameraInfoTopics st) in
    let o := set_ud_settings o settings in
    match cameraInfoTopic settings with
    | Some selected =>
        let updatedUserSettings :=
          set_p_cameraInfoTopic (default noSettings userSettings) (Some selected) in
        let rd := set_config_topics (renderer st)
                    (<[topic := updatedUserSettings]> (config_topics (renderer st))) in
        (o, emit (Emit ["topics"; topic]) (set_renderer st rd))
    | None => (o, st)
    end
  else (o, st).

(** Each decode in flight was started for a renderable that is still in
    its place and reports under that renderable's topic. *)
Definition targetsLive (st : Images) : Prop :=
  ∀ d, d ∈ decodes st →
       ∃ o, heap st !! dec_renderable d = Some o ∧ ud_topic o = dec_topic d.

(** The last operation of a history was not [dispose]. *)
Definition isDispose (op : Op) : bool :=
  match op with
  | Dispose => true
  | _ => false
  end.

(** ** The stages of [addCameraInfoMessage] *)

(** [cameraInfoTopics.add(topic)]. *)
Definition recorded (topic : string) (st : Images) : Images :=
  if negb (bool_decide (topic ∈ cameraInfoTopics st))
  then set_cameraInfoTopics st (cameraInfoTopics st ++ [topic])
  else st.

(** The update [addCameraInfoMessage] runs: on the renderable the topic map
    holds under the camera-info topic itself, with what that renderable
    stores. *)
Definition refreshed `{Externals} (topic : string) (st : Images) : Completion * Images :=
  match mapGet (imagesByTopic st) topic with
  | Some rid =>
      match heap st !! rid with
      | Some o => _updateImageRenderable rid (ud_image o) (asPartial (ud_settings o)) st
      | None => (Normal, st)
      end
  | None => (Normal, st)
  end.

(** ** The loops of [dispose] and [startFrame] *)

(** One iteration of the loop of [dispose], on object [rid]. *)
Definition disposeOne (st : Images) (rid : nat) : Images :=
  match heap st !! rid with
  | Some o =>
      let st := match ud_texture o with
                | Some t => emit (DisposeTexture (tex_id t)) st
                | None => st
                end in
      let st := match ud_material o with
                | Some m => emit (DisposeMaterial (mat_id m)) st
                | None => st
                end in
      let st := match ud_geometry o with
                | Some geo => emit (DisposeGeometry (geo_id geo)) st
                | None => st
                end in
      let o := set_ud_texture o None in
      let o := set_ud_material o None in
      let o := set_ud_geometry o None in
      let o := set_ud_mesh o None in
      store rid o st
  | None => st
  end.

(** The renderables of the topic map, in the order of the map. *)
Definition mapped (st : Images) : list ImageRenderable :=
  omap (λ rid, heap st !! rid) (imagesByTopic st).*2.

(** A frame changes of a renderable at most whether it is shown and where. *)
Definition reposed (o o' : ImageRenderable) : Prop :=
  ∃ v pose, o' = set_ud_pose (set_obj_visible o v) pose.

(** The texture object a renderable holds is still the one it held. *)
Definition sameTexture (o o' : ImageRenderable) : Prop :=
  ∀ t, ud_texture o = Some t →
       ∃ t', ud_texture o' = Some t' ∧ tex_id t' = tex_id t.

(** The material is the one [createMaterial] makes of the texture, the
    topic and the colour the renderable holds now. *)
Definition tinted `{Externals} (o : ImageRenderable) : Prop :=
  ∀ material, ud_material o = Some material →
    ∃ texture, ud_texture o = Some texture ∧
               material = createMaterial (mat_id material) texture o.

(** The call returned instead of throwing. *)
Definition returned (c : Completion) : bool :=
  match c with
  | Normal => true
  | Throw _ => false
  end.

(** The outbound call is a [dispose()] of a geometry or of a material. *)
Definition isRelease (e : Event) : Prop :=
  match e with
  | DisposeGeometry _ | DisposeMaterial _ => True
  | _ => False
  end.

(** Two numbers that [===] cannot tell apart, or the same number (which
    covers NaN). *)
Definition sameNumber (x y : float) : Prop := x = y ∨ (x =? y)%float = true.

(** Each camera model of [cams] is still the model of its topic in
    [cams']. *)
Definition modelsKept (cams cams' : gmap string (option PinholeCameraModel)) : Prop :=
  ∀ topic cameraModel,
    cams !! topic = Some (Some cameraModel) → cams' !! topic = Some (Some cameraModel).

(** Along the history the rest of the application may add camera models,
    but replaces and removes none. *)
Fixpoint stableModels (cams : gmap string (option PinholeCameraModel))
    (ops : list Op) : Prop :=
  match ops with
  | [] => True
  | RendererChanged rd :: ops =>
      modelsKept cams (camerasByTopic rd) ∧ stableModels (camerasByTopic rd) ops
  | _ :: ops => stableModels cams ops
  end.

(** The geometry held is the one [createGeometry] builds from the camera
    model the renderer has under the selected camera-info topic, at the
    distance of the current settings. *)
Definition builtAtDistance (rd : Renderer) (o : ImageRenderable) : Prop :=
  ∀ geometry, ud_geometry o = Some geometry →
    ∃ topic cameraModel depth,
      cameraInfoTopic (ud_settings o) = Some topic ∧
      camerasByTopic rd !! topic = Some (Some cameraModel) ∧
      geo_attributes geometry = createGeometry cameraModel depth ∧
      sameNumber depth (distance (ud_settings o)).

(** The topic a message or a settings change is about. *)
Definition opTopic (op : Op) : option string :=
  match op with
  | AddImageMessage topic _ | AddCameraInfoMessage topic _
  | SetTopicSettings topic _ => Some topic
  | _ => None
  end.

(** The renderable is as it was unless it is the one of [topic]. *)
Definition untouchedOff (topic : string) (o o' : ImageRenderable) : Prop :=
  ud_topic o = topic ∨ o' = o.

(** The pixels [createGeometry] asks the camera model about. *)
Definition gridPixels (cameraModel : PinholeCameraModel) : list Vector2 :=
  iy ← seq 0 (heightSegments + 1);
  ix ← seq 0 (widthSegments + 1);
  [{| v2x := Js.num ix * (width cameraModel / Js.num widthSegments);
      v2y := Js.num iy * (height cameraModel / Js.num heightSegments) |}%float].

(** ** The playback speed control *)

Module Playback.

(** [0.01, 0.02, 0.05, 0.1, 0.2, 0.5, 0.8, 1, 2, 3, 5], each the nearest
    binary64. *)
Definition SPEED_OPTIONS : list float :=
  [0x1.47ae147ae147bp-7; 0x1.47ae147ae147bp-6; 0x1.999999999999ap-5;
   0x1.999999999999ap-4; 0x1.999999999999ap-3; 0x1p-1; 0x1.999999999999ap-1;
   1; 2; 3; 5]%float.

(** The text of a speed: [val.toFixed(2)] or [String(val)], followed by the
    multiplication sign; the en dash stands for no speed. The digits are
    left to the two JavaScript conversions. *)
Inductive SpeedText :=
| Dash
| Fixed2 (val : float)
| Plain (val : float).

Definition formatSpeed (val : float) : SpeedText :=
  if (val <? 0x1.999999999999ap-4)%float then Fixed2 val else Plain val.

(** [state.selectedLayout?.data?.playbackConfig.speed]. *)
Record PlaybackConfig := mkPlaybackConfig { speed : float }.
Record LayoutData := mkLayoutData { playbackConfig : PlaybackConfig }.
Record SelectedLayout := mkSelectedLayout { data : option LayoutData }.
Record LayoutState := mkLayoutState { selectedLayout : option SelectedLayout }.

Definition configSpeedSelector (state : LayoutState) : option float :=
  layout ← selectedLayout state;
  d ← data layout;
  Some (speed (playbackConfig d)).

(** What the component reads from its hooks: the layout, the speed of the
    player's active data, whether the player offers [setPlaybackSpeed], and
    its own [anchorEl] state. *)
Record Hooks := mkHooks {
  layoutState : LayoutState;
  activeSpeed : option float;
  hasSetPlaybackSpeed : bool;
  anchorEl : option nat;
}.

(** The calls the component makes on the layout and on the player. *)
Inductive Call :=
| SetPlaybackConfig (newSpeed : float)
| SetPlaybackSpeed (newSpeed : float).

Definition setSpeed (h : Hooks) (newSpeed : float) : list Call :=
  SetPlaybackConfig newSpeed
  :: (if hasSetPlaybackSpeed h then [SetPlaybackSpeed newSpeed] else []).

Definition handleClick (currentTarget : nat) (h : Hooks) : Hooks :=
  mkHooks (layoutState h) (activeSpeed h) (hasSetPlaybackSpeed h) (Some currentTarget).

Definition handleClose (h : Hooks) : Hooks :=
  mkHooks (layoutState h) (activeSpeed h) (hasSetPlaybackSpeed h) None.

(** The body of the [useEffect]. *)
Definition speedEffect (h : Hooks) : list Call :=
  match configSpeedSelector (layoutState h) with
  | Some configSpeed =>
      if hasSetPlaybackSpeed h then [SetPlaybackSpeed configSpeed] else []
  | None => []
  end.

(** [displayedSpeed === option]: [undefined] equals no number. *)
Definition strictEquals (displayedSpeed : option float) (option : float) : bool :=
  match displayedSpeed with
  | Some d => (d =? option)%float
  | None => false
  end.

Record MenuItem := mkMenuItem {
  key : float;
  selected : bool;
  checkIcon : bool;
  inset : bool;
  text : SpeedText;
  onClick : list Call * Hooks;
}.

Record Rendered := mkRendered {
  button_disabled : bool;
  button_text : SpeedText;
  menu_open : bool;
  menu_items : list MenuItem;
}.

Definition PlaybackSpeedControls (h : Hooks) : Rendered :=
  let open := bool_decide (anchorEl h ≠ None) in
  let configSpeed := configSpeedSelector (layoutState h) in
  let displayedSpeed :=
    match activeSpeed h with
    | Some s => Some s
    | None => configSpeed
    end in
  {| button_disabled := negb (hasSetPlaybackSpeed h);
     button_text := match displayedSpeed with
                    | None => Dash
                    | Some d => formatSpeed d
                    end;
     menu_open := open;
     menu_items :=
       (λ option,
          {| key := option;
             selected := strictEquals displayedSpeed option;
             checkIcon := strictEquals displayedSpeed option;
             inset := negb (strictEquals displayedSpeed option);
             text := formatSpeed option;
             onClick := (setSpeed h option, handleClose h) |})
       <$> SPEED_OPTIONS |}.

(** [speed ?? configSpeed]. *)
Definition displayedSpeed (h : Hooks) : option float :=
  match activeSpeed h with
  | Some s => Some s
  | None => configSpeedSelector (layoutState h)
  end.

(** The options of the items rendered as selected. *)
Definition selectedKeys (h : Hooks) : list float :=
  key <$> filter (λ item, selected item = true) (menu_items (PlaybackSpeedControls h)).

End Playback.

(** ** Further sample data *)

Module Tour.
Import Sample.

(** The user hid the topic after its first image. *)
Definition hidden : Images :=
  @run externals [AddImageMessage "cam/image" (jpeg 1);
                  SetTopicSettings "cam/image" (mkPartial (Some false) None None None)]
       (initial bare).

Definition hiddenRenderable : ImageRenderable :=
  Eval vm_compute in default fresh (heap hidden !! 0).

(** The texture of the renderable of [streaming]. *)
Definition streamedTexture : Texture :=
  Eval vm_compute in default (mkTexture 0 bitmap true) (ud_texture streamed).

(** Another image and its bitmap, on top of [streaming]. *)
Definition secondImage : list Op :=
  [AddImageMessage "cam/image" (jpeg 2); SettleDecode 0 (inl bitmap)].

(** A camera-info topic is known, no image has come yet. *)
Definition informed : Images :=
  @run externals [AddCameraInfoMessage "cam/info" info] (initial bare).



(** The camera model arrives after the first image and its bitmap; the
    camera-info topic and a second image follow. *)
Definition lateCamera : list Op :=
  [AddImageMessage "cam/image" (jpeg 1);
   SettleDecode 0 (inl bitmap);
   RendererChanged (withCamera bare);
   AddCameraInfoMessage "cam/info" info;
   AddImageMessage "cam/image" (jpeg 2)].

End Tour.

(** * Properties *)

Open Scope list_scope.

(** ** Matching and auto-selection *)

Lemma split_nonempty sep s : Js.split sep s ≠ [].
Proof.
  destruct s as [|c rest]; simpl; [done|].
  destruct (Ascii.eqb c sep); [done|].
  by destruct (Js.split sep rest).
Qed.

(** The loop of [cameraInfoTopicMatches] compares every segment but the last. *)
Lemma matches_spec topic info :
  cameraInfoTopicMatches topic info = true ↔
  length (Js.split "/" topic) = length (Js.split "/" info) ∧
  take (length (Js.split "/" topic) - 1) (Js.split "/" topic)
  = take (length (Js.split "/" info) - 1) (Js.split "/" info).
Proof.
  unfold cameraInfoTopicMatches.
  set (a := Js.split "/" topic). set (b := Js.split "/" info).
  destruct (Nat.eqb_spec (length a) (length b)) as [Hlen|Hlen]; simpl.
  - rewrite forallb_forall. split.
    + intros Hall. split; [done|]. rewrite <- Hlen.
      apply list_eq. intros i.
      destruct (decide (i < length a - 1)) as [Hi|Hi].
      * rewrite !lookup_take_lt by done.
        specialize (Hall i). rewrite in_seq in Hall.
        eapply bool_decide_eq_true_1, Hall. lia.
      * rewrite !lookup_take_ge by lia. done.
    + intros [_ Heq] i Hi. rewrite in_seq in Hi.
      apply bool_decide_eq_true_2. rewrite <- Hlen in Heq.
      assert (take (length a - 1) a !! i = take (length a - 1) b !! i) as Hl
        by by rewrite Heq.
      rewrite !lookup_take_lt in Hl by lia. done.
  - split; [done|]. intros [? _]. done.
Qed.

(** ** The order of the default sort *)

Lemma compareUnits_refl l : Js.compareUnits l l = Eq.
Proof. induction l as [|x l IH]; simpl; [done|]. by rewrite N.compare_refl. Qed.

Lemma compareUnits_eq l k : Js.compareUnits l k = Eq → l = k.
Proof.
  revert k. induction l as [|x l IH]; intros [|y k]; simpl; try done.
  destruct (x ?= y)%N eqn:Hxy; try done.
  apply N.compare_eq in Hxy. intros Hlk. f_equal; [done|by apply IH].
Qed.

Lemma compareUnits_antisym l k :
  Js.compareUnits k l = CompOpp (Js.compareUnits l k).
Proof.
  revert k. induction l as [|x l IH]; intros [|y k]; simpl; try done.
  rewrite (N.compare_antisym x y). destruct (x ?= y)%N; simpl; [apply IH|done..].
Qed.

Lemma compareUnits_trans a b c :
  Js.compareUnits a b = Lt → Js.compareUnits b c = Lt → Js.compareUnits a c = Lt.
Proof.
  revert b c. induction a as [|x a IH]; intros [|y b] [|z c]; simpl; try done.
  destruct (x ?= y)%N eqn:Hxy; try done; destruct (y ?= z)%N eqn:Hyz; try done.
  - apply N.compare_eq in Hxy, Hyz. subst. rewrite N.compare_refl. apply IH.
  - apply N.compare_eq in Hxy. subst. by rewrite Hyz.
  - apply N.compare_eq in Hyz. subst. by rewrite Hxy.
  - rewrite N.compare_lt_iff in Hxy, Hyz.
    assert ((x ?= z)%N = Lt) as -> by (apply N.compare_lt_iff; lia). done.
Qed.

#[global] Instance Js_le_refl : Reflexive Js.le.
Proof. intros s. unfold Js.le. by rewrite compareUnits_refl. Qed.

#[global] Instance Js_le_trans : Transitive Js.le.
Proof.
  intros s t u. unfold Js.le.
  destruct (Js.compareUnits (Js.codeUnits s) (Js.codeUnits t)) eqn:Hst; [|
    |done].
  - apply compareUnits_eq in Hst. rewrite Hst.
    destruct (Js.compareUnits (Js.codeUnits t) (Js.codeUnits u)); try done.
    intros ??. by etrans.
  - destruct (Js.compareUnits (Js.codeUnits t) (Js.codeUnits u)) eqn:Htu; [| |done].
    + apply compareUnits_eq in Htu. rewrite <- Htu, Hst. done.
    + by rewrite (compareUnits_trans _ _ _ Hst Htu).
Qed.

#[global] Instance Js_le_antisym : AntiSymm eq Js.le.
Proof.
  intros s t. unfold Js.le.
  rewrite (compareUnits_antisym (Js.codeUnits s) (Js.codeUnits t)).
  destruct (Js.compareUnits (Js.codeUnits s) (Js.codeUnits t)); simpl; try done.
  apply (anti_symm String.le).
Qed.

#[global] Instance Js_le_total : Total Js.le.
Proof.
  intros s t. unfold Js.le.
  rewrite (compareUnits_antisym (Js.codeUnits s) (Js.codeUnits t)).
  destruct (Js.compareUnits (Js.codeUnits s) (Js.codeUnits t)); simpl; auto.
  apply (total String.le).
Qed.

(** Below [Js.le] nothing has greater code units; and strings with
    different code units are ordered by them alone. *)
Lemma Js_le_units s t :
  Js.le s t → Js.compareUnits (Js.codeUnits s) (Js.codeUnits t) ≠ Gt.
Proof. unfold Js.le. by destruct (Js.compareUnits _ _). Qed.

Lemma head_sort_elem (l : list string) c :
  head (Js.sort l) = Some c → c ∈ l.
Proof.
  intros Hh. apply head_Some in Hh as [tl Hs].
  assert (c ∈ Js.sort l) as Hc by (rewrite Hs; left).
  unfold Js.sort in Hc. by rewrite merge_sort_Permutation in Hc.
Qed.

Lemma head_sort_least (l : list string) c c' :
  head (Js.sort l) = Some c → c' ∈ l → Js.le c c'.
Proof.
  intros Hh Hc'. apply head_Some in Hh as [tl Hs].
  pose proof (StronglySorted_merge_sort Js.le l) as Hsort.
  assert (c' ∈ Js.sort l) as Hin
    by (unfold Js.sort; by rewrite merge_sort_Permutation).
  unfold Js.sort in Hs, Hin. rewrite Hs in Hsort, Hin.
  apply StronglySorted_cons in Hsort as [Hall _].
  apply elem_of_cons in Hin as [->|Hin]; [done|].
  rewrite Forall_forall in Hall. by apply Hall.
Qed.

Lemma head_sort_None (l : list string) : head (Js.sort l) = None ↔ l = [].
Proof.
  rewrite head_None. unfold Js.sort. split.
  - intros Hs. apply Permutation_nil_r. rewrite <- Hs.
    symmetry. apply merge_sort_Permutation.
  - intros ->. done.
Qed.

Lemma elem_of_candidates imageTopic known c :
  c ∈ candidatesFor imageTopic known ↔
  c ∈ known ∧ cameraInfoTopicMatches imageTopic c = true.
Proof.
  unfold candidatesFor. rewrite !list_elem_of_In, filter_In. done.
Qed.

(** C6. Auto-selection looks at exactly the known camera-info topics that
    match the image topic (same number of "/"-separated segments, all but
    the last equal) and assigns the least of them in the order of the
    default sort: no matching topic has code units that come before those
    of the selected one, where sequences of UTF-16 code units are compared
    at their first difference (so "a/\u{1F600}", with the code units D83D
    DE00, is selected before "a/\uFF61", although its bytes come later).
    With no match the selection is left undefined. Among "a/b/info2" and
    "a/b/info1" it picks "a/b/info1"; "a/image" does not match
    "b/camera_info". *)
Theorem autoSelect_picks_least_match (output : LayerSettingsImage)
    (imageTopic : string) (known : list string) :
  let selected :=
    cameraInfoTopic (autoSelectCameraInfoTopic output imageTopic known) in
  (∀ c, selected = Some c ↔
        c ∈ known ∧ cameraInfoTopicMatches imageTopic c = true ∧
        ∀ c', c' ∈ known → cameraInfoTopicMatches imageTopic c' = true →
              Js.le c c') ∧
  (selected = None ↔
   ∀ c, c ∈ known → cameraInfoTopicMatches imageTopic c = false) ∧
  (∀ topic info,
     cameraInfoTopicMatches topic info = true ↔
     length (Js.split "/" topic) = length (Js.split "/" info) ∧
     take (length (Js.split "/" topic) - 1) (Js.split "/" topic)
     = take (length (Js.split "/" info) - 1) (Js.split "/" info)) ∧
  (∀ s t, Js.le s t → Js.compareUnits (Js.codeUnits s) (Js.codeUnits t) ≠ Gt) ∧
  (∀ s t, Js.compareUnits (Js.codeUnits s) (Js.codeUnits t) = Lt → Js.le s t) ∧
  cameraInfoTopic
    (autoSelectCameraInfoTopic output "a/b/image" ["a/b/info2"; "a/b/info1"])
  = Some "a/b/info1" ∧
  Js.codeUnits "a/｡" = [0x61; 0x2F; 0xFF61]%N ∧
  Js.codeUnits "a/😀" = [0x61; 0x2F; 0xD83D; 0xDE00]%N ∧
  cameraInfoTopic (autoSelectCameraInfoTopic output "a/image" ["a/｡"; "a/😀"])
  = Some "a/😀" ∧
  cameraInfoTopicMatches "a/b/image" "a/b/camera_info" = true ∧
  cameraInfoTopicMatches "a/image" "b/camera_info" = false.
Proof.
  cbv zeta. unfold autoSelectCameraInfoTopic.
  cbn [cameraInfoTopic set_cameraInfoTopic]. split_and!.
  - intros c. split.
    + intros Hsel. pose proof (head_sort_elem _ _ Hsel) as Hc.
      apply elem_of_candidates in Hc as [Hk Hm]. split; [done|]. split; [done|].
      intros c' Hk' Hm'. eapply head_sort_least; [exact Hsel|].
      by apply elem_of_candidates.
    + intros (Hk & Hm & Hleast).
      assert (c ∈ candidatesFor imageTopic known) as Hc
        by by apply elem_of_candidates.
      destruct (head (Js.sort (candidatesFor imageTopic known))) as [h|] eqn:Hh.
      * f_equal. pose proof (head_sort_elem _ _ Hh) as Hin.
        apply elem_of_candidates in Hin as [Hhk Hhm].
        apply (anti_symm Js.le).
        -- by eapply head_sort_least.
        -- by apply Hleast.
      * apply head_sort_None in Hh. rewrite Hh in Hc. by apply elem_of_nil in Hc.
  - rewrite head_sort_None. split.
    + intros Hnil c Hk.
      destruct (cameraInfoTopicMatches imageTopic c) eqn:Hm; [|done].
      assert (c ∈ candidatesFor imageTopic known) as Hc
        by by apply elem_of_candidates.
      rewrite Hnil in Hc. by apply elem_of_nil in Hc.
    + intros Hnone.
      destruct (candidatesFor imageTopic known) as [|c tl] eqn:Hcs; [done|].
      assert (c ∈ candidatesFor imageTopic known) as Hc by (rewrite Hcs; left).
      apply elem_of_candidates in Hc as [Hk Hm].
      rewrite (Hnone c Hk) in Hm. done.
  - apply matches_spec.
  - apply Js_le_units.
  - intros s t Hlt. unfold Js.le. by rewrite Hlt.
  - by vm_compute.
  - by vm_compute.
  - by vm_compute.
  - by vm_compute.
  - by vm_compute.
  - by vm_compute.
Qed.

(** ** Geometry builder *)

Lemma num_0 : Js.num 0 = 0%float.
Proof. reflexivity. Qed.

Lemma num_1 : Js.num 1 = 1%float.
Proof. reflexivity. Qed.

(** C10. For a camera model of [width] by [height] pixels and a distance,
    the geometry builder returns one quad: its four vertices are the corner
    pixels (0,0), (width,0), (0,height), (width,height), each rectified,
    projected to a ray and scaled by the distance, with one thousandth
    subtracted from z; its UVs are the corners of the unit square in the
    same order (row 0 of the image has v = 0: not flipped). The epsilon of
    the builder is that thousandth: positive, and 1 when multiplied by
    1000. The result is a function of the camera model and the distance
    alone. The four hypotheses are the floating-point identities 0 * w = 0
    and 1 * w = w (with w / 1 in place of w) at this width and height, as
    IEEE arithmetic has them for a finite size that is not negative. *)
Theorem createGeometry_quad (cameraModel : PinholeCameraModel) (distance : float) :
  (0 * (width cameraModel / 1) = 0)%float →
  (1 * (width cameraModel / 1) = width cameraModel)%float →
  (0 * (height cameraModel / 1) = 0)%float →
  (1 * (height cameraModel / 1) = height cameraModel)%float →
  createGeometry cameraModel distance =
    {| position :=
         spec_cornerVertex cameraModel distance 0 0
         ++ spec_cornerVertex cameraModel distance (width cameraModel) 0
         ++ spec_cornerVertex cameraModel distance 0 (height cameraModel)
         ++ spec_cornerVertex cameraModel distance (width cameraModel)
                              (height cameraModel);
       uv := [0; 0; 1; 0; 0; 1; 1; 1]%float |} ∧
  EPS = 0x1.0624dd2f1a9fcp-10%float ∧
  (0 <? EPS)%float = true ∧
  (EPS * 1000 = 1)%float.
Proof.
  intros Hw0 Hw1 Hh0 Hh1. split; [|by vm_compute].
  unfold createGeometry, widthSegments, heightSegments.
  cbn [foldl seq Nat.add Nat.mul].
  unfold gridCell, Js.store32, Js.Float32Array. cbn [Nat.add Nat.mul replicate].
  rewrite !num_0, !num_1, Hw0, Hw1, Hh0, Hh1.
  reflexivity.
Qed.

(** For the 640 by 480 sample camera at distance 2 the corner rays are
    (-0.64, -0.48, 1) to (0.64, 0.48, 1): the vertices lie at x = -1.28 or
    1.28 and y = -0.96 or 0.96 as binary32 numbers, and at z = 1.999 as a
    binary32 number, which is below 2. *)
Lemma createGeometry_quad_witness :
  position (createGeometry Sample.camera 2)
  = [-0x1.47ae14p+0; -0x1.eb851ep-1; 0x1.ffbe76p+0;
     0x1.47ae14p+0; -0x1.eb851ep-1; 0x1.ffbe76p+0;
     -0x1.47ae14p+0; 0x1.eb851ep-1; 0x1.ffbe76p+0;
     0x1.47ae14p+0; 0x1.eb851ep-1; 0x1.ffbe76p+0]%float ∧
  uv (createGeometry Sample.camera 2) = [0; 0; 1; 0; 0; 1; 1; 1]%float ∧
  (0x1.ffbe76p+0 <? 2)%float = true.
Proof.
  destruct (createGeometry_quad Sample.camera 2) as [-> _];
    try (vm_compute; reflexivity).
  split_and!; vm_compute; reflexivity.
Defined.

(** ** The blocks of the update leave the rest of the layer alone *)

Section StageFacts.
Context `{Externals}.

Lemma sameLayer_refl st : sameLayer st st.
Proof. by repeat split. Qed.

Lemma sameLayer_trans st1 st2 st3 :
  sameLayer st1 st2 → sameLayer st2 st3 → sameLayer st1 st3.
Proof.
  unfold sameLayer. intros (?&?&?&?&?&?) (?&?&?&?&?&?).
  repeat split; congruence.
Qed.

Lemma tryCreateMesh_layer f : sameLayer f.2 (tryCreateMesh f).2.
Proof.
  destruct f as [o st]. unfold tryCreateMesh.
  repeat case_match; by repeat split.
Qed.

Lemma rebuildMaterial_layer f : sameLayer f.2 (rebuildMaterial f).2.
Proof.
  destruct f as [o st]. unfold rebuildMaterial.
  repeat case_match; simplify_eq/=; by repeat split.
Qed.

Lemma disposeGeometry_layer f : sameLayer f.2 (disposeGeometry f).2.
Proof.
  destruct f as [o st]. unfold disposeGeometry.
  repeat case_match; by repeat split.
Qed.

Lemma createGeometryIfNeeded_layer settings f :
  sameLayer f.2 (createGeometryIfNeeded settings f).2.
Proof.
  destruct f as [o st]. unfold createGeometryIfNeeded.
  repeat case_match; by repeat split.
Qed.

(** Whatever every block of the update keeps, the update keeps. *)
Lemma updateBody_stages (Q : Focus → Prop) rid o image settings st :
  Q (set_ud_settings o (spread (ud_settings o) settings), st) →
  (∀ f, Q f → Q (disposeGeometry f)) →
  (∀ f, Q f → Q (createGeometryIfNeeded settings f)) →
  (∀ f c, Q f → Q (f.1, createBitmap rid (ud_topic o) c f.2)) →
  (∀ f, Q f → Q (rebuildMaterial f)) →
  (∀ f, Q f → Q (tryCreateMesh f)) →
  Q (updateBody rid o image settings st).2.
Proof.
  intros H0 Hd Hg Hb Hm Ht. unfold updateBody.
  set (f0 := (set_ud_settings o (spread (ud_settings o) settings), st)) in *.
  set (f1 := if negb _ then disposeGeometry f0 else f0).
  assert (Q f1) as H1 by (subst f1; case_match; auto).
  clearbody f1. clear f0 H0.
  specialize (Hg f1 H1).
  set (f2 := createGeometryIfNeeded settings f1) in *. clearbody f2.
  destruct (Js.truthy (formatOf image)); [|done].
  destruct image as [raw|compressed]; [done|].
  specialize (Hb f2 compressed Hg).
  set (f3 := (f2.1, createBitmap rid (ud_topic o) compressed f2.2)) in *.
  clearbody f3.
  match goal with |- context [if ?c then rebuildMaterial f3 else f3] =>
    set (f4 := if c then rebuildMaterial f3 else f3) end.
  assert (Q f4) as H4 by (subst f4; case_match; auto).
  clearbody f4. simpl. auto.
Qed.

(** An update that does not throw ends with [tryCreateMesh]. *)
Lemma updateBody_normal rid o image settings st :
  Js.truthy (formatOf image) = true →
  ∃ f, (updateBody rid o image settings st).2 = tryCreateMesh f.
Proof.
  intros Hfmt. unfold updateBody. rewrite Hfmt.
  destruct image as [raw|compressed]; [done|]. eauto.
Qed.

Lemma updateBody_layer rid o image settings st :
  sameLayer st (updateBody rid o image settings st).2.2.
Proof.
  apply (updateBody_stages (λ f, sameLayer st f.2)).
  - apply sameLayer_refl.
  - intros f Hf. eapply sameLayer_trans; [exact Hf|apply disposeGeometry_layer].
  - intros f Hf. eapply sameLayer_trans; [exact Hf|apply createGeometryIfNeeded_layer].
  - intros f c Hf. eapply sameLayer_trans; [exact Hf|by repeat split].
  - intros f Hf. eapply sameLayer_trans; [exact Hf|apply rebuildMaterial_layer].
  - intros f Hf. eapply sameLayer_trans; [exact Hf|apply tryCreateMesh_layer].
Qed.

Lemma updateBody_heap rid o image settings st :
  heap (updateBody rid o image settings st).2.2 = heap st.
Proof. apply updateBody_layer. Qed.

Lemma texturing_heap o st :
  heap (tryCreateMesh (rebuildMaterial (o, st))).2 = heap st.
Proof.
  transitivity (heap (rebuildMaterial (o, st)).2).
  - apply tryCreateMesh_layer.
  - apply (rebuildMaterial_layer (o, st)).
Qed.

End StageFacts.

Section Invariant.
Context `{Externals}.
Variable P : ImageRenderable → Prop.
Variable okImage : ImageMessage → Prop.

Hypothesis P_visible : ∀ o v, P o → P (set_obj_visible o v).
Hypothesis P_pose : ∀ o v, P o → P (set_ud_pose o v).
Hypothesis P_settings : ∀ o v, P o → P (set_ud_settings o v).
Hypothesis P_update : ∀ rid o image settings st,
  P o → okImage image → P (updateBody rid o image settings st).2.1.
Hypothesis P_stored : ∀ o, P o → okImage (ud_image o).
Hypothesis P_new : ∀ nm vis topic settings image pose srcTime,
  okImage image →
  P (mkRenderable nm vis [] topic settings image pose srcTime None None None None).
Hypothesis P_disposed : ∀ o,
  P o → P (set_ud_mesh (set_ud_geometry (set_ud_material (set_ud_texture o None) None) None) None).
Hypothesis P_textured : ∀ o t st,
  P o → ud_texture o = None →
  P (tryCreateMesh (rebuildMaterial (set_ud_texture o (Some t), st))).1.
Hypothesis P_retextured : ∀ o t t',
  P o → ud_texture o = Some t → P (set_ud_texture o (Some t')).

Lemma update_preserves rid image settings st :
  okImage image → Forall P (heap st) →
  Forall P (heap (_updateImageRenderable rid image settings st).2).
Proof.
  intros Hok Hall. unfold _updateImageRenderable.
  destruct (heap st !! rid) as [o|] eqn:Hrid; [|done].
  pose proof (updateBody_heap rid o image settings st) as Hheap.
  pose proof (P_update rid o image settings st) as HP.
  destruct (updateBody rid o image settings st) as [c [o' st']]. simpl in *.
  rewrite Hheap. apply Forall_insert; [done|].
  apply HP; [|done]. by eapply Forall_lookup_1.
Qed.

Lemma foldl_preserves (f : Images → nat → Images) :
  (∀ st rid, Forall P (heap st) → Forall P (heap (f st rid))) →
  ∀ l st, Forall P (heap st) → Forall P (heap (foldl f st l)).
Proof.
  intros Hf l. induction l as [|rid l IH]; intros st Hall; simpl; [done|].
  apply IH, Hf, Hall.
Qed.

Lemma addImageMessage_preserves topic image st :
  okImage image → Forall P (heap st) →
  Forall P (heap (addImageMessage topic image st).2).
Proof.
  intros Hok Hall. unfold addImageMessage.
  destruct (mapGet (imagesByTopic st) topic) as [rid|].
  - destruct (heap st !! rid) as [o|] eqn:Hrid; [|done].
    assert (P o) as Ho by by eapply Forall_lookup_1.
    repeat case_match; simplify_eq/=;
      apply update_preserves; simpl; try done;
      apply Forall_insert; auto.
  - simpl. rewrite lookup_app_r, Nat.sub_diag by done. simpl.
    assert (Forall P (heap st ++
      [mkRenderable topic true [] topic
         (spread DEFAULT_SETTINGS (default noSettings (config_topics (renderer st) !! topic)))
         image makePose (rosTimeToNanoSec (stamp (header image))) None None None None]))
      as Hall' by (apply Forall_app; split; [done|]; repeat constructor; by apply P_new).
    repeat case_match; simplify_eq/=;
      apply update_preserves; simpl; try done;
      apply Forall_insert; auto.
Qed.

Lemma addCameraInfoMessage_preserves topic info st :
  Forall P (heap st) → Forall P (heap (addCameraInfoMessage topic info st).2).
Proof.
  intros Hall. unfold addCameraInfoMessage.
  set (st1 := if negb (bool_decide (topic ∈ cameraInfoTopics st)) then _ else st).
  assert (Forall P (heap st1)) as Hall1 by (subst st1; by case_match).
  assert (imagesByTopic st1 = imagesByTopic st) as -> by (subst st1; by case_match).
  clearbody st1.
  destruct (mapGet (imagesByTopic st) topic) as [rid|]; simpl.
  - destruct (heap st1 !! rid) as [o|] eqn:Hrid; simpl.
    + pose proof (update_preserves rid (ud_image o) (asPartial (ud_settings o)) st1) as Hup.
      destruct (_updateImageRenderable rid (ud_image o) (asPartial (ud_settings o)) st1)
        as [c st2]. simpl in *.
      assert (Forall P (heap st2)) as Hall2.
      { apply Hup; [|done]. apply P_stored. by eapply Forall_lookup_1. }
      destruct c; simpl; [|done]. by case_match.
    + by case_match.
  - by case_match.
Qed.

Lemma setTopicSettings_preserves topic settings st :
  Forall P (heap st) → Forall P (heap (setTopicSettings topic settings st).2).
Proof.
  intros Hall. unfold setTopicSettings.
  destruct (mapGet (imagesByTopic st) topic) as [rid|]; [|done].
  destruct (heap st !! rid) as [o|] eqn:Hrid; [|done].
  apply update_preserves; [|done]. apply P_stored. by eapply Forall_lookup_1.
Qed.

Lemma startFrame_preserves currentTime st :
  Forall P (heap st) → Forall P (heap (startFrame currentTime st)).
Proof.
  intros Hall. unfold startFrame.
  destruct (renderFrameId (renderer st)) as [rf|]; [|done].
  destruct (fixedFrameId (renderer st)) as [ff|]; [|done].
  apply foldl_preserves; [|done].
  clear Hall. intros st' rid Hall. unfold frameRenderable, updatePose.
  destruct (heap st' !! rid) as [o|] eqn:Hrid; [|done].
  assert (P o) as Ho by by eapply Forall_lookup_1.
  repeat case_match; simplify_eq/=; apply Forall_insert; auto.
Qed.

Lemma dispose_preserves st :
  Forall P (heap st) → Forall P (heap (dispose st)).
Proof.
  intros Hall. unfold dispose. simpl.
  apply foldl_preserves; [|done].
  clear Hall. intros st' rid Hall.
  destruct (heap st' !! rid) as [o|] eqn:Hrid; [|done].
  assert (P o) as Ho by by eapply Forall_lookup_1.
  repeat case_match; simplify_eq/=; apply Forall_insert; auto.
Qed.

Lemma settleDecode_preserves i outcome st :
  Forall P (heap st) → Forall P (heap (settleDecode i outcome st)).
Proof.
  intros Hall. unfold settleDecode.
  destruct (decodes st !! i) as [d|]; [|done].
  destruct outcome as [bitmap|message]; [|done].
  set (st0 := set_decodes st (delete i (decodes st))).
  assert (Forall P (heap st0)) as Hall0 by done. clearbody st0.
  unfold onBitmap.
  destruct (heap st0 !! dec_renderable d) as [o|] eqn:Hrid; [|done].
  assert (P o) as Ho by by eapply Forall_lookup_1.
  destruct (ud_texture o) as [t|] eqn:Ht.
  - simpl. apply Forall_insert; [done|]. by eapply P_retextured.
  - set (t := {| tex_id := nextId st0; tex_image := bitmap; tex_needsUpdate := true |}).
    pose proof (P_textured o t (allocate st0) Ho Ht) as HP.
    pose proof (texturing_heap (set_ud_texture o (Some t)) (allocate st0)) as Hheap.
    destruct (tryCreateMesh _) as [o' st']. simpl in *.
    rewrite Hheap. by apply Forall_insert.
Qed.

Lemma step_preserves st op :
  opOk okImage op → Forall P (heap st) → Forall P (heap (step st op)).
Proof.
  intros Hok Hall. destruct op; simpl.
  - by apply addImageMessage_preserves.
  - by apply addCameraInfoMessage_preserves.
  - by apply setTopicSettings_preserves.
  - by apply startFrame_preserves.
  - by apply dispose_preserves.
  - by apply settleDecode_preserves.
  - done.
Qed.

Lemma run_preserves ops st :
  Forall (opOk okImage) ops → Forall P (heap st) → Forall P (heap (run ops st)).
Proof.
  unfold run. revert st. induction ops as [|op ops IH]; intros st Hops Hall; simpl; [done|].
  inversion Hops; subst. apply IH; [done|]. by apply step_preserves.
Qed.

End Invariant.

Section Coherence.
Context `{Externals}.

Ltac resources o :=
  destruct o as [? ? ? ? ? ? ? ? [?|] [?|] [?|] [?|]].

Ltac by_cases :=
  unfold complete, coherent, meshBacked, textured, meshComplete, decodable,
    tryCreateMesh, rebuildMaterial, disposeGeometry, createGeometryIfNeeded,
    detachMesh; simpl;
  repeat case_match; simpl; try (intuition congruence).

Lemma coherent_disposeGeometry f : coherent f.1 → coherent (disposeGeometry f).1.
Proof. destruct f as [o st]. resources o; by_cases. Qed.

Lemma coherent_createGeometryIfNeeded settings f :
  coherent f.1 → coherent (createGeometryIfNeeded settings f).1.
Proof. destruct f as [o st]. resources o; by_cases. Qed.

Lemma coherent_rebuildMaterial f : coherent f.1 → coherent (rebuildMaterial f).1.
Proof. destruct f as [o st]. resources o; by_cases. Qed.

Lemma coherent_tryCreateMesh f : coherent f.1 → coherent (tryCreateMesh f).1.
Proof. destruct f as [o st]. resources o; by_cases. Qed.

Lemma meshComplete_tryCreateMesh f : meshComplete (tryCreateMesh f).1.
Proof. destruct f as [o st]. resources o; by_cases. Qed.

Lemma coherent_updateBody rid o image settings st :
  coherent o → coherent (updateBody rid o image settings st).2.1.
Proof.
  intros Ho. apply (updateBody_stages (λ f, coherent f.1)).
  - revert Ho. resources o; by_cases.
  - apply coherent_disposeGeometry.
  - apply coherent_createGeometryIfNeeded.
  - done.
  - apply coherent_rebuildMaterial.
  - apply coherent_tryCreateMesh.
Qed.

Lemma image_updateBody rid o image settings st :
  ud_image (updateBody rid o image settings st).2.1 = ud_image o.
Proof.
  apply (updateBody_stages (λ f, ud_image f.1 = ud_image o)); try done.
  - intros [o' st'] <-. resources o'; by_cases.
  - intros [o' st'] <-. resources o'; by_cases.
  - intros [o' st'] <-. resources o'; by_cases.
  - intros [o' st'] <-. resources o'; by_cases.
Qed.

Lemma srcTime_updateBody rid o image settings st :
  ud_srcTime (updateBody rid o image settings st).2.1 = ud_srcTime o.
Proof.
  apply (updateBody_stages (λ f, ud_srcTime f.1 = ud_srcTime o)); try done.
  - intros [o' st'] <-. resources o'; by_cases.
  - intros [o' st'] <-. resources o'; by_cases.
  - intros [o' st'] <-. resources o'; by_cases.
  - intros [o' st'] <-. resources o'; by_cases.
Qed.

(** No update stores the image it is given: the renderable's image and
    source time are those it was created with. *)
Lemma update_keeps_stored_image rid o image settings st :
  heap st !! rid = Some o →
  ∃ o', heap (_updateImageRenderable rid image settings st).2 !! rid = Some o' ∧
        ud_image o' = ud_image o ∧ ud_srcTime o' = ud_srcTime o.
Proof.
  intros Ho. pose proof (lookup_lt_Some _ _ _ Ho) as Hlt.
  unfold _updateImageRenderable. rewrite Ho.
  pose proof (image_updateBody rid o image settings st) as Himg.
  pose proof (srcTime_updateBody rid o image settings st) as Htime.
  pose proof (updateBody_heap rid o image settings st) as Hheap.
  destruct (updateBody rid o image settings st) as [c [o' st']]. simpl in *.
  exists o'. split; [|done]. rewrite Hheap. by apply list_lookup_insert_eq.
Qed.

Lemma addImageMessage_existing_keeps_image topic image st rid o :
  mapGet (imagesByTopic st) topic = Some rid →
  heap st !! rid = Some o →
  ∃ o', heap (addImageMessage topic image st).2 !! rid = Some o' ∧
        ud_image o' = ud_image o ∧ ud_srcTime o' = ud_srcTime o.
Proof.
  intros Hmap Ho. pose proof (lookup_lt_Some _ _ _ Ho) as Hlt.
  unfold addImageMessage. rewrite Hmap, Ho.
  set (pick := if Js.undefined (cameraInfoTopic (ud_settings o)) then _ else (o, st)).
  assert (heap pick.2 = heap st ∧ ud_image pick.1 = ud_image o ∧
          ud_srcTime pick.1 = ud_srcTime o) as (Hheap & Himg & Htime)
    by (subst pick; by repeat case_match).
  destruct pick as [o1 st1]. simpl in Hheap, Himg, Htime.
  destruct (update_keeps_stored_image rid o1 image (asPartial (ud_settings o1))
              (store rid o1 st1)) as (o' & Ho' & Himg' & Htime').
  { simpl. rewrite Hheap. by apply list_lookup_insert_eq. }
  exists o'. split; [exact Ho'|]. split; congruence.
Qed.

(** Learning a camera-info topic under which no renderable is registered
    re-runs nothing, whatever image topics it matches. *)
Lemma addCameraInfoMessage_other_name topic info st :
  mapGet (imagesByTopic st) topic = None →
  let st' := (addCameraInfoMessage topic info st).2 in
  (addCameraInfoMessage topic info st).1 = Normal ∧
  heap st' = heap st ∧ decodes st' = decodes st ∧
  log st' = log st ++ (if bool_decide (topic ∈ cameraInfoTopics st) then []
                       else [Emit ["topics"]]).
Proof.
  intros Hmap. unfold addCameraInfoMessage.
  destruct (bool_decide (topic ∈ cameraInfoTopics st)); simpl;
    rewrite Hmap; simpl; by rewrite ?app_nil_r.
Qed.

(** Settings that carry no camera-info topic never build a geometry. *)
Lemma createGeometryIfNeeded_without_topic settings f :
  p_cameraInfoTopic settings = None ∨ p_cameraInfoTopic settings = Some None →
  createGeometryIfNeeded settings f = f.
Proof.
  destruct f as [o st]. unfold createGeometryIfNeeded.
  by intros [-> | ->].
Qed.

Lemma run_coherent ops rd :
  Forall coherent (heap (run ops (initial rd))).
Proof.
  apply (run_preserves coherent (λ _, True)).
  - intros o v. resources o; by_cases.
  - intros o v. resources o; by_cases.
  - intros o v. resources o; by_cases.
  - intros. by apply coherent_updateBody.
  - done.
  - intros; by_cases.
  - intros o. resources o; by_cases.
  - intros o t st. resources o; by_cases.
  - intros o t t'. resources o; by_cases.
  - clear. induction ops as [|op ops IH]; constructor; [by destruct op|done].
  - constructor.
Qed.


Lemma run_complete ops rd :
  forallb suppliesDecodable ops = true →
  Forall complete (heap (run ops (initial rd))).
Proof.
  intros Hops.
  apply (run_preserves complete (λ image, Js.truthy (formatOf image) = true)).
  - intros o v. resources o; by_cases.
  - intros o v. resources o; by_cases.
  - intros o v. resources o; by_cases.
  - intros rid o image settings st [_ Hdec] Himg. split.
    + destruct (updateBody_normal rid o image settings st Himg) as [f ->].
      apply meshComplete_tryCreateMesh.
    + unfold decodable. by rewrite image_updateBody.
  - by intros o [_ ?].
  - intros. by_cases.
  - intros o. resources o; by_cases.
  - intros o t st [_ Hdec] _. split; [apply meshComplete_tryCreateMesh|].
    revert Hdec. resources o; by_cases.
  - intros o t t'. resources o; by_cases.
  - clear -Hops. induction ops as [|op ops IH]; [done|].
    simpl in Hops. destruct (andb_prop _ _ Hops) as [Hop Hops'].
    constructor; [by destruct op|by apply IH].
  - constructor.
Qed.

End Coherence.

(** ** Settings that change nothing *)

Section Settings.
Context `{Externals}.

Lemma spread_asPartial s : spread s (asPartial s) = s.
Proof. by destruct s. Qed.


Lemma kept_refl o : kept o o.
Proof. by repeat split. Qed.








End Settings.

(** ** Raw images *)

Section UpdateFacts.
Context `{Externals}.

(** C8. An update with a raw image throws. By then it has queued no decode
    and has not touched texture or material; the mesh is as it was or was
    detached with a disposed geometry, never built; the only outbound calls
    are geometry disposals. *)
Theorem raw_image_update_throws (rid : nat) (o : ImageRenderable) (raw : Image)
    (settings : PartialSettings) (st : Images) :
  heap st !! rid = Some o →
  let result := _updateImageRenderable rid (Raw raw) settings st in
  result.1 = Throw (Raw raw) ∧
  decodes result.2 = decodes st ∧
  ∃ o' events,
    heap result.2 !! rid = Some o' ∧
    log result.2 = log st ++ events ∧
    ud_texture o' = ud_texture o ∧
    ud_material o' = ud_material o ∧
    (ud_mesh o' = ud_mesh o ∨ ud_mesh o' = None) ∧
    ∀ e, e ∈ events → ∃ id, e = DisposeGeometry id.
Proof.
  intros Hheap. pose proof (lookup_lt_Some _ _ _ Hheap) as Hlt.
  unfold _updateImageRenderable, updateBody. rewrite Hheap. simpl.
  unfold createGeometryIfNeeded, disposeGeometry, detachMesh.
  repeat case_match; simplify_eq/=;
    (split; [done|]); (split; [done|]);
    eexists _, _; (split; [by apply list_lookup_insert_eq|]);
    (split; [first [reflexivity | symmetry; apply app_nil_r]|]);
    simpl; split_and!; try done; eauto;
    intros e He; try (by apply elem_of_nil in He);
    apply list_elem_of_singleton in He; eauto.
Qed.
End UpdateFacts.

(** ** The loops over the topic map *)

Section Loops.
Context `{Externals}.

(** A loop over object numbers that rewrites each object it meets with an
    idempotent [g] rewrites exactly the objects of the list. *)
Lemma foldl_pointwise (F : Images → nat → Images)
    (g : ImageRenderable → ImageRenderable) :
  (∀ st rid, heap (F st rid) =
     match heap st !! rid with
     | Some o => <[rid := g o]> (heap st)
     | None => heap st
     end) →
  (∀ o, g (g o) = g o) →
  ∀ l st rid o,
    heap st !! rid = Some o →
    heap (foldl F st l) !! rid = Some (if bool_decide (rid ∈ l) then g o else o).
Proof.
  intros HF Hg l. induction l as [|r l IH]; intros st rid o Ho; simpl.
  - done.
  - pose proof (lookup_lt_Some _ _ _ Ho) as Hlt.
    destruct (decide (rid = r)) as [->|Hne].
    + erewrite IH; last first.
      { rewrite HF, Ho. by apply list_lookup_insert_eq. }
      rewrite (bool_decide_eq_true_2 (r ∈ r :: l)) by left.
      rewrite Hg. by case_bool_decide.
    + erewrite IH; last first.
      { rewrite HF. destruct (heap st !! r); [|done].
        by rewrite list_lookup_insert_ne. }
      assert (bool_decide (rid ∈ r :: l) = bool_decide (rid ∈ l)) as ->
        by (apply bool_decide_ext; rewrite elem_of_cons; intuition congruence).
      done.
Qed.

Lemma frameRenderable_heap rf ff t st rid :
  heap (frameRenderable rf ff t st rid) =
    match heap st !! rid with
    | Some o => <[rid := framed (renderer st) rf ff t o]> (heap st)
    | None => heap st
    end.
Proof.
  unfold frameRenderable, framed, updatePose.
  destruct (heap st !! rid) as [o|]; [|done].
  destruct o as [? ? ? ? [[] ? ? ?] ? ? ? ? ? ? ?]; simpl; [|done].
  by destruct (transformTree _ _ _ _ _ _).
Qed.

Lemma frameRenderable_renderer rf ff t st rid :
  renderer (frameRenderable rf ff t st rid) = renderer st.
Proof.
  unfold frameRenderable, updatePose.
  destruct (heap st !! rid) as [o|]; [|done].
  destruct (negb _); [done|].
  by destruct (transformTree _ _ _ _ _ _).
Qed.

Lemma frameRenderable_log rf ff t st rid :
  log (frameRenderable rf ff t st rid) =
    log st ++ match heap st !! rid with
              | Some o => frameEvents (renderer st) rf ff t o
              | None => []
              end.
Proof.
  unfold frameRenderable, frameEvents, updatePose.
  destruct (heap st !! rid) as [o|]; [|by rewrite app_nil_r].
  destruct o as [? ? ? ? [[] ? ? ?] ? ? ? ? ? ? ?]; simpl; [|done].
  destruct (transformTree _ _ _ _ _ _); simpl; [by rewrite app_nil_r|done].
Qed.

Lemma framed_idemp rd rf ff t o :
  framed rd rf ff t (framed rd rf ff t o) = framed rd rf ff t o.
Proof.
  unfold framed, updatePose.
  destruct o as [? ? ? ? [[] ? ? ?] ? ? ? ? ? ? ?]; simpl; [|done].
  destruct (transformTree _ _ _ _ _ _) eqn:Htree; simpl; by rewrite Htree.
Qed.

Lemma frameEvents_framed rd rf ff t o :
  frameEvents rd rf ff t (framed rd rf ff t o) = frameEvents rd rf ff t o.
Proof.
  unfold frameEvents, framed, updatePose.
  destruct o as [? ? ? ? [[] ? ? ?] ? ? ? ? ? ? ?]; simpl; [|done].
  destruct (transformTree rd rf ff _ t t) eqn:Htree; simpl; by rewrite Htree.
Qed.

Lemma foldl_frame_renderer rf ff t l st :
  renderer (foldl (frameRenderable rf ff t) st l) = renderer st.
Proof.
  revert st. induction l as [|r l IH]; intros st; simpl; [done|].
  by rewrite IH, frameRenderable_renderer.
Qed.

Lemma foldl_frame_heap rf ff t l st rid o :
  heap st !! rid = Some o →
  heap (foldl (frameRenderable rf ff t) st l) !! rid
  = Some (if bool_decide (rid ∈ l) then framed (renderer st) rf ff t o else o).
Proof.
  revert st o. induction l as [|r l IH]; intros st o Ho; simpl; [done|].
  pose proof (lookup_lt_Some _ _ _ Ho) as Hlt.
  destruct (decide (rid = r)) as [->|Hne].
  - erewrite IH; last first.
    { rewrite frameRenderable_heap, Ho. by apply list_lookup_insert_eq. }
    rewrite frameRenderable_renderer, framed_idemp.
    rewrite (bool_decide_eq_true_2 (r ∈ r :: l)) by left.
    by case_bool_decide.
  - erewrite IH; last first.
    { rewrite frameRenderable_heap. destruct (heap st !! r); [|done].
      by rewrite list_lookup_insert_ne. }
    rewrite frameRenderable_renderer.
    assert (bool_decide (rid ∈ r :: l) = bool_decide (rid ∈ l)) as ->
      by (apply bool_decide_ext; rewrite elem_of_cons; intuition congruence).
    done.
Qed.

Lemma foldl_frame_log rf ff t l st :
  ∃ events,
    log (foldl (frameRenderable rf ff t) st l) = log st ++ events ∧
    ∀ rid o e, rid ∈ l → heap st !! rid = Some o →
               e ∈ frameEvents (renderer st) rf ff t o → e ∈ events.
Proof.
  revert st. induction l as [|r l IH]; intros st; simpl.
  - exists []. split; [by rewrite app_nil_r|]. intros ??? Hin. by apply elem_of_nil in Hin.
  - destruct (IH (frameRenderable rf ff t st r)) as (events & Hlog & Hev).
    rewrite frameRenderable_log in Hlog.
    rewrite frameRenderable_renderer in Hev.
    eexists. split; [by rewrite Hlog, <- app_assoc|].
    intros rid o e Hin Ho He.
    pose proof (lookup_lt_Some _ _ _ Ho) as Hlt.
    destruct (decide (rid = r)) as [->|Hne].
    + rewrite Ho. apply elem_of_app. by left.
    + apply elem_of_app. right.
      apply elem_of_cons in Hin as [?|Hin]; [done|].
      eapply (Hev rid o); [done| |done].
      rewrite frameRenderable_heap. destruct (heap st !! r); [|done].
      by rewrite list_lookup_insert_ne.
Qed.

(** C3 (as amended). When the render and fixed frames are known,
    [startFrame currentTime] resolves the pose of every renderable of the
    topic map whose settings make it visible with the stored image's frame
    as source frame and [currentTime] as both destination and source time
    (the message's own timestamp plays no part). On failure the pose stays
    as it was and a missing-transform error is reported under the
    renderable's topic. *)
Theorem startFrame_resolves_at_current_time (st : Images) (currentTime : Z)
    (rf ff : string) (rid : nat) (o : ImageRenderable) :
  renderFrameId (renderer st) = Some rf →
  fixedFrameId (renderer st) = Some ff →
  rid ∈ (imagesByTopic st).*2 →
  heap st !! rid = Some o →
  visible (ud_settings o) = true →
  ∃ o' events,
    heap (startFrame currentTime st) !! rid = Some o' ∧
    log (startFrame currentTime st) = log st ++ events ∧
    match transformTree (renderer st) rf ff (frame_id (header (ud_image o)))
                        currentTime currentTime with
    | Some pose => ud_pose o' = pose
    | None =>
        ud_pose o' = ud_pose o ∧
        AddToTopic (ud_topic o) MISSING_TRANSFORM
          (missingTransformMessage rf ff (frame_id (header (ud_image o)))) ∈ events
    end.
Proof.
  intros Hrf Hff Hin Ho Hvis. unfold startFrame. rewrite Hrf, Hff.
  set (st0 := set_layer_visible st true).
  destruct (foldl_frame_log rf ff currentTime (imagesByTopic st0).*2 st0)
    as (events & Hlog & Hev).
  exists (framed (renderer st) rf ff currentTime o), events.
  split; [|split].
  - rewrite (foldl_frame_heap _ _ _ _ st0 rid o Ho).
    by rewrite bool_decide_eq_true_2.
  - exact Hlog.
  - specialize (Hev rid o). unfold framed, frameEvents, updatePose in *.
    rewrite Hvis in *. simpl in *.
    destruct (transformTree (renderer st) rf ff _ currentTime currentTime);
      simpl; rewrite ?Hvis; simpl.
    + done.
    + split; [done|]. apply Hev; [done..|]. left.
Qed.

Lemma dispose_heap_step st rid :
  let disposeOne := λ (st : Images) (rid : nat),
    match heap st !! rid with
    | Some o =>
        let st := match ud_texture o with
                  | Some t => emit (DisposeTexture (tex_id t)) st
                  | None => st
                  end in
        let st := match ud_material o with
                  | Some m => emit (DisposeMaterial (mat_id m)) st
                  | None => st
                  end in
        let st := match ud_geometry o with
                  | Some geo => emit (DisposeGeometry (geo_id geo)) st
                  | None => st
                  end in
        store rid (released o) st
    | None => st
    end in
  heap (disposeOne st rid) =
    match heap st !! rid with
    | Some o => <[rid := released o]> (heap st)
    | None => heap st
    end.
Proof.
  simpl. destruct (heap st !! rid) as [o|]; [|done].
  by repeat case_match.
Qed.

Lemma dispose_releases st rid o :
  rid ∈ (imagesByTopic st).*2 → heap st !! rid = Some o →
  imagesByTopic (dispose st) = [] ∧ children (dispose st) = [] ∧
  heap (dispose st) !! rid = Some (released o).
Proof.
  intros Hin Ho. unfold dispose. simpl. split; [done|]. split; [done|].
  erewrite (foldl_pointwise _ released); [by rewrite bool_decide_eq_true_2| | |done].
  - intros st' rid'. apply dispose_heap_step.
  - by intros [].
Qed.

End Loops.

(** ** Decodes that outlive their renderable *)

Section Decodes.
Context `{Externals}.

(** C5 (as amended). A decode completes for a renderable that [dispose]
    dropped from the topic map and left without resources. The callback
    leaves the renderer, the topic map, the known camera-info topics, the
    layer's children and every other renderable as they were and builds
    neither geometry nor mesh; but it does create a texture and a material
    on the dropped renderable, and it clears the topic's decode error. *)
Theorem stale_decode_recreates_texture (st : Images) (i : nat) (d : Decode)
    (o : ImageRenderable) (bitmap : ImageBitmap) :
  decodes st !! i = Some d →
  heap st !! dec_renderable d = Some o →
  dropped (dec_renderable d) st →
  ud_texture o = None → ud_material o = None →
  ud_geometry o = None → ud_mesh o = None →
  let st' := settleDecode i (inl bitmap) st in
  let texture := {| tex_id := nextId st; tex_image := bitmap; tex_needsUpdate := true |} in
  renderer st' = renderer st ∧
  imagesByTopic st' = imagesByTopic st ∧
  cameraInfoTopics st' = cameraInfoTopics st ∧
  children st' = children st ∧
  (∀ rid, rid ≠ dec_renderable d → heap st' !! rid = heap st !! rid) ∧
  decodes st' = delete i (decodes st) ∧
  log st' = log st ++ [RemoveFromTopic (dec_topic d) CREATE_BITMAP_ERR] ∧
  ∃ o',
    heap st' !! dec_renderable d = Some o' ∧
    ud_texture o' = Some texture ∧
    ud_material o' = Some (createMaterial (S (nextId st)) texture o) ∧
    ud_geometry o' = None ∧ ud_mesh o' = None ∧
    obj_children o' = obj_children o.
Proof.
  intros Hd Ho Hdrop Htex Hmat Hgeo Hmesh. simpl.
  pose proof (lookup_lt_Some _ _ _ Ho) as Hlt.
  unfold settleDecode, onBitmap. rewrite Hd. simpl. rewrite Ho.
  destruct o; simpl in *; subst; simpl.
  split_and!; try done.
  - intros rid Hne. by rewrite list_lookup_insert_ne.
  - eexists. split; [by apply list_lookup_insert_eq|]. done.
Qed.

(** What the [catch] callback does instead. *)
Lemma failed_decode_only_reports st i d message :
  decodes st !! i = Some d →
  settleDecode i (inr message) st =
    emit (AddToTopic (dec_topic d) CREATE_BITMAP_ERR ("createBitmap failed: " ++ message)%string)
         (set_decodes st (delete i (decodes st))).
Proof. intros Hd. unfold settleDecode. by rewrite Hd. Qed.

End Decodes.

(** ** Mesh, geometry and material *)

Section MeshInvariant.
Context `{Externals}.

Lemma disposeGeometry_detaches f :
  ud_geometry (disposeGeometry f).1 = None ∧
  ud_mesh (disposeGeometry f).1 = None ∧
  obj_children (disposeGeometry f).1 =
    match ud_mesh f.1 with
    | Some mesh => removeChild (obj_children f.1) (mesh_id mesh)
    | None => obj_children f.1
    end.
Proof.
  destruct f as [o st]. unfold disposeGeometry, detachMesh.
  by destruct o as [? ? ? ? ? ? ? ? ? ? [?|] [?|]].
Qed.

Lemma rebuildMaterial_detaches f :
  ud_mesh (rebuildMaterial f).1 = None ∧
  obj_children (rebuildMaterial f).1 =
    match ud_mesh f.1 with
    | Some mesh => removeChild (obj_children f.1) (mesh_id mesh)
    | None => obj_children f.1
    end.
Proof.
  destruct f as [o st]. unfold rebuildMaterial, detachMesh.
  by destruct o as [? ? ? ? ? ? ? ? [?|] [?|] ? [?|]].
Qed.

(** C7 (as amended). After any history of public operations, settled
    decodes and renderer changes, a renderable has a mesh only if it has
    both a geometry and a material; if the history supplied no image the
    update rejects (a raw one, or one with an empty format), it has a mesh
    exactly when it has both. When an update disposes of the geometry, and
    whenever the material is rebuilt, the mesh is removed from the
    renderable's children and its reference cleared. *)
Theorem mesh_only_with_geometry_and_material (ops : list Op) (rd : Renderer)
    (rid : nat) (o : ImageRenderable) :
  heap (run ops (initial rd)) !! rid = Some o →
  (ud_mesh o ≠ None → ud_geometry o ≠ None ∧ ud_material o ≠ None) ∧
  (forallb suppliesDecodable ops = true →
   (ud_mesh o ≠ None ↔ ud_geometry o ≠ None ∧ ud_material o ≠ None)) ∧
  (∀ f : Focus,
     ud_geometry (disposeGeometry f).1 = None ∧
     ud_mesh (disposeGeometry f).1 = None ∧
     obj_children (disposeGeometry f).1 =
       match ud_mesh f.1 with
       | Some mesh => removeChild (obj_children f.1) (mesh_id mesh)
       | None => obj_children f.1
       end) ∧
  (∀ f : Focus,
     ud_mesh (rebuildMaterial f).1 = None ∧
     obj_children (rebuildMaterial f).1 =
       match ud_mesh f.1 with
       | Some mesh => removeChild (obj_children f.1) (mesh_id mesh)
       | None => obj_children f.1
       end).
Proof.
  intros Ho.
  assert (coherent o) as [Hbacked _].
  { eapply Forall_lookup_1; [apply run_coherent|exact Ho]. }
  split; [exact Hbacked|]. split; [|split].
  - intros Hops. split; [exact Hbacked|].
    assert (complete o) as [Hcomplete _].
    { eapply Forall_lookup_1; [by apply run_complete|exact Ho]. }
    intros [? ?]. by apply Hcomplete.
  - apply disposeGeometry_detaches.
  - apply rebuildMaterial_detaches.
Qed.

End MeshInvariant.

(** ** Worked scenarios *)

Section Scenarios.
#[local] Existing Instance Sample.externals.
Import Sample.

Ltac evaluate := cbv zeta; split_and!; vm_compute; reflexivity.

Lemma fresh_arrived : heap arrived !! 0 = Some fresh.
Proof. by vm_compute. Qed.

Lemma streamed_streaming : heap streaming !! 0 = Some streamed.
Proof. by vm_compute. Qed.

(** C1. The renderable on "cam/image" waits for the camera model of
    "cam/info", which its settings select and which the image topic
    matches. When "cam/info" is learned as a new camera-info topic the
    layer looks for a renderable named "cam/info" itself, finds none, and
    re-runs nothing: no decode is queued and the geometry stays absent,
    although re-running the update would build it. One [topics] event is
    emitted. *)
Theorem addCameraInfoMessage_skips_matching_renderable :
  let st := awaitingInfo in
  let st' := (addCameraInfoMessage "cam/info" info st).2 in
  let rerun :=
    (_updateImageRenderable 0 (jpeg 1)
       (asPartial (mkSettings true (Some "cam/info") 1 "#ffffff")) st').2 in
  cameraInfoTopics st = [] ∧
  cameraInfoTopicMatches "cam/image" "cam/info" = true ∧
  imagesByTopic st = [("cam/image", 0)] ∧
  ud_settings <$> heap st !! 0 = Some (mkSettings true (Some "cam/info") 1 "#ffffff") ∧
  ud_image <$> heap st !! 0 = Some (jpeg 1) ∧
  cameraInfoTopics st' = ["cam/info"] ∧
  log st' = log st ++ [Emit ["topics"]] ∧
  heap st' = heap st ∧
  decodes st' = decodes st ∧
  ud_geometry <$> heap st' !! 0 = Some None ∧
  geo_attributes <$> (heap rerun !! 0 ≫= ud_geometry) = Some (createGeometry camera 1) ∧
  length (decodes rerun) = S (length (decodes st)).
Proof. evaluate. Qed.

(** C2. A second image on a topic that already has a renderable is decoded
    but not stored: the renderable still holds the first image and the first
    timestamp. *)
Theorem addImageMessage_keeps_first_image :
  let st := run [AddImageMessage "cam/image" (jpeg 1);
                 AddImageMessage "cam/image" (jpeg 2)] (initial bare) in
  imagesByTopic st = [("cam/image", 0)] ∧
  rosTimeToNanoSec (stamp (header (jpeg 2))) = 2%Z ∧
  ud_image <$> heap st !! 0 = Some (jpeg 1) ∧
  ud_srcTime <$> heap st !! 0 = Some 1%Z ∧
  dec_image <$> decodes st
  = [mkCompressed (mkHeader (mkTime 0 1) "cam") "jpeg" [];
     mkCompressed (mkHeader (mkTime 0 2) "cam") "jpeg" []].
Proof. evaluate. Qed.

(** C4. The renderable shows its image on a geometry built for "cam/info"
    at distance 1. Setting only the distance changes a geometry setting, so
    the geometry is disposed of; the merged settings still select
    "cam/info" and its camera model is there, yet no geometry is built
    (the test reads the camera-info topic from the settings argument, which
    carries none), and the mesh is gone. *)
Theorem distance_change_leaves_geometry_unbuilt :
  let st := streaming in
  let st' :=
    (setTopicSettings "cam/image" (mkPartial None None (Some 2%float) None) st).2 in
  geo_id <$> (heap st !! 0 ≫= ud_geometry) = Some 0 ∧
  mesh_id <$> (heap st !! 0 ≫= ud_mesh) = Some 3 ∧
  ud_settings <$> heap st' !! 0 = Some (mkSettings true (Some "cam/info") 2 "#ffffff") ∧
  width <$> mjoin (camerasByTopic (renderer st') !! "cam/info") = Some 640%float ∧
  log st' = log st ++ [DisposeGeometry 0] ∧
  ud_geometry <$> heap st' !! 0 = Some None ∧
  ud_mesh <$> heap st' !! 0 = Some None ∧
  obj_children <$> heap st' !! 0 = Some [].
Proof. evaluate. Qed.

(** C3 as written does not hold: the image was stamped at 1 ns and the
    transform tree resolves the camera frame at source time 1, but
    [startFrame 5] asks at source time 5, so the pose is not resolved and a
    missing transform is reported. *)
Lemma startFrame_ignores_message_time :
  visible (ud_settings fresh) = true ∧
  heap arrived !! 0 = Some fresh ∧
  rosTimeToNanoSec (stamp (header (ud_image fresh))) = 1%Z ∧
  transformTree (renderer arrived) "base_link" "map"
                (frame_id (header (ud_image fresh))) 5%Z 1%Z = Some moved ∧
  movedAlongX moved = true ∧
  movedAlongX <$> (ud_pose <$> heap (startFrame 5%Z arrived) !! 0) = Some false ∧
  log (startFrame 5%Z arrived)
  = [AddToTopic "cam/image" MISSING_TRANSFORM
       (missingTransformMessage "base_link" "map" "cam")].
Proof. evaluate. Qed.

Lemma startFrame_resolves_witness :
  ∃ o' events,
    heap (startFrame 1%Z arrived) !! 0 = Some o' ∧
    log (startFrame 1%Z arrived) = log arrived ++ events ∧
    ud_pose o' = moved.
Proof.
  destruct (startFrame_resolves_at_current_time arrived 1%Z "base_link" "map" 0 fresh)
    as (o' & events & Ho' & Hlog & Hpose); try (vm_compute; reflexivity).
  - vm_compute. left.
  - exists o', events. split_and!; [exact Ho'|exact Hlog|exact Hpose].
Defined.

(** C5 as written does not hold: after [dispose] the decode of the first
    image settles, and the dropped renderable gets a texture and a material
    again. *)
Lemma stale_decode_not_a_noop :
  let st' := settleDecode 0 (inl bitmap) abandoned in
  imagesByTopic abandoned = [] ∧
  dec_renderable <$> decodes abandoned !! 0 = Some 0 ∧
  ud_texture <$> heap abandoned !! 0 = Some None ∧
  ud_material <$> heap abandoned !! 0 = Some None ∧
  ud_texture <$> heap st' !! 0 = Some (Some (mkTexture 0 bitmap true)) ∧
  mat_map <$> (heap st' !! 0 ≫= ud_material) = Some 0.
Proof. evaluate. Qed.

Lemma stale_decode_witness :
  ∃ o',
    heap (settleDecode 0 (inl bitmap) abandoned) !! 0 = Some o' ∧
    imagesByTopic (settleDecode 0 (inl bitmap) abandoned) = [] ∧
    ud_texture o' = Some (mkTexture 0 bitmap true) ∧
    ud_geometry o' = None ∧ ud_mesh o' = None.
Proof.
  destruct (stale_decode_recreates_texture abandoned 0
              (mkDecode 0 "cam/image" (mkCompressed (mkHeader (mkTime 0 1) "cam") "jpeg" []))
              fresh bitmap)
    as (_ & Hmap & _ & _ & _ & _ & _ & o' & Ho' & Ht & _ & Hg & Hm & _);
    try (vm_compute; reflexivity).
  - unfold dropped. vm_compute. intros Hin. by apply elem_of_nil in Hin.
  - exists o'. split_and!; [exact Ho'|exact Hmap|exact Ht|exact Hg|exact Hm].
Defined.

(** C7 as written does not hold: the renderable has a texture and a
    material, a camera model arrives, and the next image on the topic is a
    raw one. [addImageMessage] builds the geometry and then throws, so the
    call ends with geometry and material but no mesh. *)
Lemma rejected_image_leaves_mesh_unbuilt :
  (addImageMessage "cam/image" (mono8 2)
     (run [AddImageMessage "cam/image" (jpeg 1);
           SettleDecode 0 (inl bitmap);
           RendererChanged (withCamera bare);
           AddCameraInfoMessage "cam/info" info] (initial bare))).1
  = Throw (mono8 2) ∧
  geo_id <$> (heap afterRawImage !! 0 ≫= ud_geometry) = Some 2 ∧
  mat_id <$> (heap afterRawImage !! 0 ≫= ud_material) = Some 1 ∧
  ud_mesh <$> heap afterRawImage !! 0 = Some None.
Proof. evaluate. Qed.

Lemma mesh_invariant_witness :
  ud_mesh streamed ≠ None ↔ ud_geometry streamed ≠ None ∧ ud_material streamed ≠ None.
Proof.
  destruct (mesh_only_with_geometry_and_material streamingOps (withCamera bare) 0 streamed)
    as (_ & Hiff & _); [by vm_compute|].
  apply Hiff. by vm_compute.
Defined.

Lemma raw_image_update_witness :
  (_updateImageRenderable 0 (mono8 2) (asPartial DEFAULT_SETTINGS) arrived).1
  = Throw (mono8 2) ∧
  decodes (_updateImageRenderable 0 (mono8 2) (asPartial DEFAULT_SETTINGS) arrived).2
  = decodes arrived.
Proof.
  destruct (raw_image_update_throws 0 fresh
              (mkImage (mkHeader (mkTime 0 2) "cam") 480 640 "mono8" [])
              (asPartial DEFAULT_SETTINGS) arrived)
    as (Hthrow & Hdecodes & _); [by vm_compute|].
  split; [exact Hthrow|exact Hdecodes].
Defined.



End Scenarios.

(** * Further properties *)

(** ** Equality of numbers *)

Lemma SFeqb_finite x s m e :
  SFeqb x (S754_finite s m e) = true → x = S754_finite s m e.
Proof.
  unfold SFeqb, SFcompare.
  destruct x as [s'|s'| |s' m' e']; try (by destruct s'); try (by destruct s); try done.
  destruct s', s; try done;
    destruct (e' ?= e)%Z eqn:He; try done;
    apply Z.compare_eq in He; subst;
    destruct (Pos.compare_cont Eq m' m) eqn:Hm; try done;
    apply Pos.compare_eq in Hm; by subst.
Qed.

Lemma eqb_finite d a s m e :
  Prim2SF a = S754_finite s m e → (d =? a)%float = true → d = a.
Proof.
  intros Ha Heq. rewrite FloatAxioms.eqb_spec, Ha in Heq. apply SFeqb_finite in Heq.
  rewrite <- (SF2Prim_Prim2SF d), <- (SF2Prim_Prim2SF a). congruence.
Qed.

Lemma SFeqb_finite_refl s m e :
  SFeqb (S754_finite s m e) (S754_finite s m e) = true.
Proof.
  unfold SFeqb, SFcompare. rewrite Z.compare_refl, Pos.compare_cont_refl.
  by destruct s.
Qed.

Lemma SFeqb_sym x y : SFeqb x y = SFeqb y x.
Proof.
  destruct x as [s|s| |s m e], y as [s'|s'| |s' m' e']; try done;
    try (by destruct s); try (by destruct s'); try (by destruct s, s').
  destruct (SFeqb (S754_finite s m e) (S754_finite s' m' e')) eqn:Hxy.
  - apply SFeqb_finite in Hxy. simplify_eq. by rewrite SFeqb_finite_refl.
  - destruct (SFeqb (S754_finite s' m' e') (S754_finite s m e)) eqn:Hyx; [|done].
    apply SFeqb_finite in Hyx. simplify_eq. by rewrite SFeqb_finite_refl in Hxy.
Qed.

Lemma SFeqb_trans x y z : SFeqb x y = true → SFeqb y z = true → SFeqb x z = true.
Proof.
  destruct y as [s|s| |s m e].
  - destruct x as [?|[]| |[] ? ?], z as [?|[]| |[] ? ?]; done.
  - destruct x as [?|[]| |[] ? ?], z as [?|[]| |[] ? ?], s; done.
  - by destruct x as [?|[]| |[] ? ?].
  - rewrite (SFeqb_sym (S754_finite s m e) z).
    intros ->%SFeqb_finite ->%SFeqb_finite. apply SFeqb_finite_refl.
Qed.

Lemma float_eqb_sym (x y : float) : (x =? y)%float = (y =? x)%float.
Proof. rewrite !FloatAxioms.eqb_spec. apply SFeqb_sym. Qed.

Lemma float_eqb_trans (x y z : float) :
  (x =? y)%float = true → (y =? z)%float = true → (x =? z)%float = true.
Proof. rewrite !FloatAxioms.eqb_spec. apply SFeqb_trans. Qed.

(** ** Topic matching as a relation *)

(** X1. [cameraInfoTopicMatches] is an equivalence on topics: every topic
    matches itself, matching is symmetric, and it is transitive. *)
Theorem cameraInfoTopicMatches_equivalence :
  (∀ topic, cameraInfoTopicMatches topic topic = true) ∧
  (∀ a b, cameraInfoTopicMatches a b = cameraInfoTopicMatches b a) ∧
  (∀ a b c, cameraInfoTopicMatches a b = true →
            cameraInfoTopicMatches b c = true →
            cameraInfoTopicMatches a c = true).
Proof.
  split; [|split].
  - intros topic. by apply matches_spec.
  - intros a b.
    destruct (cameraInfoTopicMatches a b) eqn:Hab;
      destruct (cameraInfoTopicMatches b a) eqn:Hba; try done.
    + apply matches_spec in Hab as [Hl Ht].
      assert (cameraInfoTopicMatches b a = true) as Hba'
        by (apply matches_spec; split; congruence).
      congruence.
    + apply matches_spec in Hba as [Hl Ht].
      assert (cameraInfoTopicMatches a b = true) as Hab'
        by (apply matches_spec; split; congruence).
      congruence.
  - intros a b c Hab Hbc.
    apply matches_spec in Hab as [Hl Ht]. apply matches_spec in Hbc as [Hl' Ht'].
    apply matches_spec. split; congruence.
Qed.

Lemma split_separator sep a b :
  Js.split sep (a +:+ String sep b) = Js.split sep a ++ Js.split sep b.
Proof.
  induction a as [|c a IH]; simpl.
  - by rewrite Ascii.eqb_refl.
  - destruct (Ascii.eqb c sep); [by rewrite IH|].
    rewrite IH. pose proof (split_nonempty sep a) as Hne.
    by destruct (Js.split sep a).
Qed.

Lemma split_leaf sep leaf :
  sep ∉ String.list_ascii_of_string leaf → Js.split sep leaf = [leaf].
Proof.
  induction leaf as [|c leaf IH]; simpl; [done|].
  intros Hnot. apply not_elem_of_cons in Hnot as [Hne Hnot].
  destruct (Ascii.eqb_spec c sep) as [Heq|_]; [by subst|].
  by rewrite IH.
Qed.

(** X2. Topics of one namespace match whatever their leaf names, and a
    topic never matches a topic one level below it. *)
Theorem cameraInfoTopicMatches_namespace (namespace leaf1 leaf2 : string) :
  "/"%char ∉ String.list_ascii_of_string leaf1 →
  "/"%char ∉ String.list_ascii_of_string leaf2 →
  cameraInfoTopicMatches (namespace +:+ "/" +:+ leaf1) (namespace +:+ "/" +:+ leaf2) = true ∧
  cameraInfoTopicMatches namespace (namespace +:+ "/" +:+ leaf1) = false.
Proof.
  intros H1 H2. split.
  - apply matches_spec.
    change (namespace +:+ "/" +:+ leaf1) with (namespace +:+ String "/" leaf1).
    change (namespace +:+ "/" +:+ leaf2) with (namespace +:+ String "/" leaf2).
    rewrite !split_separator.
    rewrite (split_leaf "/" leaf1), (split_leaf "/" leaf2) by done.
    rewrite !length_app. simpl. split; [done|].
    replace (length (Js.split "/" namespace) + 1 - 1)
      with (length (Js.split "/" namespace)) by lia.
    by rewrite !take_app_length.
  - destruct (cameraInfoTopicMatches _ _) eqn:Hm; [|done].
    apply matches_spec in Hm as [Hlen _]. revert Hlen.
    change (namespace +:+ "/" +:+ leaf1) with (namespace +:+ String "/" leaf1).
    rewrite split_separator, (split_leaf "/" leaf1) by done.
    rewrite length_app. simpl. lia.
Qed.

Lemma cameraInfoTopicMatches_namespace_witness :
  cameraInfoTopicMatches "robot/left/image" "robot/left/camera_info" = true ∧
  cameraInfoTopicMatches "robot/left" "robot/left/image" = false.
Proof.
  apply (cameraInfoTopicMatches_namespace "robot/left" "image" "camera_info");
    vm_compute; intros Hin; repeat (apply elem_of_cons in Hin as [Hin|Hin]; [done|]);
    by apply elem_of_nil in Hin.
Defined.

Lemma candidatesFor_Permutation imageTopic known known' :
  known ≡ₚ known' → candidatesFor imageTopic known ≡ₚ candidatesFor imageTopic known'.
Proof.
  unfold candidatesFor. induction 1; simpl.
  - done.
  - destruct (cameraInfoTopicMatches imageTopic x); [by constructor|done].
  - destruct (cameraInfoTopicMatches imageTopic x), (cameraInfoTopicMatches imageTopic y);
      try done; by constructor.
  - by etrans.
Qed.

(** X3. The order in which the camera-info topics were learned does not
    matter to auto-selection. *)
Theorem autoSelect_order_irrelevant (output : LayerSettingsImage) (imageTopic : string)
    (known known' : list string) :
  known ≡ₚ known' →
  autoSelectCameraInfoTopic output imageTopic known
  = autoSelectCameraInfoTopic output imageTopic known'.
Proof.
  intros Hperm. unfold autoSelectCameraInfoTopic. do 2 f_equal.
  unfold Js.sort. apply (StronglySorted_unique Js.le).
  - apply StronglySorted_merge_sort; apply _.
  - apply StronglySorted_merge_sort; apply _.
  - rewrite !merge_sort_Permutation. by apply candidatesFor_Permutation.
Qed.

Lemma autoSelect_order_irrelevant_witness :
  autoSelectCameraInfoTopic DEFAULT_SETTINGS "a/b/image" ["a/b/info2"; "c/d"; "a/b/info1"]
  = autoSelectCameraInfoTopic DEFAULT_SETTINGS "a/b/image" ["a/b/info1"; "a/b/info2"; "c/d"].
Proof.
  apply autoSelect_order_irrelevant.
  symmetry. apply (Permutation_cons_append ["a/b/info2"; "c/d"] "a/b/info1").
Defined.

(** X4. The settings node of a topic offers, as label and as value, exactly
    the known camera-info topics that match the topic, in the order they
    were learned; the topic auto-selection picks is one of them and comes
    first among them in the order of the default sort, so that no option
    has code units that come before its own. The value shown is the one
    configured. *)
Theorem settingsNodeProvider_offers_selection (topicConfig : PartialSettings)
    (topicName : string) (st : Images) (output : LayerSettingsImage) :
  let node := settingsNodeProvider topicConfig topicName st in
  sel_options (field_cameraInfoTopic node)
  = (λ c, (c, c)) <$> candidatesFor topicName (cameraInfoTopics st) ∧
  sel_value (field_cameraInfoTopic node) = mjoin (p_cameraInfoTopic topicConfig) ∧
  (∀ c, cameraInfoTopic (autoSelectCameraInfoTopic output topicName (cameraInfoTopics st))
        = Some c →
        (c, c) ∈ sel_options (field_cameraInfoTopic node) ∧
        ∀ label value, (label, value) ∈ sel_options (field_cameraInfoTopic node) →
                       Js.le c value ∧
                       Js.compareUnits (Js.codeUnits c) (Js.codeUnits value) ≠ Gt) ∧
  (sel_options (field_cameraInfoTopic node) = [] ↔
   cameraInfoTopic (autoSelectCameraInfoTopic output topicName (cameraInfoTopics st))
   = None).
Proof.
  simpl. split; [done|]. split; [done|]. split.
  - intros c Hsel. unfold cameraInfoOptions. fold (candidatesFor topicName (cameraInfoTopics st)).
    split.
    + apply list_elem_of_fmap. exists c. split; [done|]. by apply head_sort_elem.
    + intros label value Hin. apply list_elem_of_fmap in Hin as (c' & Heq & Hin).
      simplify_eq.
      assert (Js.le c c') as Hle by by eapply head_sort_least.
      split; [done|by apply Js_le_units].
  - unfold cameraInfoOptions. fold (candidatesFor topicName (cameraInfoTopics st)).
    rewrite head_sort_None. split.
    + intros Hnil. by apply fmap_nil_inv in Hnil.
    + by intros ->.
Qed.

(** ** What an update does, block by block *)

Section UpdateBlocks.
Context `{Externals}.

Ltac block o :=
  destruct o as [? ? ? ? ? ? ? ? [?|] [?|] [?|] [?|]];
  unfold disposeGeometry, createGeometryIfNeeded, rebuildMaterial, tryCreateMesh,
    detachMesh, geometryRelease, materialRelease; simpl;
  repeat case_match; simplify_eq/=; rewrite ?app_nil_r; done.

Lemma disposeGeometry_effect o st :
  let f := disposeGeometry (o, st) in
  log f.2 = log st ++ geometryRelease o ∧ decodes f.2 = decodes st ∧
  renderer f.2 = renderer st ∧
  sameIdentity o f.1 ∧ ud_settings f.1 = ud_settings o ∧
  ud_texture f.1 = ud_texture o ∧ ud_material f.1 = ud_material o ∧
  ud_geometry f.1 = None ∧ nextId f.2 = nextId st.
Proof. unfold sameIdentity. block o. Qed.

Lemma createGeometryIfNeeded_effect settings o st :
  let f := createGeometryIfNeeded settings (o, st) in
  log f.2 = log st ∧ decodes f.2 = decodes st ∧ renderer f.2 = renderer st ∧
  sameIdentity o f.1 ∧ ud_settings f.1 = ud_settings o ∧
  ud_texture f.1 = ud_texture o ∧ ud_material f.1 = ud_material o ∧
  ud_geometry f.1 =
    match ud_geometry o with
    | Some geometry => Some geometry
    | None =>
        match p_cameraInfoTopic settings with
        | Some (Some cameraInfoTopic) =>
            match camerasByTopic (renderer st) !! cameraInfoTopic with
            | Some (Some cameraModel) =>
                Some {| geo_id := nextId st;
                        geo_attributes :=
                          createGeometry cameraModel (distance (ud_settings o)) |}
            | _ => None
            end
        | _ => None
        end
    end.
Proof. unfold sameIdentity. block o. Qed.

Lemma rebuildMaterial_effect o st :
  let f := rebuildMaterial (o, st) in
  log f.2 = log st ++ materialRelease o ∧ decodes f.2 = decodes st ∧
  renderer f.2 = renderer st ∧
  sameIdentity o f.1 ∧ ud_settings f.1 = ud_settings o ∧
  ud_texture f.1 = ud_texture o ∧ ud_geometry f.1 = ud_geometry o.
Proof. unfold sameIdentity. block o. Qed.

Lemma tryCreateMesh_effect o st :
  let f := tryCreateMesh (o, st) in
  log f.2 = log st ∧ decodes f.2 = decodes st ∧ renderer f.2 = renderer st ∧
  sameIdentity o f.1 ∧ ud_settings f.1 = ud_settings o ∧
  ud_texture f.1 = ud_texture o ∧ ud_material f.1 = ud_material o ∧
  ud_geometry f.1 = ud_geometry o.
Proof. unfold sameIdentity. block o. Qed.

Lemma sameIdentity_refl o : sameIdentity o o.
Proof. by repeat split. Qed.

Lemma sameIdentity_trans o1 o2 o3 :
  sameIdentity o1 o2 → sameIdentity o2 o3 → sameIdentity o1 o3.
Proof. unfold sameIdentity. intros (?&?&?&?) (?&?&?&?). split_and!; congruence. Qed.

(** The whole update, in terms of the renderable and state it started from. *)
Lemma updateBody_effect rid o image settings st :
  let result := updateBody rid o image settings st in
  let o' := result.2.1 in
  let st' := result.2.2 in
  let accepted := Js.truthy (formatOf image) in
  sameIdentity o o' ∧
  ud_settings o' = spread (ud_settings o) settings ∧
  ud_texture o' = ud_texture o ∧
  renderer st' = renderer st ∧
  result.1 = (if accepted then Normal else Throw image) ∧
  decodes st' = decodes st ++
    match image with
    | Compressed compressed =>
        if accepted then [mkDecode rid (ud_topic o) compressed] else []
    | Raw _ => []
    end ∧
  log st' = log st
    ++ (if geometrySettingsEqual (ud_settings o) settings then [] else geometryRelease o)
    ++ (if accepted && negb (materialSettingsEqual (ud_settings o) settings)
        then materialRelease o else []) ∧
  ud_geometry o' = geometryAfter o settings st ∧
  (materialSettingsEqual (ud_settings o) settings = true →
   ∀ material, ud_material o = Some material → ud_material o' = Some material) ∧
  (accepted = false → ud_material o' = ud_material o).
Proof.
  unfold updateBody, geometryAfter.
  fold (geometrySettingsEqual (ud_settings o) settings).
  fold (materialSettingsEqual (ud_settings o) settings).
  set (geoEq := geometrySettingsEqual (ud_settings o) settings).
  set (matEq := materialSettingsEqual (ud_settings o) settings).
  set (o0 := set_ud_settings o (spread (ud_settings o) settings)).
  assert (sameIdentity o o0 ∧ ud_settings o0 = spread (ud_settings o) settings ∧
          ud_texture o0 = ud_texture o ∧ ud_material o0 = ud_material o ∧
          ud_geometry o0 = ud_geometry o) as (Hi0 & Hs0 & Ht0 & Hm0 & Hg0)
    by (by destruct o).
  assert (geometryRelease o0 = geometryRelease o) as Hgr
    by (unfold geometryRelease; by rewrite Hg0).
  clearbody o0.
  (* dispose of the current geometry if the settings have changed *)
  set (f1 := if negb geoEq then disposeGeometry (o0, st) else (o0, st)).
  assert (log f1.2 = log st ++ (if geoEq then [] else geometryRelease o) ∧
          decodes f1.2 = decodes st ∧ renderer f1.2 = renderer st ∧
          sameIdentity o f1.1 ∧
          ud_settings f1.1 = spread (ud_settings o) settings ∧
          ud_texture f1.1 = ud_texture o ∧ ud_material f1.1 = ud_material o ∧
          ud_geometry f1.1 = (if geoEq then ud_geometry o else None) ∧
          nextId f1.2 = nextId st)
    as (Hl1 & Hd1 & Hr1 & Hi1 & Hs1 & Ht1 & Hm1 & Hg1 & Hn1).
  { subst f1. destruct geoEq; cbn [negb fst snd].
    - rewrite app_nil_r. by split_and!.
    - destruct (disposeGeometry_effect o0 st) as (Hl&?&?&?&?&?&?&?&?).
      split_and!; try congruence; try done.
      by eapply sameIdentity_trans. }
  destruct f1 as [o1 st1].
  cbn [fst snd] in Hl1, Hd1, Hr1, Hi1, Hs1, Ht1, Hm1, Hg1, Hn1.
  (* create the plane geometry if needed *)
  destruct (createGeometryIfNeeded_effect settings o1 st1)
    as (Hl2 & Hd2 & Hr2 & Hi2 & Hs2 & Ht2 & Hm2 & Hg2).
  destruct (createGeometryIfNeeded settings (o1, st1)) as [o2 st2].
  cbn [fst snd] in Hl2, Hd2, Hr2, Hi2, Hs2, Ht2, Hm2, Hg2.
  rewrite Hg1, Hr1, Hn1, Hs1 in Hg2.
  assert (sameIdentity o o2) as Hi by by eapply sameIdentity_trans.
  destruct (Js.truthy (formatOf image)) eqn:Hfmt; cbn [fst snd andb].
  2:{ rewrite !app_nil_r. split_and!; try congruence.
      destruct image; rewrite app_nil_r; congruence. }
  destruct image as [raw|compressed]; [done|]. cbn [fst snd andb].
  (* create the bitmap, then the material if needed, then the mesh *)
  set (st3 := createBitmap rid (ud_topic o) compressed st2).
  set (f4 := if Js.undefined (ud_material o2) || negb matEq
             then rebuildMaterial (o2, st3) else (o2, st3)).
  assert (log f4.2 = log st2 ++ (if negb matEq then materialRelease o else []) ∧
          decodes f4.2 = decodes st2 ++ [mkDecode rid (ud_topic o) compressed] ∧
          renderer f4.2 = renderer st2 ∧
          sameIdentity o2 f4.1 ∧ ud_settings f4.1 = ud_settings o2 ∧
          ud_texture f4.1 = ud_texture o2 ∧ ud_geometry f4.1 = ud_geometry o2 ∧
          (matEq = true → ∀ material, ud_material o = Some material →
                                      ud_material f4.1 = Some material))
    as (Hl4 & Hd4 & Hr4 & Hi4 & Hs4 & Ht4 & Hg4 & Hm4).
  { assert (log st3 = log st2 ∧ renderer st3 = renderer st2 ∧
            decodes st3 = decodes st2 ++ [mkDecode rid (ud_topic o) compressed])
      as (Hl3 & Hr3 & Hd3) by (by destruct st2).
    clearbody st3. subst f4.
    destruct (rebuildMaterial_effect o2 st3) as (Hl & Hd & Hr & Hi' & Hs & Ht & Hg).
    assert (materialRelease o2 = materialRelease o) as Hrel
      by (unfold materialRelease; by rewrite Hm2, Hm1).
    destruct (ud_material o2) as [material|] eqn:Hmat;
      destruct matEq; cbn [Js.undefined orb negb fst snd].
    - rewrite app_nil_r. split_and!; try done; try congruence;
        try apply sameIdentity_refl.
    - rewrite Hl, Hrel. split_and!; try done; congruence.
    - assert (materialRelease o = []) as Hnone
        by (rewrite <- Hrel; unfold materialRelease; by rewrite Hmat).
      rewrite Hl, Hrel, Hnone. split_and!; try done; try congruence.
    - rewrite Hl, Hrel. split_and!; try done; congruence. }
  destruct f4 as [o4 st4]. cbn [fst snd] in Hl4, Hd4, Hr4, Hi4, Hs4, Ht4, Hg4, Hm4.
  destruct (tryCreateMesh_effect o4 st4) as (Hl5 & Hd5 & Hr5 & Hi5 & Hs5 & Ht5 & Hm5 & Hg5).
  split_and!; try congruence.
  - eapply sameIdentity_trans; [exact Hi|]. by eapply sameIdentity_trans.
  - rewrite Hl5, Hl4, Hl2, Hl1. by rewrite <- app_assoc.
  - intros Heq material Hmat. rewrite Hm5. by apply Hm4.
Qed.

End UpdateBlocks.

(** ** Every renderable of a history descends from the one created for it *)

Section Slots.
Context `{Externals}.
Variable R : ImageRenderable → ImageRenderable → Prop.
Variable okImage : ImageMessage → Prop.

Hypothesis R_refl : ∀ o, R o o.
Hypothesis R_trans : ∀ o1 o2 o3, R o1 o2 → R o2 o3 → R o1 o3.
Hypothesis R_visible : ∀ o v, R o (set_obj_visible o v).
Hypothesis R_pose : ∀ o v, R o (set_ud_pose o v).
Hypothesis R_selected : ∀ o topic known,
  cameraInfoTopic (ud_settings o) = None →
  R o (set_ud_settings o (autoSelectCameraInfoTopic (ud_settings o) topic known)).
Hypothesis R_update : ∀ rid o image settings st,
  okImage image ∨ image = ud_image o →
  R o (updateBody rid o image settings st).2.1.
Hypothesis R_textured : ∀ o t st,
  ud_texture o = None →
  R o (tryCreateMesh (rebuildMaterial (set_ud_texture o (Some t), st))).1.
Hypothesis R_retextured : ∀ o t bitmap,
  ud_texture o = Some t →
  R o (set_ud_texture o (Some {| tex_id := tex_id t; tex_image := bitmap;
                                 tex_needsUpdate := true |})).

Lemma descends_refl h : descends R okImage h h.
Proof.
  split; [done|]. intros rid o' Ho'. by rewrite Ho'.
Qed.

Lemma descends_trans h1 h2 h3 :
  descends R okImage h1 h2 → descends R okImage h2 h3 → descends R okImage h1 h3.
Proof.
  intros [Hlen12 H12] [Hlen23 H23]. split; [lia|].
  intros rid o3 Ho3. specialize (H23 rid o3 Ho3).
  destruct (h2 !! rid) as [o2|] eqn:Ho2.
  - specialize (H12 rid o2 Ho2).
    destruct (h1 !! rid) as [o1|]; [by eapply R_trans|].
    destruct H12 as (topic & image & us & Hok & Hnew). eauto 8.
  - destruct (h1 !! rid) as [o1|] eqn:Ho1; [|done].
    apply lookup_lt_Some in Ho1. apply lookup_ge_None in Ho2. lia.
Qed.

Lemma descends_insert h rid o o' :
  h !! rid = Some o → R o o' → descends R okImage h (<[rid := o']> h).
Proof.
  intros Ho HR. split; [by rewrite length_insert|].
  intros r o'' Ho''. destruct (decide (r = rid)) as [->|Hne].
  - rewrite list_lookup_insert_eq in Ho'' by by eapply lookup_lt_Some.
    simplify_eq. by rewrite Ho.
  - rewrite list_lookup_insert_ne in Ho'' by done. by rewrite Ho''.
Qed.

Lemma descends_foldl (F : Images → nat → Images) :
  (∀ st rid, descends R okImage (heap st) (heap (F st rid))) →
  ∀ l st, descends R okImage (heap st) (heap (foldl F st l)).
Proof.
  intros HF l. induction l as [|rid l IH]; intros st; simpl.
  - apply descends_refl.
  - eapply descends_trans; [apply HF|apply IH].
Qed.

Lemma update_heap rid image settings st :
  heap (_updateImageRenderable rid image settings st).2 =
    match heap st !! rid with
    | Some o => <[rid := (updateBody rid o image settings st).2.1]> (heap st)
    | None => heap st
    end.
Proof.
  unfold _updateImageRenderable. destruct (heap st !! rid) as [o|]; [|done].
  pose proof (updateBody_heap rid o image settings st) as Hheap.
  destruct (updateBody rid o image settings st) as [c [o' st']]. simpl in *.
  by rewrite Hheap.
Qed.

Lemma update_descends rid image settings st :
  okImage image ∨ ud_image <$> heap st !! rid = Some image →
  descends R okImage (heap st) (heap (_updateImageRenderable rid image settings st).2).
Proof.
  intros Hok. rewrite update_heap. destruct (heap st !! rid) as [o|] eqn:Ho.
  - eapply descends_insert; [done|]. apply R_update.
    destruct Hok as [?|Heq]; [by left|right]. simpl in Heq. congruence.
  - apply descends_refl.
Qed.

Lemma addImageMessage_descends topic image st :
  okImage image →
  descends R okImage (heap st) (heap (addImageMessage topic image st).2).
Proof.
  intros Hok.
  assert (∀ rid settings st,
            descends R okImage (heap st) (heap (_updateImageRenderable rid image settings st).2))
    as update_descends' by (intros; apply update_descends; by left).
  unfold addImageMessage.
  set (userSettings := config_topics (renderer st) !! topic).
  destruct (mapGet (imagesByTopic st) topic) as [rid|].
  - destruct (heap st !! rid) as [o|] eqn:Hrid; [|apply descends_refl].
    destruct (Js.undefined (cameraInfoTopic (ud_settings o))) eqn:Hundef.
    + assert (cameraInfoTopic (ud_settings o) = None) as Hnone
        by by destruct (cameraInfoTopic (ud_settings o)).
      pose proof (R_selected o topic (cameraInfoTopics st) Hnone) as Hsel.
      destruct (cameraInfoTopic (autoSelectCameraInfoTopic _ _ _));
        eapply descends_trans; [| apply update_descends' | | apply update_descends'];
        by eapply descends_insert.
    + eapply descends_trans; [|apply update_descends'].
      by eapply descends_insert.
  - cbn [heap set_imagesByTopic set_children set_heap].
    rewrite lookup_app_r, Nat.sub_diag by done. cbn [lookup list_lookup].
    fold (created topic image userSettings).
    set (o := created topic image userSettings).
    assert (∀ o', R o o' →
              descends R okImage (heap st) (<[length (heap st) := o']> (heap st ++ [o])))
      as Hnew.
    { intros o' HR. split.
      - rewrite length_insert, length_app. lia.
      - intros r o'' Ho''. destruct (decide (r = length (heap st))) as [->|Hne].
        + rewrite list_lookup_insert_eq in Ho''
            by (rewrite length_app; simpl; lia).
          simplify_eq. rewrite (proj2 (lookup_ge_None _ _)) by done.
          by exists topic, image, userSettings.
        + rewrite list_lookup_insert_ne in Ho'' by done.
          pose proof (lookup_lt_Some _ _ _ Ho'') as Hlt.
          rewrite length_app in Hlt. simpl in Hlt.
          rewrite lookup_app_l in Ho'' by lia. rewrite Ho''. apply R_refl. }
    destruct (Js.undefined (cameraInfoTopic (ud_settings o))) eqn:Hundef.
    + assert (cameraInfoTopic (ud_settings o) = None) as Hnone
        by by destruct (cameraInfoTopic (ud_settings o)).
      pose proof (R_selected o topic (cameraInfoTopics st) Hnone) as Hsel.
      destruct (cameraInfoTopic (autoSelectCameraInfoTopic _ _ _));
        eapply descends_trans; [| apply update_descends' | | apply update_descends'];
        by apply Hnew.
    + eapply descends_trans; [|apply update_descends']. apply Hnew, R_refl.
Qed.

Lemma addCameraInfoMessage_descends topic info st :
  descends R okImage (heap st) (heap (addCameraInfoMessage topic info st).2).
Proof.
  unfold addCameraInfoMessage.
  set (st1 := if negb (bool_decide (topic ∈ cameraInfoTopics st)) then _ else st).
  assert (heap st1 = heap st) as Hheap by (subst st1; by case_match).
  assert (imagesByTopic st1 = imagesByTopic st) as -> by (subst st1; by case_match).
  rewrite <- Hheap. clearbody st1.
  destruct (mapGet (imagesByTopic st) topic) as [rid|]; simpl.
  - destruct (heap st1 !! rid) as [o|] eqn:Hrid; simpl.
    + pose proof (update_descends rid (ud_image o) (asPartial (ud_settings o)) st1) as Hup.
      destruct (_updateImageRenderable rid (ud_image o) (asPartial (ud_settings o)) st1)
        as [c st2]. simpl in *.
      assert (descends R okImage (heap st1) (heap st2)) as Hdesc
        by (apply Hup; right; by rewrite Hrid).
      destruct c; simpl; [|done]. by case_match.
    + case_match; apply descends_refl.
  - case_match; apply descends_refl.
Qed.

Lemma setTopicSettings_descends topic settings st :
  descends R okImage (heap st) (heap (setTopicSettings topic settings st).2).
Proof.
  unfold setTopicSettings.
  destruct (mapGet (imagesByTopic st) topic) as [rid|]; [|apply descends_refl].
  destruct (heap st !! rid) as [o|] eqn:Hrid; [|apply descends_refl].
  apply update_descends. right. by rewrite Hrid.
Qed.

Lemma startFrame_descends currentTime st :
  descends R okImage (heap st) (heap (startFrame currentTime st)).
Proof.
  unfold startFrame.
  destruct (renderFrameId (renderer st)) as [rf|]; [|apply descends_refl].
  destruct (fixedFrameId (renderer st)) as [ff|]; [|apply descends_refl].
  change (heap st) with (heap (set_layer_visible st true)).
  apply descends_foldl.
  intros st' rid. rewrite frameRenderable_heap.
  destruct (heap st' !! rid) as [o|] eqn:Hrid; [|apply descends_refl].
  eapply descends_insert; [done|]. unfold framed, updatePose. cbv zeta.
  assert (∀ v, ud_settings (set_obj_visible o v) = ud_settings o) as Hs
    by (by destruct o).
  rewrite Hs.
  destruct (visible (ud_settings o)); [|apply R_visible].
  destruct (transformTree _ _ _ _ _ _); cbn [fst]; [|apply R_visible].
  eapply R_trans; [apply R_visible|apply R_pose].
Qed.

Lemma dispose_descends st :
  (∀ o, R o (released o)) → descends R okImage (heap st) (heap (dispose st)).
Proof.
  intros R_released. unfold dispose. cbn [heap set_imagesByTopic set_children].
  apply descends_foldl.
  intros st' rid. rewrite dispose_heap_step.
  destruct (heap st' !! rid) as [o|] eqn:Hrid; [|apply descends_refl].
  by eapply descends_insert.
Qed.

Lemma settleDecode_descends i outcome st :
  descends R okImage (heap st) (heap (settleDecode i outcome st)).
Proof.
  unfold settleDecode.
  destruct (decodes st !! i) as [d|]; [|apply descends_refl].
  destruct outcome as [bitmap|message]; [|apply descends_refl].
  set (st0 := set_decodes st (delete i (decodes st))).
  change (heap st) with (heap st0). clearbody st0.
  unfold onBitmap.
  destruct (heap st0 !! dec_renderable d) as [o|] eqn:Hrid; [|apply descends_refl].
  destruct (ud_texture o) as [t|] eqn:Ht.
  - simpl. eapply descends_insert; [done|]. by apply R_retextured.
  - set (t := {| tex_id := nextId st0; tex_image := bitmap; tex_needsUpdate := true |}).
    pose proof (R_textured o t (allocate st0) Ht) as HR.
    pose proof (texturing_heap (set_ud_texture o (Some t)) (allocate st0)) as Hheap.
    destruct (tryCreateMesh _) as [o' st']. simpl in *.
    rewrite Hheap. by eapply descends_insert.
Qed.

Lemma step_descends st op :
  opOk okImage op →
  (isDispose op = true → ∀ o, R o (released o)) →
  descends R okImage (heap st) (heap (step st op)).
Proof.
  intros Hok Hdispose. destruct op; simpl.
  - by apply addImageMessage_descends.
  - apply addCameraInfoMessage_descends.
  - apply setTopicSettings_descends.
  - apply startFrame_descends.
  - by apply dispose_descends, Hdispose.
  - apply settleDecode_descends.
  - apply descends_refl.
Qed.

Lemma run_descends ops st :
  Forall (opOk okImage) ops →
  (Exists (λ op, isDispose op = true) ops → ∀ o, R o (released o)) →
  descends R okImage (heap st) (heap (run ops st)).
Proof.
  unfold run. revert st.
  induction ops as [|op ops IH]; intros st Hok Hdispose; simpl.
  - apply descends_refl.
  - apply Forall_cons in Hok as [Hop Hok].
    eapply descends_trans; [apply step_descends|apply IH]; try done.
    + intros Hd. apply Hdispose. by left.
    + intros Hd. apply Hdispose. by right.
Qed.

End Slots.

(** ** What holds of every renderable of every history *)

Section Histories.
Context `{Externals}.

Ltac parts o := destruct o as [? ? ? ? ? ? ? ? [?|] [?|] [?|] [?|]].

Lemma texturing_effect o t st :
  let f := tryCreateMesh (rebuildMaterial (set_ud_texture o (Some t), st)) in
  sameIdentity o f.1 ∧ ud_settings f.1 = ud_settings o ∧
  ud_texture f.1 = Some t ∧ ud_geometry f.1 = ud_geometry o.
Proof.
  cbv zeta.
  destruct (rebuildMaterial_effect (set_ud_texture o (Some t)) st)
    as (_ & _ & _ & Hi1 & Hs1 & Ht1 & Hg1).
  destruct (rebuildMaterial (set_ud_texture o (Some t), st)) as [o1 st1].
  destruct (tryCreateMesh_effect o1 st1) as (_ & _ & _ & Hi2 & Hs2 & Ht2 & _ & Hg2).
  cbn [fst snd] in *.
  assert (sameIdentity o (set_ud_texture o (Some t))) as Hi0 by (by destruct o).
  split_and!.
  - exact (sameIdentity_trans _ _ _ Hi0 (sameIdentity_trans _ _ _ Hi1 Hi2)).
  - rewrite Hs2, Hs1. by destruct o.
  - rewrite Ht2, Ht1. by destruct o.
  - rewrite Hg2, Hg1. by destruct o.
Qed.

Lemma opOk_True ops : Forall (opOk (λ _, True)) ops.
Proof. apply Forall_forall. by intros []. Qed.

(** The case where nothing is asked of the images. *)
Lemma run_descends_any (R : ImageRenderable → ImageRenderable → Prop) :
  (∀ o, R o o) →
  (∀ o1 o2 o3, R o1 o2 → R o2 o3 → R o1 o3) →
  (∀ o v, R o (set_obj_visible o v)) →
  (∀ o v, R o (set_ud_pose o v)) →
  (∀ o topic known,
     cameraInfoTopic (ud_settings o) = None →
     R o (set_ud_settings o (autoSelectCameraInfoTopic (ud_settings o) topic known))) →
  (∀ rid o image settings st, R o (updateBody rid o image settings st).2.1) →
  (∀ o, R o (released o)) →
  (∀ o t st,
     ud_texture o = None →
     R o (tryCreateMesh (rebuildMaterial (set_ud_texture o (Some t), st))).1) →
  (∀ o t bitmap,
     ud_texture o = Some t →
     R o (set_ud_texture o (Some {| tex_id := tex_id t; tex_image := bitmap;
                                    tex_needsUpdate := true |}))) →
  ∀ ops st, descends R (λ _, True) (heap st) (heap (run ops st)).
Proof.
  intros ?????? Hreleased ?? ops st.
  apply (run_descends R (λ _, True)); auto using opOk_True.
Qed.

Lemma run_sameIdentity ops st :
  descends sameIdentity (λ _, True) (heap st) (heap (run ops st)).
Proof.
  apply run_descends_any.
  - apply sameIdentity_refl.
  - apply sameIdentity_trans.
  - by intros [].
  - by intros [].
  - by intros [].
  - intros. apply updateBody_effect.
  - by intros [].
  - intros. apply texturing_effect.
  - by intros [].
Qed.

Lemma run_keeps_place ops st rid o :
  heap st !! rid = Some o →
  ∃ o', heap (run ops st) !! rid = Some o' ∧ sameIdentity o o'.
Proof.
  intros Ho. destruct (run_sameIdentity ops st) as [Hlen Hrel].
  destruct (lookup_lt_is_Some_2 (heap (run ops st)) rid) as [o' Ho'].
  { apply lookup_lt_Some in Ho. lia. }
  exists o'. split; [done|]. specialize (Hrel rid o' Ho'). by rewrite Ho in Hrel.
Qed.

(** X5. No operation ever rewrites what a renderable was created from: in
    any history, a renderable stays in its place and keeps its name, its
    topic, its stored image and its source time. *)
Theorem identity_never_changes (ops : list Op) (st : Images) (rid : nat)
    (o : ImageRenderable) :
  heap st !! rid = Some o →
  ∃ o', heap (run ops st) !! rid = Some o' ∧ sameIdentity o o'.
Proof. apply run_keeps_place. Qed.

(** X6. In any history of a fresh layer every renderable is named after
    its topic, and its source time is the stamp of the image it stores,
    which is the first image of the topic. *)
Theorem renderables_stay_labelled (ops : list Op) (rd : Renderer) :
  Forall labelled (heap (run ops (initial rd))).
Proof.
  apply Forall_lookup. intros rid o' Ho'.
  destruct (run_sameIdentity ops (initial rd)) as [_ Hrel].
  specialize (Hrel rid o' Ho'). simpl in Hrel.
  destruct Hrel as (topic & image & us & _ & Hn & Ht & Hi & Hs).
  unfold labelled. rewrite Hn, Ht, Hi, Hs. done.
Qed.

(** *** Wiring of mesh, material and texture *)

Lemma wired_disposeGeometry f : wired f.1 → wired (disposeGeometry f).1.
Proof.
  destruct f as [o st]. unfold wired, disposeGeometry, detachMesh.
  parts o; simpl; intuition congruence.
Qed.

Lemma wired_createGeometryIfNeeded settings f :
  wired f.1 → wired (createGeometryIfNeeded settings f).1.
Proof.
  destruct f as [o st]. unfold wired, createGeometryIfNeeded, detachMesh.
  parts o; simpl; repeat case_match; simplify_eq/=; intuition congruence.
Qed.

Lemma wired_rebuildMaterial f : wired f.1 → wired (rebuildMaterial f).1.
Proof.
  destruct f as [o st]. unfold wired, rebuildMaterial, detachMesh.
  parts o; simpl; intuition congruence.
Qed.

Lemma wired_tryCreateMesh f : wired f.1 → wired (tryCreateMesh f).1.
Proof.
  destruct f as [o st]. unfold wired, tryCreateMesh.
  parts o; simpl; intuition congruence.
Qed.

(** X7. In any history of a fresh layer, a mesh pairs the geometry and the
    material its renderable holds at that moment, and a material samples
    the texture the renderable holds at that moment. *)
Theorem mesh_pairs_current_resources (ops : list Op) (rd : Renderer) :
  Forall wired (heap (run ops (initial rd))).
Proof.
  apply Forall_lookup. intros rid o' Ho'.
  assert (descends (passes wired) (λ _, True) (heap (initial rd)) (heap (run ops (initial rd))))
    as [_ Hrel].
  { apply run_descends_any; unfold passes.
    - done.
    - auto.
    - intros o v. unfold wired. by parts o.
    - intros o v. unfold wired. by parts o.
    - intros o topic known _. unfold wired. by parts o.
    - intros r o image settings st Ho.
      apply (updateBody_stages (λ f, wired f.1)).
      + revert Ho. unfold wired. by parts o.
      + apply wired_disposeGeometry.
      + apply wired_createGeometryIfNeeded.
      + done.
      + apply wired_rebuildMaterial.
      + apply wired_tryCreateMesh.
    - intros o _. unfold wired. by parts o.
    - intros o t st Ht Ho. apply wired_tryCreateMesh.
      revert Ht Ho. unfold wired, rebuildMaterial, detachMesh.
      parts o; simpl; intuition congruence.
    - intros o t bitmap Ht. unfold wired. parts o; simpl in *; simplify_eq; done. }
  specialize (Hrel rid o' Ho'). simpl in Hrel.
  destruct Hrel as (topic & image & us & Hok & Hnew). apply Hnew. by split.
Qed.

(** *** Geometry and the selected camera-info topic *)

(** X8. In any history of a fresh layer, a renderable that holds a
    geometry has a camera-info topic selected in its settings. *)
Theorem geometry_only_with_camera_info_topic (ops : list Op) (rd : Renderer) :
  Forall calibrated (heap (run ops (initial rd))).
Proof.
  apply Forall_lookup. intros rid o' Ho'.
  assert (descends (passes calibrated) (λ _, True) (heap (initial rd))
            (heap (run ops (initial rd)))) as [_ Hrel].
  { apply run_descends_any; unfold passes.
    - done.
    - auto.
    - intros o v. unfold calibrated. by parts o.
    - intros o v. unfold calibrated. by parts o.
    - intros o topic known Hnone Ho. unfold calibrated in *.
      assert (ud_geometry (set_ud_settings o
                (autoSelectCameraInfoTopic (ud_settings o) topic known))
              = ud_geometry o) as -> by (by destruct o).
      intros Hgeo. by destruct (Ho Hgeo).
    - intros r o image settings st Ho.
      destruct (updateBody_effect r o image settings st)
        as (_ & Hs & _ & _ & _ & _ & _ & Hg & _).
      unfold calibrated in *. rewrite Hs, Hg. unfold geometryAfter, geometrySettingsEqual.
      destruct (bool_decide (cameraInfoTopic (spread (ud_settings o) settings)
                             = cameraInfoTopic (ud_settings o))) eqn:Heq.
      + apply bool_decide_eq_true_1 in Heq. rewrite Heq.
        destruct (_ =? _)%float; cbn [andb];
          [destruct (ud_geometry o) as [geometry|]; [intros _; by apply Ho|]|];
          rewrite <- Heq; unfold spread; simpl;
          destruct (p_cameraInfoTopic settings) as [[c|]|]; simpl; done.
      + cbn [andb]. unfold spread; simpl.
        destruct (p_cameraInfoTopic settings) as [[c|]|]; simpl; done.
    - intros o _. unfold calibrated. by parts o.
    - intros o t st Ht Ho. unfold calibrated in *.
      destruct (texturing_effect o t st) as (_ & Hs & _ & Hg).
      by rewrite Hs, Hg.
    - intros o t bitmap Ht. unfold calibrated. by parts o. }
  specialize (Hrel rid o' Ho'). simpl in Hrel.
  destruct Hrel as (topic & image & us & Hok & Hnew). apply Hnew. by intros ?.
Qed.

End Histories.

(** ** The layer around the renderables *)

Section Registry.
Context `{Externals}.

Lemma mapGet_None m topic : mapGet m topic = None ↔ topic ∉ m.*1.
Proof.
  unfold mapGet. induction m as [|[k v] m IH]; simpl.
  - split; [intros _; apply not_elem_of_nil|done].
  - rewrite not_elem_of_cons. case_bool_decide; simpl in *.
    + split; [done|]. intros [? _]. congruence.
    + rewrite IH. intuition congruence.
Qed.

Lemma mapGet_Some m topic rid : mapGet m topic = Some rid → (topic, rid) ∈ m.
Proof.
  unfold mapGet. induction m as [|[k v] m IH]; simpl; [done|].
  case_bool_decide; simpl in *.
  - intros [= <-]. subst. left.
  - intros Hm. right. by apply IH.
Qed.

Lemma mapGet_app_new m topic rid :
  mapGet m topic = None → mapGet (m ++ [(topic, rid)]) topic = Some rid.
Proof.
  unfold mapGet. induction m as [|[k v] m IH]; simpl.
  - by rewrite bool_decide_eq_true_2.
  - case_bool_decide; simpl; [done|]. apply IH.
Qed.

Lemma addImageMessage_known topic image st rid o :
  mapGet (imagesByTopic st) topic = Some rid → heap st !! rid = Some o →
  addImageMessage topic image st =
    _updateImageRenderable rid image
      (asPartial (ud_settings (autoSelected topic (o, st)).1))
      (store rid (autoSelected topic (o, st)).1 (autoSelected topic (o, st)).2).
Proof.
  intros Hget Ho. unfold addImageMessage, autoSelected. rewrite Hget, Ho.
  destruct (Js.undefined _); [|done].
  by destruct (cameraInfoTopic (autoSelectCameraInfoTopic _ _ _)).
Qed.

Lemma addImageMessage_fresh topic image st :
  mapGet (imagesByTopic st) topic = None →
  addImageMessage topic image st = addImageMessage topic image (registered topic image st) ∧
  mapGet (imagesByTopic (registered topic image st)) topic = Some (length (heap st)) ∧
  heap (registered topic image st) !! length (heap st)
    = Some (created topic image (config_topics (renderer st) !! topic)).
Proof.
  intros Hget.
  assert (mapGet (imagesByTopic (registered topic image st)) topic
          = Some (length (heap st))) as Hget' by by apply mapGet_app_new.
  split; [|split; [done|]].
  - unfold addImageMessage at 2. rewrite Hget'.
    unfold addImageMessage. rewrite Hget. reflexivity.
  - unfold registered. cbn [heap set_imagesByTopic set_children set_heap].
    by rewrite lookup_app_r, Nat.sub_diag.
Qed.

Lemma autoSelected_effect topic o st :
  let f := autoSelected topic (o, st) in
  heap f.2 = heap st ∧ imagesByTopic f.2 = imagesByTopic st ∧
  children f.2 = children st ∧ cameraInfoTopics f.2 = cameraInfoTopics st ∧
  decodes f.2 = decodes st ∧ layer_visible f.2 = layer_visible st ∧
  sameIdentity o f.1 ∧
  match cameraInfoTopic (ud_settings o),
        head (Js.sort (candidatesFor topic (cameraInfoTopics st))) with
  | None, Some selected =>
      f.1 = set_ud_settings o (set_cameraInfoTopic (ud_settings o) (Some selected)) ∧
      renderer f.2 =
        set_config_topics (renderer st)
          (<[topic := set_p_cameraInfoTopic
                        (default noSettings (config_topics (renderer st) !! topic))
                        (Some selected)]> (config_topics (renderer st))) ∧
      log f.2 = log st ++ [Emit ["topics"; topic]]
  | _, _ => f = (o, st)
  end.
Proof.
  unfold autoSelected, autoSelectCameraInfoTopic. cbv zeta.
  destruct (cameraInfoTopic (ud_settings o)) as [c|] eqn:Hc; cbn [Js.undefined].
  - by split_and!.
  - cbn [cameraInfoTopic set_cameraInfoTopic].
    destruct (head _) as [selected|]; cbn [fst snd].
    + by split_and!.
    + split_and!; try done.
      f_equal. destruct o as [? ? ? ? [] ? ? ? ? ? ? ?]. simpl in *. by subst.
Qed.

Lemma update_frame rid image settings st :
  let st' := (_updateImageRenderable rid image settings st).2 in
  renderer st' = renderer st ∧ imagesByTopic st' = imagesByTopic st ∧
  children st' = children st ∧ cameraInfoTopics st' = cameraInfoTopics st ∧
  layer_visible st' = layer_visible st.
Proof.
  unfold _updateImageRenderable. destruct (heap st !! rid) as [o|]; [|done].
  pose proof (updateBody_layer rid o image settings st) as Hlayer.
  destruct (updateBody rid o image settings st) as [c [o' st']].
  unfold sameLayer in Hlayer. simpl in *. intuition.
Qed.

Lemma update_outcome rid image settings st o :
  heap st !! rid = Some o →
  let result := _updateImageRenderable rid image settings st in
  let body := updateBody rid o image settings st in
  result.1 = body.1 ∧ heap result.2 = <[rid := body.2.1]> (heap st) ∧
  decodes result.2 = decodes body.2.2 ∧ log result.2 = log body.2.2.
Proof.
  intros Ho. unfold _updateImageRenderable. rewrite Ho.
  pose proof (updateBody_heap rid o image settings st) as Hheap.
  destruct (updateBody rid o image settings st) as [c [o' st']]. simpl in *.
  by rewrite Hheap.
Qed.

End Registry.

Section Frames.
Context `{Externals}.

Lemma foldl_field {A} (g : Images → A) (F : Images → nat → Images) :
  (∀ st rid, g (F st rid) = g st) → ∀ l st, g (foldl F st l) = g st.
Proof.
  intros HF l. induction l as [|rid l IH]; intros st; simpl; [done|].
  by rewrite IH, HF.
Qed.

Lemma frameRenderable_frame rf ff t st rid :
  let st' := frameRenderable rf ff t st rid in
  renderer st' = renderer st ∧ imagesByTopic st' = imagesByTopic st ∧
  children st' = children st ∧ cameraInfoTopics st' = cameraInfoTopics st ∧
  decodes st' = decodes st ∧ nextId st' = nextId st ∧
  layer_visible st' = layer_visible st.
Proof.
  unfold frameRenderable, updatePose.
  destruct (heap st !! rid) as [o|]; [|done].
  destruct (negb _); [done|].
  by destruct (transformTree _ _ _ _ _ _).
Qed.

Lemma startFrame_frame t st :
  let st' := startFrame t st in
  renderer st' = renderer st ∧ imagesByTopic st' = imagesByTopic st ∧
  children st' = children st ∧ cameraInfoTopics st' = cameraInfoTopics st ∧
  decodes st' = decodes st ∧ nextId st' = nextId st.
Proof.
  unfold startFrame.
  destruct (renderFrameId (renderer st)) as [rf|]; [|done].
  destruct (fixedFrameId (renderer st)) as [ff|]; [|done].
  cbv zeta.
  split_and!; rewrite (foldl_field _ (frameRenderable rf ff t));
    try done; intros st' rid; apply frameRenderable_frame.
Qed.

Lemma dispose_frame st :
  let st' := dispose st in
  renderer st' = renderer st ∧ imagesByTopic st' = [] ∧ children st' = [] ∧
  cameraInfoTopics st' = cameraInfoTopics st ∧ decodes st' = decodes st ∧
  nextId st' = nextId st ∧ layer_visible st' = layer_visible st.
Proof.
  unfold dispose. cbv zeta.
  cbn [renderer imagesByTopic children cameraInfoTopics decodes nextId layer_visible
       set_imagesByTopic set_children].
  split_and!; try done;
    match goal with
    | |- ?g (foldl ?F _ _) = _ => rewrite (foldl_field g F); [done|]
    end;
    intros st' rid; destruct (heap st' !! rid) as [o|]; try done;
    by destruct (ud_texture o), (ud_material o), (ud_geometry o).
Qed.

Lemma texturing_frame o st :
  let f := tryCreateMesh (rebuildMaterial (o, st)) in
  renderer f.2 = renderer st ∧ imagesByTopic f.2 = imagesByTopic st ∧
  children f.2 = children st ∧ cameraInfoTopics f.2 = cameraInfoTopics st ∧
  decodes f.2 = decodes st ∧ layer_visible f.2 = layer_visible st.
Proof.
  cbv zeta.
  destruct (rebuildMaterial_layer (o, st)) as (Hr1 & Hm1 & Hc1 & Hch1 & Hv1 & _).
  destruct (rebuildMaterial_effect o st) as (_ & Hd1 & _).
  destruct (rebuildMaterial (o, st)) as [o1 st1].
  destruct (tryCreateMesh_layer (o1, st1)) as (Hr2 & Hm2 & Hc2 & Hch2 & Hv2 & _).
  destruct (tryCreateMesh_effect o1 st1) as (_ & Hd2 & _).
  cbn [fst snd] in *. split_and!; congruence.
Qed.

Lemma settleDecode_frame i outcome st :
  let st' := settleDecode i outcome st in
  renderer st' = renderer st ∧ imagesByTopic st' = imagesByTopic st ∧
  children st' = children st ∧ cameraInfoTopics st' = cameraInfoTopics st ∧
  layer_visible st' = layer_visible st ∧
  decodes st' = (if decodes st !! i is Some _ then delete i (decodes st) else decodes st).
Proof.
  unfold settleDecode. destruct (decodes st !! i) as [d|]; [|done].
  destruct outcome as [bitmap|message]; [|done].
  set (st0 := set_decodes st (delete i (decodes st))).
  change (delete i (decodes st)) with (decodes st0).
  change (renderer st) with (renderer st0).
  change (imagesByTopic st) with (imagesByTopic st0).
  change (children st) with (children st0).
  change (cameraInfoTopics st) with (cameraInfoTopics st0).
  change (layer_visible st) with (layer_visible st0).
  clearbody st0. unfold onBitmap.
  destruct (heap st0 !! dec_renderable d) as [o|]; [|done].
  destruct (ud_texture o) as [t|]; [done|].
  set (t := {| tex_id := nextId st0; tex_image := bitmap; tex_needsUpdate := true |}).
  destruct (texturing_frame (set_ud_texture o (Some t)) (allocate st0))
    as (?&?&?&?&?&?).
  destruct (tryCreateMesh _) as [o' st']. simpl in *. by split_and!.
Qed.

Lemma setTopicSettings_frame topic settings st :
  let st' := (setTopicSettings topic settings st).2 in
  renderer st' = renderer st ∧ imagesByTopic st' = imagesByTopic st ∧
  children st' = children st ∧ cameraInfoTopics st' = cameraInfoTopics st ∧
  layer_visible st' = layer_visible st.
Proof.
  unfold setTopicSettings.
  destruct (mapGet (imagesByTopic st) topic) as [rid|]; [|done].
  destruct (heap st !! rid) as [o|]; [|done].
  apply update_frame.
Qed.

Lemma addCameraInfoMessage_frame topic info st :
  let st' := (addCameraInfoMessage topic info st).2 in
  renderer st' = renderer st ∧ imagesByTopic st' = imagesByTopic st ∧
  children st' = children st ∧ layer_visible st' = layer_visible st ∧
  cameraInfoTopics st' =
    (if bool_decide (topic ∈ cameraInfoTopics st) then cameraInfoTopics st
     else cameraInfoTopics st ++ [topic]).
Proof.
  unfold addCameraInfoMessage.
  set (st1 := if negb (bool_decide (topic ∈ cameraInfoTopics st)) then _ else st).
  assert (renderer st1 = renderer st ∧ imagesByTopic st1 = imagesByTopic st ∧
          children st1 = children st ∧ layer_visible st1 = layer_visible st ∧
          cameraInfoTopics st1 =
            (if bool_decide (topic ∈ cameraInfoTopics st) then cameraInfoTopics st
             else cameraInfoTopics st ++ [topic])) as (Hr & Hm & Hch & Hv & Hc)
    by (subst st1; by case_bool_decide).
  rewrite <- Hr, <- Hm, <- Hch, <- Hv, <- Hc. clearbody st1.
  set (updated := negb _). clearbody updated.
  assert (∀ r : Completion * Images,
            (renderer r.2 = renderer st1 ∧ imagesByTopic r.2 = imagesByTopic st1 ∧
             children r.2 = children st1 ∧ cameraInfoTopics r.2 = cameraInfoTopics st1 ∧
             layer_visible r.2 = layer_visible st1) →
            let st' := (let '(c, st2) := r in
                        match c with
                        | Normal => (Normal, if updated then emit (Emit ["topics"]) st2 else st2)
                        | Throw _ => (c, st2)
                        end).2 in
            renderer st' = renderer st1 ∧ imagesByTopic st' = imagesByTopic st1 ∧
            children st' = children st1 ∧ layer_visible st' = layer_visible st1 ∧
            cameraInfoTopics st' = cameraInfoTopics st1) as Hend.
  { intros [[] st2]; simpl; destruct updated; simpl; intuition. }
  destruct (mapGet (imagesByTopic st1) topic) as [rid|];
    [|by apply (Hend (Normal, st1))].
  destruct (heap st1 !! rid) as [o|]; [|by apply (Hend (Normal, st1))].
  apply (Hend (_updateImageRenderable rid (ud_image o) (asPartial (ud_settings o)) st1)).
  destruct (update_frame rid (ud_image o) (asPartial (ud_settings o)) st1)
    as (?&?&?&?&?).
  by split_and!.
Qed.

Lemma addImageMessage_frame topic image st :
  let st' := (addImageMessage topic image st).2 in
  cameraInfoTopics st' = cameraInfoTopics st ∧ layer_visible st' = layer_visible st ∧
  (mapGet (imagesByTopic st) topic ≠ None →
   imagesByTopic st' = imagesByTopic st ∧ children st' = children st) ∧
  (mapGet (imagesByTopic st) topic = None →
   imagesByTopic st' = imagesByTopic st ++ [(topic, length (heap st))] ∧
   children st' = children st ++ [length (heap st)]).
Proof.
  assert (∀ st rid o, mapGet (imagesByTopic st) topic = Some rid →
            heap st !! rid = Some o →
            let st' := (addImageMessage topic image st).2 in
            cameraInfoTopics st' = cameraInfoTopics st ∧
            layer_visible st' = layer_visible st ∧
            imagesByTopic st' = imagesByTopic st ∧ children st' = children st)
    as Hknown.
  { clear st. intros st rid o Hget Ho. rewrite (addImageMessage_known _ _ _ _ _ Hget Ho).
    destruct (autoSelected_effect topic o st) as (Hh & Hm & Hch & Hc & Hd & Hv & _).
    destruct (autoSelected topic (o, st)) as [o1 st1]. cbn [fst snd] in *.
    destruct (update_frame rid image (asPartial (ud_settings o1)) (store rid o1 st1))
      as (_ & Hm2 & Hch2 & Hc2 & Hv2).
    cbv zeta. rewrite Hm2, Hch2, Hc2, Hv2. simpl. by split_and!. }
  destruct (mapGet (imagesByTopic st) topic) as [rid|] eqn:Hget.
  - destruct (heap st !! rid) as [o|] eqn:Ho.
    + destruct (Hknown st rid o Hget Ho) as (?&?&?&?). by split_and!.
    + unfold addImageMessage. rewrite Hget, Ho. by split_and!.
  - destruct (addImageMessage_fresh topic image st Hget) as (-> & Hget' & Ho').
    destruct (Hknown _ _ _ Hget' Ho') as (Hc & Hv & Hm & Hch).
    cbv zeta. rewrite Hc, Hv, Hm, Hch. by split_and!.
Qed.

End Frames.

Section LayerHistories.
Context `{Externals}.

Lemma step_cameraInfoTopics st op :
  cameraInfoTopics (step st op) =
    match op with
    | AddCameraInfoMessage topic _ =>
        if bool_decide (topic ∈ cameraInfoTopics st) then cameraInfoTopics st
        else cameraInfoTopics st ++ [topic]
    | _ => cameraInfoTopics st
    end.
Proof.
  destruct op; simpl.
  - apply addImageMessage_frame.
  - apply addCameraInfoMessage_frame.
  - apply setTopicSettings_frame.
  - apply startFrame_frame.
  - apply dispose_frame.
  - apply settleDecode_frame.
  - done.
Qed.

(** X9. The set of known camera-info topics only grows, by the topics of
    the camera-info messages received, each entering once, in the order
    of first arrival: no operation, [dispose] included, removes one. *)
Theorem cameraInfoTopics_accumulate (ops : list Op) (st : Images) :
  cameraInfoTopics st `prefix_of` cameraInfoTopics (run ops st) ∧
  (∀ topic, topic ∈ cameraInfoTopics (run ops st) ↔
            topic ∈ cameraInfoTopics st ∨
            ∃ info, AddCameraInfoMessage topic info ∈ ops) ∧
  (NoDup (cameraInfoTopics st) → NoDup (cameraInfoTopics (run ops st))).
Proof.
  unfold run. revert st. induction ops as [|op ops IH]; intros st; simpl.
  - split_and!; [done| |done]. intros topic. split; [by left|].
    intros [?|[info Hin]]; [done|]. by apply elem_of_nil in Hin.
  - destruct (IH (step st op)) as (Hpre & Hmem & Hnodup).
    pose proof (step_cameraInfoTopics st op) as Hstep.
    assert (cameraInfoTopics st `prefix_of` cameraInfoTopics (step st op)) as Hpre1.
    { rewrite Hstep. destruct op; try done.
      case_bool_decide; [done|]. by apply prefix_app_r. }
    split_and!.
    + by etrans.
    + intros t. rewrite Hmem, Hstep. setoid_rewrite elem_of_cons.
      destruct op; try (split; [intros [?|[info ?]]; eauto|
                                intros [?|[info [?|?]]]; eauto; done]).
      case_bool_decide as Hin.
      * split; [intros [?|[info ?]]; eauto|].
        intros [?|[info [?|?]]]; eauto. simplify_eq. by left.
      * rewrite elem_of_app, list_elem_of_singleton.
        split; [intros [[?|?]|[info ?]]; subst; eauto|].
        intros [?|[info [?|?]]]; eauto. simplify_eq. left. by right.
    + intros Hnd. apply Hnodup. rewrite Hstep. destruct op; try done.
      case_bool_decide as Hin; [done|].
      apply NoDup_app. split_and!; [done| |apply NoDup_singleton].
      intros t Ht Hs. apply list_elem_of_singleton in Hs. by subst.
Qed.

(** *** The topic map *)

Lemma step_sameIdentity st op rid o :
  heap st !! rid = Some o →
  ∃ o', heap (step st op) !! rid = Some o' ∧ sameIdentity o o'.
Proof. intros Ho. by apply (run_keeps_place [op]). Qed.

Lemma wellFormed_frame st st' :
  imagesByTopic st' = imagesByTopic st → children st' = children st →
  (∀ rid o, heap st !! rid = Some o →
            ∃ o', heap st' !! rid = Some o' ∧ sameIdentity o o') →
  wellFormed st → wellFormed st'.
Proof.
  intros Hm Hch Hheap (Hk & Hr & Hc & He). unfold wellFormed.
  rewrite Hm, Hch. split_and!; try done.
  intros topic rid Hin. destruct (He topic rid Hin) as (o & Ho & Ht).
  destruct (Hheap rid o Ho) as (o' & Ho' & _ & Ht' & _). exists o'. split; congruence.
Qed.

Lemma wellFormed_registered topic image st :
  mapGet (imagesByTopic st) topic = None →
  wellFormed st → wellFormed (registered topic image st).
Proof.
  intros Hget (Hk & Hr & Hc & He). unfold wellFormed, registered.
  cbn [imagesByTopic children heap set_imagesByTopic set_children set_heap].
  rewrite !fmap_app. cbn [fmap list_fmap fst snd].
  split_and!.
  - apply NoDup_app. split_and!; [done| |apply NoDup_singleton].
    intros t Ht Hs. apply list_elem_of_singleton in Hs. subst.
    by apply mapGet_None in Hget.
  - apply NoDup_app. split_and!; [done| |apply NoDup_singleton].
    intros r Hin Hs. apply list_elem_of_singleton in Hs. subst.
    apply list_elem_of_fmap in Hin as ([t r] & Heq & Hin).
    destruct (He t r Hin) as (o & Ho & _). apply lookup_lt_Some in Ho. simpl in *. lia.
  - by rewrite Hc.
  - intros t r Hin. apply elem_of_app in Hin as [Hin|Hin].
    + destruct (He t r Hin) as (o & Ho & Ht). exists o. split; [|done].
      by apply lookup_app_l_Some.
    + apply list_elem_of_singleton in Hin. simplify_eq.
      eexists. split; [by rewrite lookup_app_r, Nat.sub_diag by done|done].
Qed.

Lemma step_wellFormed st op : wellFormed st → wellFormed (step st op).
Proof.
  intros Hwf.
  assert (∀ st, imagesByTopic (step st op) = imagesByTopic st →
                children (step st op) = children st →
                wellFormed st → wellFormed (step st op)) as Hframe.
  { intros st0 Hm Hch. apply wellFormed_frame; [done..|].
    intros rid o. apply step_sameIdentity. }
  destruct op as [topic image|topic info|topic settings|t| |i outcome|rd].
  - destruct (mapGet (imagesByTopic st) topic) as [rid|] eqn:Hget.
    + destruct (addImageMessage_frame topic image st) as (_ & _ & Hknown & _).
      destruct Hknown as [Hm Hch]; [by rewrite Hget|]. by apply Hframe.
    + destruct (addImageMessage_fresh topic image st Hget) as (Heq & Hget' & _).
      simpl. rewrite Heq.
      destruct (addImageMessage_frame topic image (registered topic image st))
        as (_ & _ & Hknown & _).
      destruct Hknown as [Hm Hch]; [by rewrite Hget'|].
      apply (Hframe (registered topic image st)); [done..|].
      by apply wellFormed_registered.
  - destruct (addCameraInfoMessage_frame topic info st) as (_ & ? & ? & _).
    by apply Hframe.
  - destruct (setTopicSettings_frame topic settings st) as (_ & ? & ? & _).
    by apply Hframe.
  - destruct (startFrame_frame t st) as (_ & ? & ? & _). by apply Hframe.
  - destruct (dispose_frame st) as (_ & Hm & Hch & _). unfold wellFormed.
    cbn [step]. rewrite Hm, Hch. split_and!; try done; try apply NoDup_nil_2.
    intros ?? Hin. by apply elem_of_nil in Hin.
  - destruct (settleDecode_frame i outcome st) as (_ & ? & ? & _). by apply Hframe.
  - by apply Hframe.
Qed.

Lemma run_wellFormed ops rd : wellFormed (run ops (initial rd)).
Proof.
  unfold run. assert (wellFormed (initial rd)) as Hinit.
  { unfold wellFormed. simpl. split_and!; try done; try apply NoDup_nil_2.
    intros ?? Hin. by apply elem_of_nil in Hin. }
  revert Hinit. generalize (initial rd).
  induction ops as [|op ops IH]; intros st Hwf; simpl; [done|].
  by apply IH, step_wellFormed.
Qed.

(** X10. In any history of a fresh layer the topic map names each topic
    once and each renderable once, the layer's children are the renderables
    of the map in the order of the map, and the entry of a topic leads to a
    renderable of that topic. *)
Theorem topic_map_stays_well_formed (ops : list Op) (rd : Renderer) :
  wellFormed (run ops (initial rd)).
Proof. apply run_wellFormed. Qed.

End LayerHistories.

Section DecodesInFlight.
Context `{Externals}.

Lemma addCameraInfoMessage_stages topic info st :
  addCameraInfoMessage topic info st =
    let updated := negb (bool_decide (topic ∈ cameraInfoTopics st)) in
    let r := refreshed topic (recorded topic st) in
    match r.1 with
    | Normal => (Normal, if updated then emit (Emit ["topics"]) r.2 else r.2)
    | Throw _ => r
    end.
Proof.
  unfold addCameraInfoMessage, refreshed, recorded. cbv zeta.
  set (st1 := if negb _ then _ else st). clearbody st1.
  destruct (mapGet (imagesByTopic st1) topic) as [rid|]; [|done].
  destruct (heap st1 !! rid) as [o|]; [|done].
  by destruct (_updateImageRenderable _ _ _ _) as [[] st2].
Qed.

Lemma update_decodes_in rid image settings st d :
  d ∈ decodes (_updateImageRenderable rid image settings st).2 →
  d ∈ decodes st ∨
  ∃ o', heap (_updateImageRenderable rid image settings st).2 !! dec_renderable d
          = Some o' ∧ ud_topic o' = dec_topic d.
Proof.
  destruct (heap st !! rid) as [o|] eqn:Ho.
  - destruct (update_outcome rid image settings st o Ho) as (_ & Hheap & Hdec & _).
    destruct (updateBody_effect rid o image settings st)
      as ((_ & Ht & _) & _ & _ & _ & _ & Hd & _).
    rewrite Hdec, Hd, Hheap. clear Hdec Hd Hheap.
    intros Hin. apply elem_of_app in Hin as [Hin|Hin]; [by left|]. right.
    destruct image as [raw|compressed]; [by apply elem_of_nil in Hin|].
    destruct (Js.truthy _); [|by apply elem_of_nil in Hin].
    apply list_elem_of_singleton in Hin. subst d. simpl.
    eexists. split; [apply list_lookup_insert_eq; by eapply lookup_lt_Some|done].
  - unfold _updateImageRenderable. rewrite Ho. by left.
Qed.

Lemma step_decodes_in st op d :
  d ∈ decodes (step st op) →
  d ∈ decodes st ∨
  ∃ o', heap (step st op) !! dec_renderable d = Some o' ∧ ud_topic o' = dec_topic d.
Proof.
  destruct op as [topic image|topic info|topic settings|t| |i outcome|rd];
    cbn [step].
  - assert (∀ st rid o, mapGet (imagesByTopic st) topic = Some rid →
              heap st !! rid = Some o →
              d ∈ decodes (addImageMessage topic image st).2 →
              d ∈ decodes st ∨
              ∃ o', heap (addImageMessage topic image st).2 !! dec_renderable d
                      = Some o' ∧ ud_topic o' = dec_topic d) as Hknown.
    { clear st. intros st rid o Hget Ho.
      rewrite (addImageMessage_known _ _ _ _ _ Hget Ho).
      destruct (autoSelected_effect topic o st) as (_ & _ & _ & _ & Hd & _).
      destruct (autoSelected topic (o, st)) as [o1 st1]. cbn [fst snd] in *.
      intros Hin. apply update_decodes_in in Hin as [Hin|Hin]; [left|by right].
      simpl in Hin. by rewrite <- Hd. }
    destruct (mapGet (imagesByTopic st) topic) as [rid|] eqn:Hget.
    + destruct (heap st !! rid) as [o|] eqn:Ho; [by eapply Hknown|].
      unfold addImageMessage. rewrite Hget, Ho. by left.
    + destruct (addImageMessage_fresh topic image st Hget) as (-> & Hget' & Ho').
      apply (Hknown _ _ _ Hget' Ho').
  - rewrite addCameraInfoMessage_stages. cbv zeta.
    assert (decodes (recorded topic st) = decodes st) as Hd
      by (unfold recorded; by case_match).
    rewrite <- Hd. set (updated := negb _). clearbody updated.
    generalize (recorded topic st). clear st Hd. intros st.
    assert (d ∈ decodes (refreshed topic st).2 →
            d ∈ decodes st ∨
            ∃ o', heap (refreshed topic st).2 !! dec_renderable d = Some o'
                  ∧ ud_topic o' = dec_topic d) as Href.
    { unfold refreshed.
      destruct (mapGet (imagesByTopic st) topic) as [rid|]; [|by left].
      destruct (heap st !! rid) as [o|]; [|by left].
      apply update_decodes_in. }
    destruct (refreshed topic st) as [[] st2]; cbn [fst snd] in *; [|done].
    by case_match.
  - unfold setTopicSettings.
    destruct (mapGet (imagesByTopic st) topic) as [rid|]; [|by left].
    destruct (heap st !! rid) as [o|]; [|by left].
    apply update_decodes_in.
  - destruct (startFrame_frame t st) as (_ & _ & _ & _ & -> & _). by left.
  - destruct (dispose_frame st) as (_ & _ & _ & _ & -> & _). by left.
  - destruct (settleDecode_frame i outcome st) as (_ & _ & _ & _ & _ & ->).
    intros Hin. left. destruct (decodes st !! i); [|done].
    by eapply list_elem_of_delete_inv.
  - by left.
Qed.

Lemma step_targetsLive st op : targetsLive st → targetsLive (step st op).
Proof.
  intros Hlive d Hin. apply step_decodes_in in Hin as [Hin|Hin]; [|done].
  destruct (Hlive d Hin) as (o & Ho & Ht).
  destruct (step_sameIdentity st op _ _ Ho) as (o' & Ho' & _ & Ht' & _).
  exists o'. split; congruence.
Qed.

(** X11. In any history of a fresh layer, every decode in flight was
    started for a renderable that is still in its place, [dispose] or not,
    and will report under that renderable's topic: a settling decode always
    finds the renderable its callbacks captured. *)
Theorem decodes_target_their_renderable (ops : list Op) (rd : Renderer) :
  targetsLive (run ops (initial rd)).
Proof.
  unfold run. assert (targetsLive (initial rd)) as Hinit.
  { intros d Hin. by apply elem_of_nil in Hin. }
  revert Hinit. generalize (initial rd).
  induction ops as [|op ops IH]; intros st Hlive; simpl; [done|].
  by apply IH, step_targetsLive.
Qed.

End DecodesInFlight.

Section Disposal.
Context `{Externals}.

Lemma dispose_loop st :
  dispose st =
    set_imagesByTopic (set_children (foldl disposeOne st (imagesByTopic st).*2) []) [].
Proof. reflexivity. Qed.

Lemma disposeOne_effect st rid :
  heap (disposeOne st rid) =
    match heap st !! rid with
    | Some o => <[rid := released o]> (heap st)
    | None => heap st
    end ∧
  log (disposeOne st rid) = log st ++ from_option releaseEvents [] (heap st !! rid).
Proof.
  unfold disposeOne, releaseEvents.
  destruct (heap st !! rid) as [o|]; [|by rewrite app_nil_r].
  destruct o as [? ? ? ? ? ? ? ? [?|] [?|] [?|] ?]; simpl;
    rewrite <- ?app_assoc, ?app_nil_r; done.
Qed.

Lemma omap_ext_in {A B} (f g : A → option B) (l : list A) :
  (∀ x, x ∈ l → f x = g x) → omap f l = omap g l.
Proof.
  induction l as [|x l IH]; intros Hfg; csimpl; [done|].
  rewrite (Hfg x) by left. rewrite IH; [done|].
  intros y Hy. apply Hfg. by right.
Qed.

Lemma foldl_disposeOne_log l st :
  NoDup l →
  log (foldl disposeOne st l) =
    log st ++ flat_map releaseEvents (omap (λ rid, heap st !! rid) l).
Proof.
  revert st. induction l as [|r l IH]; intros st Hnd; csimpl.
  - by rewrite app_nil_r.
  - apply NoDup_cons in Hnd as [Hr Hnd]. rewrite IH by done.
    destruct (disposeOne_effect st r) as [Hheap ->].
    assert (omap (λ rid, heap (disposeOne st r) !! rid) l
            = omap (λ rid, heap st !! rid) l) as ->.
    { apply omap_ext_in. intros rid Hin. rewrite Hheap.
      destruct (heap st !! r); [|done].
      apply list_lookup_insert_ne. by intros ->. }
    destruct (heap st !! r) as [o|]; simpl; by rewrite <- ?app_assoc, ?app_nil_r.
Qed.

(** X12. [dispose] empties the topic map and the layer's children and
    leaves the renderer, the known camera-info topics, the layer's
    visibility and the decodes in flight as they are: no decode is
    cancelled. A second [dispose] changes nothing at all. *)
Theorem dispose_clears_and_repeats_safely (st : Images) :
  let st' := dispose st in
  imagesByTopic st' = [] ∧ children st' = [] ∧
  renderer st' = renderer st ∧ cameraInfoTopics st' = cameraInfoTopics st ∧
  layer_visible st' = layer_visible st ∧ decodes st' = decodes st ∧
  length (heap st') = length (heap st) ∧
  dispose st' = st'.
Proof.
  destruct (dispose_frame st) as (Hr & Hm & Hch & Hc & Hd & Hn & Hv).
  cbv zeta. split_and!; try done.
  - rewrite dispose_loop. cbn [heap set_imagesByTopic set_children].
    apply (foldl_field (λ st, length (heap st))).
    intros st' rid. destruct (disposeOne_effect st' rid) as [-> _].
    destruct (heap st' !! rid); [apply length_insert|done].
Qed.

(** X13. In any history of a fresh layer, [dispose] calls [dispose()] once
    on each texture, material and geometry held by a renderable of the
    topic map, renderable by renderable in the order of the map, and calls
    nothing else; each of these renderables is left without texture,
    material, geometry and mesh. *)
Theorem dispose_releases_each_resource_once (ops : list Op) (rd : Renderer) :
  let st := run ops (initial rd) in
  log (dispose st) = log st ++ flat_map releaseEvents (mapped st) ∧
  Forall (λ rid, heap (dispose st) !! rid = released <$> heap st !! rid)
         (imagesByTopic st).*2.
Proof.
  cbv zeta. set (st := run ops (initial rd)).
  destruct (run_wellFormed ops rd) as (_ & Hnd & _ & Hentries).
  fold st in Hnd, Hentries. split.
  - rewrite dispose_loop. cbn [log set_imagesByTopic set_children].
    by apply foldl_disposeOne_log.
  - apply Forall_forall. intros rid Hin.
    pose proof Hin as Hin'.
    apply list_elem_of_fmap in Hin' as ([topic r] & -> & Hentry).
    destruct (Hentries topic r Hentry) as (o & Ho & _). cbn [snd] in *.
    destruct (dispose_releases st r o Hin Ho) as (_ & _ & ->). by rewrite Ho.
Qed.

End Disposal.

Section Frame.
Context `{Externals}.

Lemma reposed_refl o : reposed o o.
Proof. exists (obj_visible o), (ud_pose o). by destruct o. Qed.

Lemma reposed_trans o1 o2 o3 : reposed o1 o2 → reposed o2 o3 → reposed o1 o3.
Proof.
  intros (v & p & ->) (v' & p' & ->). exists v', p'. by destruct o1.
Qed.

Lemma startFrame_length t st : length (heap (startFrame t st)) = length (heap st).
Proof.
  unfold startFrame.
  destruct (renderFrameId (renderer st)) as [rf|]; [|done].
  destruct (fixedFrameId (renderer st)) as [ff|]; [|done].
  rewrite (foldl_field (λ st, length (heap st))); [done|].
  intros st' rid. rewrite frameRenderable_heap.
  destruct (heap st' !! rid); [apply length_insert|done].
Qed.

Lemma startFrame_layer_visible t st :
  layer_visible (startFrame t st)
  = negb (Js.undefined (renderFrameId (renderer st))
          || Js.undefined (fixedFrameId (renderer st))).
Proof.
  unfold startFrame.
  destruct (renderFrameId (renderer st)) as [rf|]; [|done].
  destruct (fixedFrameId (renderer st)) as [ff|]; [|done].
  rewrite (foldl_field layer_visible); [done|].
  intros st' rid. apply frameRenderable_frame.
Qed.

Lemma startFrame_lookup t st rf ff rid o :
  renderFrameId (renderer st) = Some rf →
  fixedFrameId (renderer st) = Some ff →
  heap st !! rid = Some o →
  heap (startFrame t st) !! rid
  = Some (if bool_decide (rid ∈ (imagesByTopic st).*2)
          then framed (renderer st) rf ff t o else o).
Proof.
  intros Hrf Hff Ho. unfold startFrame. rewrite Hrf, Hff.
  by apply (foldl_frame_heap rf ff t _ (set_layer_visible st true) rid o).
Qed.

(** X14. A frame changes nothing of the layer but its own visibility and,
    of each renderable, whether it is shown and its pose: settings, image
    and resources, topic map, children, known camera-info topics, renderer
    and decodes in flight stay as they are. The layer is shown exactly when
    both frames are known; when one is not, no renderable is touched and
    nothing is reported. A second frame at the same time leaves every
    renderable as the first left it. *)
Theorem startFrame_reposes_only (currentTime : Z) (st : Images) :
  let st' := startFrame currentTime st in
  Forall2 reposed (heap st) (heap st') ∧
  renderer st' = renderer st ∧ imagesByTopic st' = imagesByTopic st ∧
  children st' = children st ∧ cameraInfoTopics st' = cameraInfoTopics st ∧
  decodes st' = decodes st ∧
  layer_visible st' = negb (Js.undefined (renderFrameId (renderer st))
                            || Js.undefined (fixedFrameId (renderer st))) ∧
  (layer_visible st' = false → heap st' = heap st ∧ log st' = log st) ∧
  heap (startFrame currentTime st') = heap st'.
Proof.
  cbv zeta.
  destruct (startFrame_frame currentTime st) as (Hr & Hm & Hch & Hc & Hd & _).
  split_and!; try done.
  - apply Forall2_same_length_lookup. split; [by rewrite startFrame_length|].
    intros rid o o' Ho Ho'.
    destruct (startFrame_descends reposed (λ _, True) reposed_refl reposed_trans) with
      (currentTime := currentTime) (st := st) as [_ Hrel].
    + intros o0 v. exists v, (ud_pose o0). by destruct o0.
    + intros o0 p. exists (obj_visible o0), p. by destruct o0.
    + specialize (Hrel rid o' Ho'). by rewrite Ho in Hrel.
  - apply startFrame_layer_visible.
  - rewrite startFrame_layer_visible. unfold startFrame.
    destruct (renderFrameId (renderer st)) as [rf|]; [|done].
    destruct (fixedFrameId (renderer st)) as [ff|]; done.
  - destruct (renderFrameId (renderer st)) as [rf|] eqn:Hrf; last first.
    { unfold startFrame at 1. rewrite Hr, Hrf. done. }
    destruct (fixedFrameId (renderer st)) as [ff|] eqn:Hff; last first.
    { unfold startFrame at 1. rewrite Hr, Hrf, Hff. done. }
    apply list_eq. intros rid.
    destruct (heap st !! rid) as [o|] eqn:Ho.
    + pose proof (startFrame_lookup currentTime st rf ff rid o Hrf Hff Ho) as Ho1.
      rewrite Ho1.
      erewrite startFrame_lookup; [|by rewrite Hr..|exact Ho1].
      rewrite Hr, Hm. case_bool_decide; [|done]. by rewrite framed_idemp.
    + assert (heap (startFrame currentTime st) !! rid = None) as Hnone.
      { apply lookup_ge_None. rewrite startFrame_length. by apply lookup_ge_None. }
      rewrite Hnone. apply lookup_ge_None. rewrite startFrame_length.
      by apply lookup_ge_None.
Qed.

(** X15. When both frames are known, [startFrame] hides every renderable of
    the topic map whose settings make it invisible, clears the errors
    reported under its topic and does not resolve its pose. *)
Theorem startFrame_hides_invisible (st : Images) (currentTime : Z)
    (rf ff : string) (rid : nat) (o : ImageRenderable) :
  renderFrameId (renderer st) = Some rf →
  fixedFrameId (renderer st) = Some ff →
  rid ∈ (imagesByTopic st).*2 →
  heap st !! rid = Some o →
  visible (ud_settings o) = false →
  ∃ events,
    heap (startFrame currentTime st) !! rid = Some (set_obj_visible o false) ∧
    log (startFrame currentTime st) = log st ++ events ∧
    ClearTopic (ud_topic o) ∈ events.
Proof.
  intros Hrf Hff Hin Ho Hvis. unfold startFrame. rewrite Hrf, Hff.
  set (st0 := set_layer_visible st true).
  destruct (foldl_frame_log rf ff currentTime (imagesByTopic st0).*2 st0)
    as (events & Hlog & Hev).
  exists events. split_and!.
  - rewrite (foldl_frame_heap _ _ _ _ st0 rid o Ho).
    rewrite bool_decide_eq_true_2 by done. unfold framed.
    assert (∀ v, ud_settings (set_obj_visible o v) = ud_settings o) as Hs
      by (by destruct o).
    cbv zeta. by rewrite Hs, Hvis.
  - exact Hlog.
  - apply (Hev rid o); [done..|]. unfold frameEvents. rewrite Hvis. left.
Qed.

End Frame.

Section TextureAndMaterial.
Context `{Externals}.

Ltac parts o := destruct o as [? ? ? ? ? ? ? ? [?|] [?|] [?|] [?|]].

Lemma sameTexture_refl o : sameTexture o o.
Proof. intros t Ht. eauto. Qed.

Lemma sameTexture_trans o1 o2 o3 :
  sameTexture o1 o2 → sameTexture o2 o3 → sameTexture o1 o3.
Proof.
  intros H12 H23 t Ht. destruct (H12 t Ht) as (t2 & Ht2 & Hid2).
  destruct (H23 t2 Ht2) as (t3 & Ht3 & Hid3). exists t3. split; congruence.
Qed.

(** X16. A renderable's texture object is created once: as long as the
    layer is not disposed of, no update, frame or decode replaces it; a
    later bitmap is written into the same texture. *)
Theorem texture_created_once (ops : list Op) (st : Images) (rid : nat)
    (o : ImageRenderable) (t : Texture) :
  forallb (λ op, negb (isDispose op)) ops = true →
  heap st !! rid = Some o →
  ud_texture o = Some t →
  ∃ o' t', heap (run ops st) !! rid = Some o' ∧
           ud_texture o' = Some t' ∧ tex_id t' = tex_id t.
Proof.
  intros Hops Ho Ht.
  assert (descends sameTexture (λ _, True) (heap st) (heap (run ops st))) as [Hlen Hrel].
  { apply (run_descends sameTexture (λ _, True)).
    - apply sameTexture_refl.
    - apply sameTexture_trans.
    - intros o0 v t0 Ht0. exists t0. by destruct o0.
    - intros o0 v t0 Ht0. exists t0. by destruct o0.
    - intros o0 topic known _ t0 Ht0. exists t0. by destruct o0.
    - intros r o0 image settings st0 _ t0 Ht0. exists t0. split; [|done].
      destruct (updateBody_effect r o0 image settings st0) as (_ & _ & -> & _). done.
    - intros o0 t0 st0 Hnone t1 Ht1. congruence.
    - intros o0 t0 bitmap Ht0 t1 Ht1. eexists. split; [by destruct o0|].
      simpl. congruence.
    - apply opOk_True.
    - intros Hex. apply Exists_exists in Hex as (op & Hin & Hop).
      rewrite forallb_forall in Hops. apply list_elem_of_In in Hin.
      specialize (Hops op Hin). by rewrite Hop in Hops. }
  destruct (lookup_lt_is_Some_2 (heap (run ops st)) rid) as [o' Ho'].
  { apply lookup_lt_Some in Ho. lia. }
  specialize (Hrel rid o' Ho'). rewrite Ho in Hrel.
  destruct (Hrel t Ht) as (t' & Ht' & Hid). eauto.
Qed.

(** *** The material and the colour *)

Lemma createMaterial_ext id t t' o o' :
  tex_id t = tex_id t' → ud_topic o = ud_topic o' →
  color (ud_settings o) = color (ud_settings o') →
  createMaterial id t o = createMaterial id t' o'.
Proof. unfold createMaterial. by intros -> -> ->. Qed.

Lemma tinted_ext o o' :
  ud_material o' = ud_material o → ud_texture o' = ud_texture o →
  ud_topic o' = ud_topic o → color (ud_settings o') = color (ud_settings o) →
  tinted o → tinted o'.
Proof.
  intros Hm Ht Htopic Hc Ho m Hmat. rewrite Hm in Hmat.
  destruct (Ho m Hmat) as (t & Htex & Heq). exists t. split; [congruence|].
  rewrite Heq at 1. by apply createMaterial_ext.
Qed.

Lemma tinted_disposeGeometry f : tinted f.1 → tinted (disposeGeometry f).1.
Proof.
  destruct f as [o st]. destruct (disposeGeometry_effect o st)
    as (_ & _ & _ & (_ & ? & _) & Hs & ? & ? & _).
  apply tinted_ext; try done. by rewrite Hs.
Qed.

Lemma tinted_createGeometryIfNeeded settings f :
  tinted f.1 → tinted (createGeometryIfNeeded settings f).1.
Proof.
  destruct f as [o st]. destruct (createGeometryIfNeeded_effect settings o st)
    as (_ & _ & _ & (_ & ? & _) & Hs & ? & ? & _).
  apply tinted_ext; try done. by rewrite Hs.
Qed.

Lemma tinted_tryCreateMesh f : tinted f.1 → tinted (tryCreateMesh f).1.
Proof.
  destruct f as [o st]. destruct (tryCreateMesh_effect o st)
    as (_ & _ & _ & (_ & ? & _) & Hs & ? & ? & _).
  apply tinted_ext; try done. by rewrite Hs.
Qed.

Lemma tinted_rebuildMaterial f : tinted (rebuildMaterial f).1.
Proof.
  destruct f as [o st]. unfold tinted, rebuildMaterial, detachMesh.
  parts o; simpl; intros mat Hm; simplify_eq; eexists; (split; [done|]);
    by apply createMaterial_ext.
Qed.

Lemma tinted_updateBody rid o image settings st :
  Js.truthy (formatOf image) = true →
  tinted o → tinted (updateBody rid o image settings st).2.1.
Proof.
  intros Hfmt Ho. unfold updateBody. rewrite Hfmt.
  destruct image as [raw|compressed]; [done|].
  set (matEq := bool_decide (color (spread (ud_settings o) settings)
                             = color (ud_settings o))).
  set (o0 := set_ud_settings o (spread (ud_settings o) settings)).
  set (f2 := createGeometryIfNeeded settings
               (if negb _ then disposeGeometry (o0, st) else (o0, st))).
  assert (matEq = true → tinted f2.1) as Hf2.
  { intros Heq. apply bool_decide_eq_true_1 in Heq.
    apply tinted_createGeometryIfNeeded.
    assert (tinted o0) as Ho0
      by (revert Ho; apply tinted_ext; try done; by destruct o).
    destruct (negb _); [by apply tinted_disposeGeometry|done]. }
  clearbody f2. destruct f2 as [o2 st2]. cbn [fst snd] in *.
  apply tinted_tryCreateMesh.
  destruct matEq; cbn [negb].
  - rewrite orb_false_r. destruct (Js.undefined (ud_material o2));
      [apply tinted_rebuildMaterial|by apply Hf2].
  - rewrite orb_true_r. apply tinted_rebuildMaterial.
Qed.

(** X17. In any history of a fresh layer that is given no image the update
    rejects, the material a renderable holds is the one [createMaterial]
    builds from the renderable's texture, topic and current colour: tint,
    opacity, transparency and depth writing follow the settings. *)
Theorem material_follows_colour (ops : list Op) (rd : Renderer) :
  forallb suppliesDecodable ops = true →
  Forall tinted (heap (run ops (initial rd))).
Proof.
  intros Hops. apply Forall_lookup. intros rid o' Ho'.
  set (P := λ o, decodable o ∧ tinted o).
  assert (descends (passes P) (λ image, Js.truthy (formatOf image) = true) (heap (initial rd)) (heap (run ops (initial rd))))
    as [_ Hrel].
  { apply (run_descends (passes P) (λ image, Js.truthy (formatOf image) = true));
      unfold passes, P, decodable.
    - done.
    - auto.
    - intros o v [Hd Ht]. split; [by destruct o|].
      revert Ht. apply tinted_ext; by destruct o.
    - intros o v [Hd Ht]. split; [by destruct o|].
      revert Ht. apply tinted_ext; by destruct o.
    - intros o topic known _ [Hd Ht]. split; [by destruct o|].
      revert Ht. apply tinted_ext; by destruct o.
    - intros r o image settings st Hok [Hd Ht].
      assert (Js.truthy (formatOf image) = true) as Hfmt
        by (destruct Hok as [?| ->]; done).
      split; [|by apply tinted_updateBody].
      destruct (updateBody_effect r o image settings st) as ((_ & _ & -> & _) & _).
      done.
    - intros o t st Hnone [Hd Ht]. split.
      + destruct (texturing_effect o t st) as ((_ & _ & -> & _) & _). done.
      + apply tinted_tryCreateMesh, tinted_rebuildMaterial.
    - intros o t bitmap Htex [Hd Ht]. split; [by destruct o|].
      intros m Hm. destruct (Ht m) as (t0 & Ht0 & Heq); [by destruct o|].
      eexists. split; [by destruct o|]. rewrite Heq at 1.
      apply createMaterial_ext; [|by destruct o..]. simpl. congruence.
    - clear -Hops. induction ops as [|op ops IH]; [done|].
      simpl in Hops. destruct (andb_prop _ _ Hops) as [Hop Hops'].
      constructor; [by destruct op|by apply IH].
    - intros _ o [Hd Ht]. split; [by destruct o|]. intros m Hm. by destruct o. }
  specialize (Hrel rid o' Ho'). simpl in Hrel.
  destruct Hrel as (topic & image & us & Hok & Hnew).
  apply Hnew. split; [done|]. by intros m Hm.
Qed.

End TextureAndMaterial.

Section Updates.
Context `{Externals}.

(** X18. An update returns exactly when the image carries a non-empty
    [format]; it then leaves exactly one more decode in flight, started for
    this renderable and its topic with this image. A raw image, and a
    compressed image whose format is the empty string, make it throw with
    no decode started. Either way the merged settings have been stored by
    then, and the texture is as it was. *)
Theorem update_starts_one_decode (rid : nat) (o : ImageRenderable)
    (image : ImageMessage) (settings : PartialSettings) (st : Images) :
  let result := updateBody rid o image settings st in
  ud_settings result.2.1 = spread (ud_settings o) settings ∧
  ud_texture result.2.1 = ud_texture o ∧
  match image with
  | Compressed compressed =>
      if bool_decide (format compressed = "") then
        result.1 = Throw image ∧ decodes result.2.2 = decodes st
      else
        result.1 = Normal ∧
        decodes result.2.2 = decodes st ++ [mkDecode rid (ud_topic o) compressed]
  | Raw _ => result.1 = Throw image ∧ decodes result.2.2 = decodes st
  end.
Proof.
  destruct (updateBody_effect rid o image settings st)
    as (_ & Hs & Ht & _ & Hc & Hd & _).
  cbv zeta. split; [done|]. split; [done|].
  rewrite Hc, Hd. destruct image as [raw|compressed]; simpl.
  - by rewrite app_nil_r.
  - destruct (format compressed) eqn:Hf; simpl.
    + by rewrite app_nil_r.
    + done.
Qed.

(** X19. The outbound calls of an update are at most two, in this order:
    [dispose()] of the geometry held before, made exactly when one was
    held and [cameraInfoTopic] or [distance] compare different after the
    merge; then [dispose()] of the material held before, made exactly when
    one was held, the image is accepted and the colour differs after the
    merge. *)
Theorem update_outbound_calls (rid : nat) (o : ImageRenderable)
    (image : ImageMessage) (settings : PartialSettings) (st : Images) :
  log (updateBody rid o image settings st).2.2 =
    log st
    ++ (if geometrySettingsEqual (ud_settings o) settings then []
        else geometryRelease o)
    ++ (if Js.truthy (formatOf image)
           && negb (materialSettingsEqual (ud_settings o) settings)
        then materialRelease o else []).
Proof. apply updateBody_effect. Qed.

(** X20. The geometry an update leaves is the one held before when
    [cameraInfoTopic] and [distance] compare equal after the merge;
    otherwise it is a new one, built at the merged distance from the camera
    model registered under the [cameraInfoTopic] of the settings passed to
    the update, when they name one and the model is there; otherwise none.
    In particular an update whose settings argument names no camera-info
    topic builds no geometry, and an update never builds one without a
    camera model. *)
Theorem update_geometry (rid : nat) (o : ImageRenderable)
    (image : ImageMessage) (settings : PartialSettings) (st : Images) :
  let o' := (updateBody rid o image settings st).2.1 in
  ud_geometry o' = geometryAfter o settings st ∧
  (mjoin (p_cameraInfoTopic settings) = None →
   ud_geometry o' = if geometrySettingsEqual (ud_settings o) settings
                    then ud_geometry o else None) ∧
  (ud_geometry o = None → ud_geometry o' ≠ None →
   ∃ cameraInfoTopic cameraModel,
     p_cameraInfoTopic settings = Some (Some cameraInfoTopic) ∧
     camerasByTopic (renderer st) !! cameraInfoTopic = Some (Some cameraModel)).
Proof.
  destruct (updateBody_effect rid o image settings st)
    as (_ & _ & _ & _ & _ & _ & _ & Hg & _).
  cbv zeta. rewrite Hg. unfold geometryAfter. split_and!.
  - done.
  - intros Hnone. destruct (if geometrySettingsEqual _ _ then _ else _); [done|].
    by destruct (p_cameraInfoTopic settings) as [[c|]|].
  - intros -> Hsome.
    destruct (geometrySettingsEqual (ud_settings o) settings);
    destruct (p_cameraInfoTopic settings) as [[c|]|]; try done.
    all: destruct (camerasByTopic (renderer st) !! c) as [[cm|]|] eqn:Hcam;
      try done; eauto.
Qed.

Lemma update_log rid image settings st :
  ∃ events,
    log (_updateImageRenderable rid image settings st).2 = log st ++ events ∧
    Forall isRelease events.
Proof.
  destruct (heap st !! rid) as [o|] eqn:Ho.
  - destruct (update_outcome rid image settings st o Ho) as (_ & _ & _ & ->).
    destruct (updateBody_effect rid o image settings st)
      as (_ & _ & _ & _ & _ & _ & -> & _).
    eexists. split; [done|].
    apply Forall_app. split; repeat case_match; try done;
      unfold geometryRelease, materialRelease; case_match; by repeat constructor.
  - unfold _updateImageRenderable. rewrite Ho. exists []. by rewrite app_nil_r.
Qed.

Lemma addImageMessage_known_events topic image st rid o :
  mapGet (imagesByTopic st) topic = Some rid →
  heap st !! rid = Some o →
  let st' := (addImageMessage topic image st).2 in
  let userSettings := default noSettings (config_topics (renderer st) !! topic) in
  ∃ events,
    Forall isRelease events ∧
    match cameraInfoTopic (ud_settings o),
          head (Js.sort (candidatesFor topic (cameraInfoTopics st))) with
    | None, Some selected =>
        renderer st' =
          set_config_topics (renderer st)
            (<[topic := set_p_cameraInfoTopic userSettings (Some selected)]>
               (config_topics (renderer st))) ∧
        log st' = log st ++ Emit ["topics"; topic] :: events
    | _, _ => renderer st' = renderer st ∧ log st' = log st ++ events
    end.
Proof.
  intros Hget Ho. cbv zeta. rewrite (addImageMessage_known _ _ _ _ _ Hget Ho).
  pose proof (autoSelected_effect topic o st) as Hsel. cbv zeta in Hsel.
  destruct Hsel as (_ & _ & _ & _ & _ & _ & _ & Hsel).
  destruct (autoSelected topic (o, st)) as [o1 st1]. cbn [fst snd] in *.
  destruct (update_frame rid image (asPartial (ud_settings o1)) (store rid o1 st1))
    as (Hr & _).
  destruct (update_log rid image (asPartial (ud_settings o1)) (store rid o1 st1))
    as (events & Hlog & Hev).
  exists events. split; [done|]. rewrite Hr, Hlog.
  change (renderer (store rid o1 st1)) with (renderer st1).
  change (log (store rid o1 st1)) with (log st1).
  destruct (cameraInfoTopic (ud_settings o)) as [c|];
    [|destruct (head _) as [selected|]].
  - by simplify_eq.
  - destruct Hsel as (_ & -> & ->). by rewrite <- app_assoc.
  - by simplify_eq.
Qed.

(** X21. [addImageMessage] writes to the renderer's configuration exactly
    when the renderable of the topic (the one of the map or, failing that,
    the one just created) has no camera-info topic and a known one
    matches: the topic's entry then becomes the user's settings with the
    selected topic added, the entries of the other topics stay, and one
    [settingsTreeChange] for [topics, topic] is emitted before anything
    else. In every other case the renderer is left as it was; the only
    other outbound calls are disposals of a geometry or a material. *)
Theorem addImageMessage_writes_back_selection (topic : string)
    (image : ImageMessage) (st : Images) (o : ImageRenderable) :
  match mapGet (imagesByTopic st) topic with
  | Some rid => heap st !! rid = Some o
  | None => o = created topic image (config_topics (renderer st) !! topic)
  end →
  let st' := (addImageMessage topic image st).2 in
  let userSettings := default noSettings (config_topics (renderer st) !! topic) in
  ∃ events,
    Forall isRelease events ∧
    match cameraInfoTopic (ud_settings o),
          head (Js.sort (candidatesFor topic (cameraInfoTopics st))) with
    | None, Some selected =>
        renderer st' =
          set_config_topics (renderer st)
            (<[topic := set_p_cameraInfoTopic userSettings (Some selected)]>
               (config_topics (renderer st))) ∧
        log st' = log st ++ Emit ["topics"; topic] :: events
    | _, _ => renderer st' = renderer st ∧ log st' = log st ++ events
    end.
Proof.
  destruct (mapGet (imagesByTopic st) topic) as [rid|] eqn:Hget.
  - intros Ho. by apply (addImageMessage_known_events topic image st rid o).
  - intros ->. destruct (addImageMessage_fresh topic image st Hget) as (-> & Hget' & Ho').
    apply (addImageMessage_known_events _ _ _ _ _ Hget' Ho').
Qed.

(** X22. [addCameraInfoMessage] records the topic before anything else and
    emits its one [settingsTreeChange] for [topics] last, when the topic is
    new and the update it runs returns. When that update throws, the topic
    has been recorded but the event is not emitted, and the next message on
    the topic will find it known. No other event is emitted. *)
Theorem addCameraInfoMessage_emits_unless_thrown (topic : string)
    (info : CameraInfo) (st : Images) :
  let result := addCameraInfoMessage topic info st in
  let known := bool_decide (topic ∈ cameraInfoTopics st) in
  topic ∈ cameraInfoTopics result.2 ∧
  ∃ events,
    Forall isRelease events ∧
    log result.2 = log st ++ events
                   ++ (if negb known && returned result.1 then [Emit ["topics"]] else []).
Proof.
  cbv zeta. split.
  - destruct (addCameraInfoMessage_frame topic info st) as (_ & _ & _ & _ & ->).
    case_bool_decide; [done|]. apply elem_of_app. right. left.
  - rewrite addCameraInfoMessage_stages. cbv zeta.
    assert (log (recorded topic st) = log st) as Hl
      by (unfold recorded; by case_match).
    rewrite <- Hl. generalize (recorded topic st).
    generalize (negb (bool_decide (topic ∈ cameraInfoTopics st))).
    clear st Hl. intros updated st.
    assert (∃ events, log (refreshed topic st).2 = log st ++ events ∧
                      Forall isRelease events) as (events & Hlog & Hev).
    { unfold refreshed.
      destruct (mapGet (imagesByTopic st) topic) as [rid|];
        [|exists []; by rewrite app_nil_r].
      destruct (heap st !! rid) as [o|]; [|exists []; by rewrite app_nil_r].
      apply update_log. }
    exists events. split; [done|].
    destruct (refreshed topic st) as [[] st2]; cbn [fst snd returned] in *.
    + destruct updated; simpl; rewrite Hlog, ?app_nil_r; by rewrite ?app_assoc.
    + by rewrite andb_false_r, app_nil_r.
Qed.

End Updates.

Section GeometryDistance.
Context `{Externals}.

Lemma builtAtDistance_ext rd rd' o o' :
  modelsKept (camerasByTopic rd) (camerasByTopic rd') →
  ud_geometry o' = ud_geometry o →
  cameraInfoTopic (ud_settings o') = cameraInfoTopic (ud_settings o) →
  distance (ud_settings o') = distance (ud_settings o) →
  builtAtDistance rd o → builtAtDistance rd' o'.
Proof.
  intros Hkept Hg Hc Hd Ho g Hgeo. rewrite Hg in Hgeo.
  destruct (Ho g Hgeo) as (topic & cm & d & Ht & Hcm & Hattr & Hsame).
  exists topic, cm, d. rewrite Hc, Hd. split_and!; try done. by apply Hkept.
Qed.

Lemma modelsKept_refl cams : modelsKept cams cams.
Proof. by intros ??. Qed.

Lemma builtAtDistance_unbuilt rd o : ud_geometry o = None → builtAtDistance rd o.
Proof. intros Hnone g Hg. congruence. Qed.

Lemma builtAtDistance_updateBody rid o image settings st :
  builtAtDistance (renderer st) o →
  builtAtDistance (renderer st) (updateBody rid o image settings st).2.1.
Proof.
  intros Ho.
  destruct (updateBody_effect rid o image settings st)
    as (_ & Hs & _ & _ & _ & _ & _ & Hg & _).
  intros g. rewrite Hs, Hg. unfold geometryAfter.
  assert (∀ c cm,
            p_cameraInfoTopic settings = Some (Some c) →
            camerasByTopic (renderer st) !! c = Some (Some cm) →
            ∃ topic cameraModel depth,
              cameraInfoTopic (spread (ud_settings o) settings) = Some topic ∧
              camerasByTopic (renderer st) !! topic = Some (Some cameraModel) ∧
              createGeometry cm (distance (spread (ud_settings o) settings))
              = createGeometry cameraModel depth ∧
              sameNumber depth (distance (spread (ud_settings o) settings)))
    as Hbuilt.
  { intros c cm Hc Hcm. exists c, cm, (distance (spread (ud_settings o) settings)).
    split_and!; try done; [|by left]. unfold spread. simpl. by rewrite Hc. }
  destruct (geometrySettingsEqual (ud_settings o) settings) eqn:Heq.
  - destruct (ud_geometry o) as [g0|] eqn:Hg0.
    + intros [= <-]. destruct (Ho g0 Hg0) as (topic & cm & d & Ht & Hcm & Hattr & Hd).
      unfold geometrySettingsEqual in Heq. apply andb_prop in Heq as [Hteq Hdeq].
      apply bool_decide_eq_true_1 in Hteq.
      exists topic, cm, d. split_and!; try done; [congruence|]. right.
      destruct Hd as [->|Hd]; [by rewrite float_eqb_sym|].
      eapply float_eqb_trans; [exact Hd|by rewrite float_eqb_sym].
    + destruct (p_cameraInfoTopic settings) as [[c|]|] eqn:Hc; try done.
      destruct (camerasByTopic (renderer st) !! c) as [[cm|]|] eqn:Hcm; try done.
      intros [= <-]. by eapply Hbuilt.
  - destruct (p_cameraInfoTopic settings) as [[c|]|] eqn:Hc; try done.
    destruct (camerasByTopic (renderer st) !! c) as [[cm|]|] eqn:Hcm; try done.
    intros [= <-]. by eapply Hbuilt.
Qed.

Lemma built_update rid image settings st :
  Forall (builtAtDistance (renderer st)) (heap st) →
  let st' := (_updateImageRenderable rid image settings st).2 in
  renderer st' = renderer st ∧ Forall (builtAtDistance (renderer st)) (heap st').
Proof.
  intros Hall. cbv zeta. split; [apply update_frame|].
  rewrite update_heap. destruct (heap st !! rid) as [o|] eqn:Ho; [|done].
  apply Forall_insert; [done|]. apply builtAtDistance_updateBody.
  by eapply Forall_lookup_1.
Qed.

Lemma built_descends (P : ImageRenderable → Prop) okImage h h' :
  (∀ topic image userSettings, P (created topic image userSettings)) →
  descends (passes P) okImage h h' → Forall P h → Forall P h'.
Proof.
  intros Hnew [_ Hrel] Hall. apply Forall_lookup. intros rid o' Ho'.
  specialize (Hrel rid o' Ho'). destruct (h !! rid) as [o|] eqn:Ho.
  - apply Hrel. by eapply Forall_lookup_1.
  - destruct Hrel as (topic & image & us & _ & Hpass). apply Hpass, Hnew.
Qed.

Lemma built_addImageMessage topic image st :
  Forall (builtAtDistance (renderer st)) (heap st) →
  let st' := (addImageMessage topic image st).2 in
  camerasByTopic (renderer st') = camerasByTopic (renderer st) ∧
  Forall (builtAtDistance (renderer st)) (heap st').
Proof.
  assert (∀ st rid o,
            mapGet (imagesByTopic st) topic = Some rid → heap st !! rid = Some o →
            Forall (builtAtDistance (renderer st)) (heap st) →
            let st' := (addImageMessage topic image st).2 in
            camerasByTopic (renderer st') = camerasByTopic (renderer st) ∧
            Forall (builtAtDistance (renderer st)) (heap st')) as Hknown.
  { clear st. intros st rid o Hget Ho Hall. cbv zeta.
    rewrite (addImageMessage_known _ _ _ _ _ Hget Ho).
    pose proof (autoSelected_effect topic o st) as Hsel. cbv zeta in Hsel.
    destruct Hsel as (Hheap & _ & _ & _ & _ & _ & _ & Hsel).
    assert (builtAtDistance (renderer st) o) as HPo by by eapply Forall_lookup_1.
    destruct (autoSelected topic (o, st)) as [o1 st1]. cbn [fst snd] in *.
    assert (camerasByTopic (renderer st1) = camerasByTopic (renderer st) ∧
            builtAtDistance (renderer st) o1) as [Hcams HPo1].
    { destruct (cameraInfoTopic (ud_settings o)) as [c|] eqn:Hc;
        [by simplify_eq|].
      assert (ud_geometry o = None) as Hnone.
      { destruct (ud_geometry o) as [g|] eqn:Hg; [|done].
        destruct (HPo g Hg) as (t & _ & _ & Ht & _). congruence. }
      destruct (head _) as [selected|]; [|by simplify_eq].
      destruct Hsel as (-> & -> & _). split; [done|].
      apply builtAtDistance_unbuilt. by destruct o. }
    set (st2 := store rid o1 st1).
    assert (Forall (builtAtDistance (renderer st2)) (heap st2)) as Hall2.
    { subst st2. cbn [heap renderer store set_heap]. rewrite Hheap.
      apply Forall_insert.
      - eapply Forall_impl; [exact Hall|]. intros x.
        apply builtAtDistance_ext; try done. rewrite Hcams. apply modelsKept_refl.
      - revert HPo1. apply builtAtDistance_ext; try done.
        rewrite Hcams. apply modelsKept_refl. }
    destruct (built_update rid image (asPartial (ud_settings o1)) st2 Hall2)
      as [Hr Hall3].
    rewrite Hr. split; [done|].
    eapply Forall_impl; [exact Hall3|]. intros x.
    apply builtAtDistance_ext; try done.
    change (renderer st2) with (renderer st1). rewrite Hcams. apply modelsKept_refl. }
  intros Hall.
  destruct (mapGet (imagesByTopic st) topic) as [rid|] eqn:Hget.
  - destruct (heap st !! rid) as [o|] eqn:Ho; [by eapply Hknown|].
    unfold addImageMessage. rewrite Hget, Ho. done.
  - destruct (addImageMessage_fresh topic image st Hget) as (-> & Hget' & Ho').
    apply (Hknown _ _ _ Hget' Ho').
    unfold registered. cbn [heap renderer set_imagesByTopic set_children set_heap].
    apply Forall_app. split; [done|]. repeat constructor.
    by apply builtAtDistance_unbuilt.
Qed.

Lemma built_refreshed topic st :
  Forall (builtAtDistance (renderer st)) (heap st) →
  let st' := (refreshed topic st).2 in
  renderer st' = renderer st ∧ Forall (builtAtDistance (renderer st)) (heap st').
Proof.
  intros Hall. unfold refreshed.
  destruct (mapGet (imagesByTopic st) topic) as [rid|]; [|done].
  destruct (heap st !! rid) as [o|]; [|done].
  by apply built_update.
Qed.

Ltac settle :=
  first
    [ done
    | solve [auto]
    | by intros; apply builtAtDistance_unbuilt
    | by intros o ?; apply builtAtDistance_unbuilt; destruct o
    | intros o ?; apply builtAtDistance_ext; try apply modelsKept_refl; by destruct o
    | intros o ? ? ?; apply builtAtDistance_ext; try apply modelsKept_refl;
      by destruct o
    | intros o t st0 ?; destruct (texturing_effect o t st0) as (_ & Hs & _ & Hg);
      apply builtAtDistance_ext; try apply modelsKept_refl; try done; by rewrite Hs ].

Lemma built_step st op :
  match op with
  | RendererChanged rd => modelsKept (camerasByTopic (renderer st)) (camerasByTopic rd)
  | _ => camerasByTopic (renderer (step st op)) = camerasByTopic (renderer st)
  end →
  Forall (builtAtDistance (renderer st)) (heap st) →
  Forall (builtAtDistance (renderer (step st op))) (heap (step st op)).
Proof.
  intros Hcams Hall.
  assert (Forall (builtAtDistance (renderer st)) (heap (step st op)) ∨
          ∃ rd, op = RendererChanged rd) as [Hall'|[rd ->]].
  { destruct op as [topic image|topic info|topic settings|t| |i outcome|rd];
      cbn [step]; [left..|right; eauto].
    - by apply built_addImageMessage.
    - rewrite addCameraInfoMessage_stages. cbv zeta.
      assert (Forall (builtAtDistance (renderer (recorded topic st)))
                (heap (recorded topic st))) as Hrec
        by (unfold recorded; by case_match).
      assert (renderer (recorded topic st) = renderer st) as Hr
        by (unfold recorded; by case_match).
      destruct (built_refreshed topic (recorded topic st) Hrec) as [_ Href].
      rewrite Hr in Href.
      destruct (refreshed topic (recorded topic st)) as [[] st2];
        cbn [fst snd] in *; [|done]. by destruct (negb _).
    - unfold setTopicSettings.
      destruct (mapGet (imagesByTopic st) topic) as [rid|]; [|done].
      destruct (heap st !! rid) as [o|]; [|done].
      by apply built_update.
    - eapply (built_descends _ (λ _, True));
        [|apply (startFrame_descends (passes (builtAtDistance (renderer st))))|done];
        unfold passes; settle.
    - eapply (built_descends _ (λ _, True));
        [|apply (dispose_descends (passes (builtAtDistance (renderer st))))|done];
        unfold passes; settle.
    - eapply (built_descends _ (λ _, True));
        [|apply (settleDecode_descends (passes (builtAtDistance (renderer st))))|done];
        unfold passes; settle. }
  - eapply Forall_impl; [exact Hall'|]. intros o.
    apply builtAtDistance_ext; try done.
    destruct op; try (rewrite Hcams; apply modelsKept_refl). done.
  - cbn [step heap renderer set_renderer].
    eapply Forall_impl; [exact Hall|]. intros o. by apply builtAtDistance_ext.
Qed.

Lemma step_cameras st op :
  match op with
  | RendererChanged rd => True
  | _ => camerasByTopic (renderer (step st op)) = camerasByTopic (renderer st)
  end.
Proof.
  destruct op as [topic image|topic info|topic settings|t| |i outcome|rd];
    cbn [step]; try done.
  - destruct (mapGet (imagesByTopic st) topic) as [rid|] eqn:Hget.
    + destruct (heap st !! rid) as [o|] eqn:Ho.
      * destruct (addImageMessage_known_events topic image st rid o Hget Ho)
          as (events & _ & Hsel).
        destruct (cameraInfoTopic (ud_settings o));
          [by destruct Hsel as [-> _]|].
        destruct (head _); destruct Hsel as [-> _]; done.
      * unfold addImageMessage. by rewrite Hget, Ho.
    + destruct (addImageMessage_fresh topic image st Hget) as (-> & Hget' & Ho').
      destruct (addImageMessage_known_events topic image _ _ _ Hget' Ho')
        as (events & _ & Hsel).
      destruct (cameraInfoTopic _); [by destruct Hsel as [-> _]|].
      destruct (head _); destruct Hsel as [-> _]; done.
  - by destruct (addCameraInfoMessage_frame topic info st) as (-> & _).
  - by destruct (setTopicSettings_frame topic settings st) as (-> & _).
  - by destruct (startFrame_frame t st) as (-> & _).
  - by destruct (dispose_frame st) as (-> & _).
  - by destruct (settleDecode_frame i outcome st) as (-> & _).
Qed.

(** X23. In any history of a fresh layer along which the camera models,
    once there, are neither replaced nor removed, the geometry a renderable
    holds is the one [createGeometry] builds from the camera model
    registered under the camera-info topic its settings select, at the
    distance of its current settings up to what [===] tells apart: no
    change of the distance or of the topic leaves a geometry built for the
    old one. *)
Theorem geometry_built_at_current_distance (ops : list Op) (rd : Renderer) :
  stableModels (camerasByTopic rd) ops →
  let st := run ops (initial rd) in
  Forall (builtAtDistance (renderer st)) (heap st).
Proof.
  cbv zeta. unfold run.
  assert (Forall (builtAtDistance (renderer (initial rd))) (heap (initial rd)))
    as Hinit by constructor.
  change (camerasByTopic rd) with (camerasByTopic (renderer (initial rd))).
  revert Hinit. generalize (initial rd).
  induction ops as [|op ops IH]; intros st Hall Hstable; [done|].
  cbn [foldl]. pose proof (step_cameras st op) as Hcams.
  apply IH.
  - apply built_step; [|done]. destruct op; try done. apply Hstable.
  - destruct op; cbn [stableModels] in Hstable; try (by rewrite Hcams).
    apply Hstable.
Qed.

End GeometryDistance.

Section OneTopic.
Context `{Externals}.

Lemma untouchedOff_insert topic h rid o x :
  h !! rid = Some o → ud_topic o = topic →
  Forall2 (untouchedOff topic) h (<[rid := x]> h).
Proof.
  intros Ho Ht. apply Forall2_same_length_lookup. split; [by rewrite length_insert|].
  intros i a b Ha Hb. destruct (decide (i = rid)) as [->|Hne].
  - left. congruence.
  - right. rewrite list_lookup_insert_ne in Hb by done. congruence.
Qed.

Lemma untouchedOff_refl topic h : Forall2 (untouchedOff topic) h h.
Proof. apply Forall2_same_length_lookup. split; [done|]. intros; right; congruence. Qed.

Lemma update_untouched topic rid image settings st o :
  heap st !! rid = Some o → ud_topic o = topic →
  Forall2 (untouchedOff topic) (heap st)
          (heap (_updateImageRenderable rid image settings st).2).
Proof.
  intros Ho Ht. rewrite update_heap, Ho. by eapply untouchedOff_insert.
Qed.

Lemma addImageMessage_known_untouched topic image st rid o :
  mapGet (imagesByTopic st) topic = Some rid → heap st !! rid = Some o →
  ud_topic o = topic →
  ∃ x, heap (addImageMessage topic image st).2 = <[rid := x]> (heap st).
Proof.
  intros Hget Ho Ht. rewrite (addImageMessage_known _ _ _ _ _ Hget Ho).
  destruct (autoSelected_effect topic o st) as (Hh & _).
  destruct (autoSelected topic (o, st)) as [o1 st1]. cbn [fst snd] in *.
  rewrite update_heap. cbn [heap store set_heap]. rewrite Hh.
  rewrite list_lookup_insert_eq by by eapply lookup_lt_Some.
  rewrite list_insert_insert_eq. eauto.
Qed.

(** X24. In any history of a fresh layer, a message or a settings change on
    a topic leaves every renderable of another topic exactly as it was;
    [addCameraInfoMessage] in particular touches no renderable of an image
    topic that differs from the camera-info topic, whether the two match
    or not. *)
Theorem messages_touch_only_their_topic (ops : list Op) (rd : Renderer) (op : Op) :
  let st := run ops (initial rd) in
  match opTopic op with
  | Some topic =>
      Forall2 (untouchedOff topic) (heap st)
              (take (length (heap st)) (heap (step st op)))
  | None => True
  end.
Proof.
  cbv zeta. set (st := run ops (initial rd)).
  destruct (run_wellFormed ops rd) as (_ & _ & _ & Hentries).
  fold st in Hentries.
  assert (∀ topic rid, mapGet (imagesByTopic st) topic = Some rid →
            ∃ o, heap st !! rid = Some o ∧ ud_topic o = topic) as Hmap.
  { intros topic rid Hget. by apply Hentries, mapGet_Some. }
  assert (∀ h : list ImageRenderable, take (length h) h = h) as Htake
    by (intros; by apply take_ge).
  destruct op as [topic image|topic info|topic settings|t| |i outcome|rd'];
    cbn [opTopic step]; try done.
  - destruct (mapGet (imagesByTopic st) topic) as [rid|] eqn:Hget.
    + destruct (Hmap _ _ Hget) as (o & Ho & Ht).
      destruct (addImageMessage_known_untouched topic image st rid o Hget Ho Ht)
        as [x ->].
      rewrite <- (length_insert (heap st) rid x), Htake.
      by eapply untouchedOff_insert.
    + destruct (addImageMessage_fresh topic image st Hget) as (-> & Hget' & Ho').
      destruct (addImageMessage_known_untouched topic image _ _ _ Hget' Ho' eq_refl)
        as [x ->].
      unfold registered. cbn [heap set_imagesByTopic set_children set_heap].
      rewrite insert_app_r_alt, Nat.sub_diag by done.
      rewrite take_app_length. apply untouchedOff_refl.
  - assert (heap (addCameraInfoMessage topic info st).2
            = heap (refreshed topic (recorded topic st)).2) as ->.
    { rewrite addCameraInfoMessage_stages. cbv zeta.
      destruct (refreshed topic (recorded topic st)) as [[] st2]; [|done].
      cbn [fst snd]. by destruct (negb _). }
    assert (heap (recorded topic st) = heap st ∧
            imagesByTopic (recorded topic st) = imagesByTopic st) as [Hh Hm]
      by (unfold recorded; by case_match).
    unfold refreshed. rewrite Hm.
    destruct (mapGet (imagesByTopic st) topic) as [rid|] eqn:Hget;
      [|cbn [snd]; rewrite Hh, Htake; apply untouchedOff_refl].
    destruct (Hmap _ _ Hget) as (o & Ho & Ht). rewrite Hh, Ho.
    rewrite update_heap, Hh, Ho.
    rewrite <- (length_insert (heap st) rid
                  (updateBody rid o (ud_image o) (asPartial (ud_settings o))
                     (recorded topic st)).2.1) at 1.
    rewrite Htake. by eapply untouchedOff_insert.
  - unfold setTopicSettings.
    destruct (mapGet (imagesByTopic st) topic) as [rid|] eqn:Hget;
      [|cbn [snd]; rewrite Htake; apply untouchedOff_refl].
    destruct (Hmap _ _ Hget) as (o & Ho & Ht). rewrite Ho.
    rewrite update_heap, Ho.
    rewrite <- (length_insert (heap st) rid
                  (updateBody rid o (ud_image o) settings st).2.1) at 1.
    rewrite Htake. by eapply untouchedOff_insert.
Qed.

End OneTopic.

Section GeometryPixels.

(** X25. Whatever the camera model and the distance, the geometry has
    twelve position coordinates and the same eight UV coordinates, the
    corners of the unit square row by row; it depends on the camera model
    only through its size and the rays of the four grid pixels. *)
Theorem createGeometry_reads_grid_pixels (cameraModel : PinholeCameraModel)
    (depth : float) :
  length (position (createGeometry cameraModel depth)) = 12 ∧
  uv (createGeometry cameraModel depth) = [0; 0; 1; 0; 0; 1; 1; 1]%float ∧
  length (gridPixels cameraModel) = 4 ∧
  ∀ other,
    width other = width cameraModel → height other = height cameraModel →
    Forall (λ pixel,
              projectPixelTo3dRay other (rectifyPixel other pixel)
              = projectPixelTo3dRay cameraModel (rectifyPixel cameraModel pixel))
           (gridPixels cameraModel) →
    createGeometry other depth = createGeometry cameraModel depth.
Proof.
  split_and!; try reflexivity.
  intros other Hw Hh Hrays.
  unfold gridPixels, widthSegments, heightSegments in Hrays.
  cbn [seq Nat.add mbind list_bind app] in Hrays.
  apply Forall_cons in Hrays as [H00 Hrays].
  apply Forall_cons in Hrays as [H10 Hrays].
  apply Forall_cons in Hrays as [H01 Hrays].
  apply Forall_cons in Hrays as [H11 _].
  unfold createGeometry, widthSegments, heightSegments.
  cbn [foldl seq Nat.add Nat.mul].
  unfold gridCell. cbn [Nat.add Nat.mul g_vertices g_uvs].
  rewrite Hw, Hh, H00, H10, H01, H11. reflexivity.
Qed.

End GeometryPixels.

(** ** The playback speed menu *)

Section PlaybackMenu.
Import Playback.

Lemma filter_at_most_one {A} (P : A → Prop) `{∀ x, Decision (P x)} (l : list A) d :
  NoDup l → (∀ a, a ∈ l → P a → a = d) →
  (filter P l = [] ∧ ¬ (d ∈ l ∧ P d)) ∨ (filter P l = [d] ∧ d ∈ l ∧ P d).
Proof.
  induction l as [|a l IH]; intros Hnd Hsel.
  - left. split; [done|]. intros [Hin _]. by apply elem_of_nil in Hin.
  - apply NoDup_cons in Hnd as [Ha Hnd]. rewrite filter_cons.
    destruct IH as [[Hnil Hno]|(Hone & Hin & Hd)];
      [done|intros b Hb; apply Hsel; by right| |].
    + destruct (decide (P a)) as [HP|HP].
      * assert (a = d) as -> by (apply Hsel; [left|done]).
        right. rewrite Hnil. split_and!; [done|left|done].
      * left. split; [done|]. rewrite elem_of_cons. intros [[->|?] ?]; tauto.
    + destruct (decide (P a)) as [HP|HP].
      * assert (a = d) as -> by (apply Hsel; [left|done]). done.
      * right. split_and!; [done|by right|done].
Qed.

Lemma option_equals d a :
  a ∈ SPEED_OPTIONS → (d =? a)%float = true → d = a.
Proof.
  intros Hin. unfold SPEED_OPTIONS in Hin.
  repeat (apply elem_of_cons in Hin as [->|Hin];
          [eapply eqb_finite; vm_compute; reflexivity|]).
  by apply elem_of_nil in Hin.
Qed.

Lemma option_equals_itself a : a ∈ SPEED_OPTIONS → (a =? a)%float = true.
Proof.
  intros Hin. unfold SPEED_OPTIONS in Hin.
  repeat (apply elem_of_cons in Hin as [->|Hin]; [vm_compute; reflexivity|]).
  by apply elem_of_nil in Hin.
Qed.

Lemma SPEED_OPTIONS_NoDup : NoDup SPEED_OPTIONS.
Proof.
  unfold SPEED_OPTIONS.
  repeat (apply NoDup_cons; split;
          [rewrite ?not_elem_of_cons; split_and?;
           try apply not_elem_of_nil;
           intros Heq; apply (f_equal Prim2SF) in Heq; vm_compute in Heq; discriminate|]).
  apply NoDup_nil_2.
Qed.

Lemma selectedKeys_filter h :
  selectedKeys h
  = filter (λ option, strictEquals (displayedSpeed h) option = true) SPEED_OPTIONS.
Proof.
  unfold selectedKeys, PlaybackSpeedControls. cbn [menu_items].
  fold (displayedSpeed h). generalize (displayedSpeed h). intros d.
  induction SPEED_OPTIONS as [|a l IH]; [done|].
  rewrite fmap_cons, !filter_cons. cbn [selected].
  destruct (decide (strictEquals d a = true)); [|done].
  by rewrite fmap_cons, IH.
Qed.

(** X26. The menu marks at most one speed as selected, whatever speed is
    displayed; every item carries the check icon exactly when it is
    selected and is inset exactly when it is not. The speed displayed is
    the player's when the player reports one, the layout's otherwise, and
    when it is one of the options, that option is the one selected. *)
Theorem menu_marks_one_speed (h : Hooks) :
  length (selectedKeys h) ≤ 1 ∧
  Forall (λ item, checkIcon item = selected item ∧ inset item = negb (selected item))
         (menu_items (PlaybackSpeedControls h)) ∧
  (∀ option, option ∈ SPEED_OPTIONS →
     (activeSpeed h = Some option → selectedKeys h = [option]) ∧
     (activeSpeed h = None →
      configSpeedSelector (layoutState h) = Some option → selectedKeys h = [option])).
Proof.
  rewrite selectedKeys_filter. split_and!.
  - destruct (displayedSpeed h) as [d|] eqn:Hd.
    + destruct (filter_at_most_one (λ a, strictEquals (Some d) a = true)
                  SPEED_OPTIONS d SPEED_OPTIONS_NoDup) as [[-> _]|[-> _]];
        [|simpl; lia..].
      intros a Ha Heq. symmetry. by apply option_equals.
    + assert (∀ l : list float, filter (λ a, strictEquals None a = true) l = [])
        as -> by (intros l; induction l; [done|by rewrite filter_cons_False]).
      simpl. lia.
  - unfold PlaybackSpeedControls. cbn [menu_items].
    apply Forall_fmap, Forall_forall. by intros a _.
  - assert (∀ option, option ∈ SPEED_OPTIONS → displayedSpeed h = Some option →
              filter (λ a, strictEquals (displayedSpeed h) a = true) SPEED_OPTIONS
              = [option]) as Hsel.
    { intros a Ha Hd. rewrite Hd.
      destruct (filter_at_most_one (λ b, strictEquals (Some a) b = true)
                  SPEED_OPTIONS a SPEED_OPTIONS_NoDup) as [[_ Hno]|[-> _]].
      - intros b Hb Heq. symmetry. by apply option_equals.
      - destruct Hno. split; [done|]. by apply option_equals_itself.
      - done. }
    intros a Ha. split.
    + intros Hs. apply Hsel; [done|]. unfold displayedSpeed. by rewrite Hs.
    + intros Hs Hc. apply Hsel; [done|]. unfold displayedSpeed. by rewrite Hs.
Qed.

End PlaybackMenu.

(** ** The further theorems at work *)

Section Tours.
#[local] Existing Instance Sample.externals.
Import Sample Tour.

Lemma identity_never_changes_witness :
  ∃ o', heap (run [AddImageMessage "cam/image" (jpeg 2); Dispose] arrived) !! 0
        = Some o' ∧ sameIdentity fresh o'.
Proof.
  apply (identity_never_changes [AddImageMessage "cam/image" (jpeg 2); Dispose]
           arrived 0 fresh).
  vm_compute. reflexivity.
Defined.

Lemma startFrame_hides_invisible_witness :
  ∃ events,
    heap (startFrame 1%Z hidden) !! 0 = Some (set_obj_visible hiddenRenderable false) ∧
    log (startFrame 1%Z hidden) = log hidden ++ events ∧
    ClearTopic (ud_topic hiddenRenderable) ∈ events.
Proof.
  apply (startFrame_hides_invisible hidden 1%Z "base_link" "map" 0 hiddenRenderable);
    try (vm_compute; reflexivity).
  vm_compute. left.
Defined.

Lemma texture_created_once_witness :
  ∃ o' t', heap (run secondImage streaming) !! 0 = Some o' ∧
           ud_texture o' = Some t' ∧ tex_id t' = tex_id streamedTexture.
Proof.
  apply (texture_created_once secondImage streaming 0 streamed streamedTexture);
    vm_compute; reflexivity.
Defined.

Lemma material_follows_colour_witness : Forall tinted (heap streaming).
Proof.
  apply (material_follows_colour streamingOps (withCamera bare)).
  vm_compute. reflexivity.
Defined.

Lemma addImageMessage_writes_back_witness :
  ∃ events,
    Forall isRelease events ∧
    renderer (addImageMessage "cam/image" (jpeg 1) informed).2
    = set_config_topics bare
        {["cam/image" := mkPartial None (Some (Some "cam/info")) None None]} ∧
    log (addImageMessage "cam/image" (jpeg 1) informed).2
    = log informed ++ Emit ["topics"; "cam/image"] :: events.
Proof.
  destruct (addImageMessage_writes_back_selection "cam/image" (jpeg 1) informed
              (created "cam/image" (jpeg 1) None))
    as (events & Hev & Hsel); [vm_compute; reflexivity|].
  exists events. split; [exact Hev|]. vm_compute in Hsel. vm_compute. exact Hsel.
Defined.

Lemma geometry_built_witness :
  Forall (builtAtDistance (renderer (run lateCamera (initial bare))))
         (heap (run lateCamera (initial bare))) ∧
  geo_attributes <$> (heap (run lateCamera (initial bare)) !! 0 ≫= ud_geometry)
  = Some (createGeometry camera 1).
Proof.
  split; [|vm_compute; reflexivity].
  apply (geometry_built_at_current_distance lateCamera bare).
  split; [|exact I]. intros topic cameraModel Hnone.
  vm_compute in Hnone. discriminate Hnone.
Defined.

End Tours.
